(** * Shell-story engine of jira-mcp-auth-bridge: ADF section extraction,
      shell-story parsing, completion marking and the write-next-story
      workflow around them

    Sources embedded here:
    - [shell-story-parser.ts]: [parseShellStoriesFromAdf],
      [addCompletionMarkerToShellStory] and their helpers;
    - [markdown-converter.ts]: [removeADFSectionByHeading],
      [countADFSectionsByHeading], [extractADFSection], the renderer
      [convertAdfToMarkdown] with its helpers, [createFallbackAdf] and
      [validateAdf];
    - [core-logic.ts] of write-next-story: [findNextUnwrittenStory],
      [validateDependencies], and the computations of
      [generateStoryContent], [createJiraIssue] and
      [updateEpicWithCompletion] on the parsed stories;
    - [figma-screen-setup.ts]: [extractFigmaUrlsFromADF].

    JavaScript strings are sequences of UTF-16 code units; they are modelled
    as [list N], so that [includes], [split], [trim] and the regular
    expressions of the source act on the same units as in the source. *)

From Stdlib Require Import String Ascii NArith Lia DecimalString.
From stdpp Require Import base tactics option list numbers.

(* ===================================================================== *)
(** * JavaScript strings *)
(* ===================================================================== *)

Abbreviation jsstring := (list N).

(** An ASCII literal as a JavaScript string. *)
Definition js (s : string) : jsstring :=
  map N_of_ascii (list_ascii_of_string s).
Arguments js s%_string.

(** U+27E9, the separator glyph between title and description. *)
Definition SEP : N := 0x27E9%N.

Definition streq (a b : jsstring) : bool := bool_decide (a = b).

(** JavaScript truthiness of a string: non-empty. *)
Definition truthy (s : jsstring) : bool :=
  match s with [] => false | _ => true end.

(** [s.startsWith(p)] *)
Fixpoint startsWith (s p : jsstring) : bool :=
  match p, s with
  | [], _ => true
  | _ :: _, [] => false
  | c :: p', d :: s' => (c =? d)%N && startsWith s' p'
  end.

(** [s.includes(sub)] *)
Fixpoint includes (s sub : jsstring) : bool :=
  startsWith s sub ||
  match s with
  | [] => false
  | _ :: s' => includes s' sub
  end.

(** [s.split(c)] for a one-unit separator [c]: never empty. *)
Fixpoint split (c : N) (s : jsstring) : list jsstring :=
  match s with
  | [] => [[]]
  | d :: s' =>
      if (d =? c)%N then [] :: split c s'
      else match split c s' with
           | [] => [[d]]
           | p :: ps => (d :: p) :: ps
           end
  end.

(** WhiteSpace and LineTerminator code units: what [trim] strips and what
    [\s] matches. *)
Definition isWhiteSpace (c : N) : bool :=
  ((9 <=? c) && (c <=? 13) || (c =? 32) || (c =? 160) || (c =? 0x1680)
   || (0x2000 <=? c) && (c <=? 0x200A) || (c =? 0x2028) || (c =? 0x2029)
   || (c =? 0x202F) || (c =? 0x205F) || (c =? 0x3000) || (c =? 0xFEFF))%N.

Fixpoint trimStart (s : jsstring) : jsstring :=
  match s with
  | c :: s' => if isWhiteSpace c then trimStart s' else s
  | [] => []
  end.

Definition trimEnd (s : jsstring) : jsstring := rev (trimStart (rev s)).

(** [s.trim()] *)
Definition trim (s : jsstring) : jsstring := trimEnd (trimStart s).

(** [\d] *)
Definition isDigit (c : N) : bool := ((48 <=? c) && (c <=? 57))%N.

(** [/^st\d+$/.test(s)]: the letters [s], [t], then one or more digits up to
    the end of the string. *)
Definition matches_st_digits (s : jsstring) : bool :=
  match s with
  | 115%N :: 116%N :: d :: ds => forallb isDigit (d :: ds)
  | _ => false
  end.

(** [/^[a-z]+\d+$/.test(s)]: the pattern the specification gives for
    identifiers (one or more lowercase letters, then one or more digits). *)
Definition isLower (c : N) : bool := ((97 <=? c) && (c <=? 122))%N.

Fixpoint dropWhile {A} (p : A -> bool) (l : list A) : list A :=
  match l with
  | x :: l' => if p x then dropWhile p l' else l
  | [] => []
  end.

Definition matches_letters_digits (s : jsstring) : bool :=
  match s with
  | c :: _ =>
      isLower c &&
      match dropWhile isLower s with
      | d :: ds => forallb isDigit (d :: ds)
      | [] => false
      end
  | [] => false
  end.

(* ===================================================================== *)
(** * The document model ([ADFNode]) *)
(* ===================================================================== *)

(** [{ type: string; attrs?: any }]: the only mark attribute read is [href];
    attribute bags are association lists of strings. *)
Record Mark := mkMark {
  mark_type : jsstring;
  mark_attrs : option (list (jsstring * jsstring))
}.

(** A node's [attrs]: the only attribute read by the functions below is the
    heading [level], a number; the rest of the bag is opaque. *)
Record Attrs := mkAttrs {
  level : option N;
  other_attrs : list (jsstring * jsstring)
}.

(** [interface ADFNode { type; attrs?; marks?; text?; content? }] *)
#[local] Unset Elimination Schemes.
Inductive ADFNode := mkNode {
  type : jsstring;
  attrs : option Attrs;
  marks : option (list Mark);
  text : option jsstring;
  content : option (list ADFNode)
}.
#[local] Set Elimination Schemes.

(** Constructors for the shapes that occur in the examples. *)
Definition textNode (t : jsstring) : ADFNode :=
  mkNode (js "text") None None (Some t) None.
Definition markedText (t : jsstring) (ms : list Mark) : ADFNode :=
  mkNode (js "text") None (Some ms) (Some t) None.
Definition block (ty : jsstring) (c : list ADFNode) : ADFNode :=
  mkNode ty None None None (Some c).
Definition heading (lvl : option N) (c : list ADFNode) : ADFNode :=
  mkNode (js "heading") (Some (mkAttrs lvl [])) None None (Some c).
Definition mark (ty : jsstring) : Mark := mkMark ty None.
Definition linkMark (url : jsstring) : Mark :=
  mkMark (js "link") (Some [(js "href", url)]).

(** [node.marks?.some(mark => mark.type === markType) ?? false] *)
Definition hasMarkType (node : ADFNode) (markType : jsstring) : bool :=
  match marks node with
  | Some ms => existsb (fun m => streq (mark_type m) markType) ms
  | None => false
  end.

(** [obj?.[name]] on an attribute bag. *)
Fixpoint lookupAttr (name : jsstring) (bag : list (jsstring * jsstring))
  : option jsstring :=
  match bag with
  | [] => None
  | (k, v) :: bag' => if streq k name then Some v else lookupAttr name bag'
  end.

(** [node.marks?.find(m => m.type === markType)?.attrs?.[attrName]] *)
Definition getMarkAttribute (node : ADFNode) (markType attrName : jsstring)
  : option jsstring :=
  match marks node with
  | Some ms =>
      match List.find (fun m => streq (mark_type m) markType) ms with
      | Some m =>
          match mark_attrs m with
          | Some bag => lookupAttr attrName bag
          | None => None
          end
      | None => None
      end
  | None => None
  end.

Definition isType (node : ADFNode) (ty : jsstring) : bool :=
  streq (type node) ty.

(** [node.text?.includes('⟩')] (an absent [text] gives [undefined], falsy) *)
Definition textIncludesSep (node : ADFNode) : bool :=
  match text node with
  | Some t => includes t [SEP]
  | None => false
  end.

(** [node.text || ''] *)
Definition textOrEmpty (node : ADFNode) : jsstring :=
  match text node with Some t => t | None => [] end.

(** [node.content!] where the content is known to be present. *)
Definition contentOf (node : ADFNode) : list ADFNode :=
  match content node with Some c => c | None => [] end.

Definition hasContent (node : ADFNode) : bool :=
  match content node with Some _ => true | None => false end.

(* ===================================================================== *)
(** * Results of functions that may throw *)
(* ===================================================================== *)

Inductive Res (A : Type) :=
| Ok (a : A)
| Throw (msg : jsstring).
Arguments Ok {A} a.
Arguments Throw {A} msg.

Definition bindRes {A B} (r : Res A) (k : A -> Res B) : Res B :=
  match r with
  | Ok a => k a
  | Throw m => Throw m
  end.

Notation "'letr' x := r 'in' k" := (bindRes r (fun x => k))
  (at level 10, x name, r at level 100, k at level 200, only parsing).

(** [forEachWithContent(source, { type }, callback)] for a callback that
    reads the node, updates an accumulator of the caller and may throw:
    the callback runs on the nodes of the given type that have a [content],
    in order. *)
Fixpoint forEachWithContent {St} (source : list ADFNode) (ty : jsstring)
    (callback : ADFNode -> St -> Res St) (s : St) : Res St :=
  match source with
  | [] => Ok s
  | node :: rest =>
      if isType node ty && hasContent node then
        letr s' := callback node s in
        forEachWithContent rest ty callback s'
      else forEachWithContent rest ty callback s
  end.

(* ===================================================================== *)
(** * The shell-story parser ([shell-story-parser.ts]) *)
(* ===================================================================== *)

Record ParsedShellStoryADF := mkStory {
  id : jsstring;
  title : jsstring;
  description : jsstring;
  jiraUrl : option jsstring;
  screens : list jsstring;
  dependencies : list jsstring;
  rawShellStoryMarkdown : jsstring
}.

(** [itemContent.find(node => node.type === 'paragraph') ?? null] *)
Definition findParagraph (itemContent : list ADFNode) : option ADFNode :=
  List.find (fun node => isType node (js "paragraph")) itemContent.

(** The loop of [extractStoryId] over the paragraph's inline nodes. *)
Fixpoint scanStoryId (nodes : list ADFNode) : option jsstring :=
  match nodes with
  | [] => None
  | textNode :: rest =>
      if isType textNode (js "text") && hasMarkType textNode (js "code") then
        match text textNode with
        | Some t => if matches_st_digits t then Some t else scanStoryId rest
        | None => scanStoryId rest
        end
      else scanStoryId rest
  end.

Definition extractStoryId (itemContent : list ADFNode) : option jsstring :=
  match findParagraph itemContent with
  | Some para =>
      match content para with
      | Some c => scanStoryId c
      | None => None
      end
  | None => None
  end.

(** The state of the loop of [extractTitleInfo] when it ends. *)
Record TitleScan := mkTitleScan {
  foundId : bool;
  foundSeparator : bool;
  scannedTitle : jsstring;
  scannedUrl : option jsstring
}.

Fixpoint titleLoop (nodes : list ADFNode) (fid : bool) (ttl : jsstring)
    (url : option jsstring) : TitleScan :=
  match nodes with
  | [] => mkTitleScan fid false ttl url
  | textNode :: rest =>
      if isType textNode (js "text") && hasMarkType textNode (js "code") then
        titleLoop rest true ttl url
      else if isType textNode (js "text") && textIncludesSep textNode then
        let part0 := hd [] (split SEP (textOrEmpty textNode)) in
        mkTitleScan fid true
          (if truthy part0 then ttl ++ trim part0 else ttl) url
      else if fid && isType textNode (js "text") then
        titleLoop rest fid
          (ttl ++ trim (textOrEmpty textNode) ++ js " ")
          (if hasMarkType textNode (js "link")
           then getMarkAttribute textNode (js "link") (js "href")
           else url)
      else titleLoop rest fid ttl url
  end.

Definition extractTitleInfo (itemContent : list ADFNode)
  : option (jsstring * option jsstring) :=
  match findParagraph itemContent with
  | Some paragraph =>
      match content paragraph with
      | Some c =>
          let r := titleLoop c false [] None in
          if foundId r && foundSeparator r && truthy (scannedTitle r)
          then Some (trim (scannedTitle r), scannedUrl r)
          else None
      | None => None
      end
  | None => None
  end.

Fixpoint descriptionLoop (nodes : list ADFNode) (fsep : bool)
    (desc : jsstring) : jsstring :=
  match nodes with
  | [] => desc
  | textNode :: rest =>
      if isType textNode (js "text") then
        if textIncludesSep textNode then
          let part1 := nth 1 (split SEP (textOrEmpty textNode)) [] in
          descriptionLoop rest true
            (if truthy part1 then desc ++ trim part1 else desc)
        else if fsep && negb (hasMarkType textNode (js "em")) then
          descriptionLoop rest fsep
            (desc ++ js " " ++ trim (textOrEmpty textNode))
        else descriptionLoop rest fsep desc
      else if fsep && isType textNode (js "hardBreak") then
        descriptionLoop rest fsep (desc ++ [10%N])
      else descriptionLoop rest fsep desc
  end.

Definition extractDescription (itemContent : list ADFNode) : jsstring :=
  match findParagraph itemContent with
  | Some paragraph =>
      match content paragraph with
      | Some c => trim (descriptionLoop c false [])
      | None => []
      end
  | None => []
  end.

(** [convertAdfNodesToMarkdown] (the one-way renderer) and
    [String.prototype.toLowerCase] are taken as given functions. *)
Section Parser.
Variable toLowerCase : jsstring -> jsstring.
Variable convertAdfNodesToMarkdown : list ADFNode -> jsstring.

(** The innermost callback of [extractScreens], on one paragraph. *)
Definition screensOfParagraph (paragraph : ADFNode) (urls : list jsstring)
  : list jsstring :=
  let c := contentOf paragraph in
  let isScreens :=
    match c with
    | first :: _ =>
        isType first (js "text") && truthy (textOrEmpty first)
        && includes (textOrEmpty first) (js "SCREENS:")
    | [] => false
    end in
  if isScreens then
    fold_left (fun urls node =>
      if isType node (js "text") && hasMarkType node (js "link") then
        match getMarkAttribute node (js "link") (js "href") with
        | Some url => if truthy url then urls ++ [url] else urls
        | None => urls
        end
      else urls) c urls
  else urls.

(** The three nested [forEachWithContent] of [extractScreens] and
    [extractDependencies]: bullet lists, their list items, their
    paragraphs. *)
Definition forEachNestedParagraph {St} (itemContent : list ADFNode)
    (callback : ADFNode -> St -> St) (s : St) : Res St :=
  forEachWithContent itemContent (js "bulletList") (fun bulletList s =>
    forEachWithContent (contentOf bulletList) (js "listItem") (fun listItem s =>
      forEachWithContent (contentOf listItem) (js "paragraph")
        (fun paragraph s => Ok (callback paragraph s)) s) s) s.

Definition extractScreens (itemContent : list ADFNode) : Res (list jsstring) :=
  forEachNestedParagraph itemContent screensOfParagraph [].

(** [extractTextFromAdfNodes] *)
Fixpoint extractTextFromAdfNode (node : ADFNode) : jsstring :=
  if isType node (js "text") then textOrEmpty node
  else if isType node (js "hardBreak") then [10%N]
  else match content node with
       | Some c =>
           (fix go (nodes : list ADFNode) : jsstring :=
              match nodes with
              | [] => []
              | n :: rest => extractTextFromAdfNode n ++ go rest
              end) c
       | None => []
       end.

Definition extractTextFromAdfNodes (nodes : list ADFNode) : jsstring :=
  concat (map extractTextFromAdfNode nodes).

(** [s.replace(/^DEPENDENCIES:\s*/, '')] *)
Definition stripDependenciesLabel (s : jsstring) : jsstring :=
  if startsWith s (js "DEPENDENCIES:")
  then trimStart (drop (length (js "DEPENDENCIES:")) s)
  else s.

(** The innermost callback of [extractDependencies], on one paragraph. *)
Definition dependenciesOfParagraph (paragraph : ADFNode)
    (dependencyIds : list jsstring) : list jsstring :=
  let c := contentOf paragraph in
  let isDependenciesLine :=
    match c with
    | firstNode :: _ =>
        isType firstNode (js "text") && truthy (textOrEmpty firstNode)
        && includes (textOrEmpty firstNode) (js "DEPENDENCIES:")
    | [] => false
    end in
  if isDependenciesLine then
    let depsText := trim (stripDependenciesLabel (extractTextFromAdfNodes c)) in
    if streq (toLowerCase depsText) (js "none") then dependencyIds
    else
      fold_left (fun ids dep =>
        let value := trim dep in
        if truthy value then ids ++ [value] else ids)
        (split 44%N depsText) dependencyIds
  else dependencyIds.

Definition extractDependencies (itemContent : list ADFNode)
  : Res (list jsstring) :=
  forEachNestedParagraph itemContent dependenciesOfParagraph [].

Definition msgMissingId : jsstring :=
  js "Shell story missing ID: Each story must start with a story ID like `st001`".

Definition msgMissingTitle (storyId : jsstring) : jsstring :=
  js "Shell story " ++ storyId ++ js " missing title or separator (" ++ [SEP]
  ++ js "): Format must be `" ++ storyId ++ js "` **Title** " ++ [SEP]
  ++ js " Description".

Definition msgMissingDescription (storyId : jsstring) : jsstring :=
  js "Shell story " ++ storyId ++ js " missing description after separator ("
  ++ [SEP] ++ js ")".

(** [parseShellStoryFromListItem]: [Ok None] stands for the [null] result. *)
Definition parseShellStoryFromListItem (listItem : ADFNode)
  : Res (option ParsedShellStoryADF) :=
  if negb (isType listItem (js "listItem")) || negb (hasContent listItem)
  then Ok None
  else
    let c := contentOf listItem in
    match extractStoryId c with
    | None => Throw msgMissingId
    | Some storyId =>
        match extractTitleInfo c with
        | None => Throw (msgMissingTitle storyId)
        | Some titleInfo =>
            let description := extractDescription c in
            if negb (truthy description)
            then Throw (msgMissingDescription storyId)
            else
              let rawShellStoryMarkdown := convertAdfNodesToMarkdown [listItem] in
              letr screens := extractScreens c in
              letr dependencies := extractDependencies c in
              Ok (Some (mkStory storyId (fst titleInfo) description
                          (snd titleInfo) screens dependencies
                          rawShellStoryMarkdown))
        end
    end.

(** [parseShellStoriesFromAdf] *)
Definition parseShellStoriesFromAdf (shellStoriesSection : list ADFNode)
  : Res (list ParsedShellStoryADF) :=
  forEachWithContent shellStoriesSection (js "bulletList")
    (fun bulletList stories =>
       forEachWithContent (contentOf bulletList) (js "listItem")
         (fun listItem stories =>
            letr story := parseShellStoryFromListItem listItem in
            match story with
            | Some st => Ok (stories ++ [st])
            | None => Ok stories
            end) stories) [].

End Parser.

(** ASCII lower-casing, which is what [toLowerCase] does on ASCII text; used
    to run the examples. *)
Definition asciiLower (s : jsstring) : jsstring :=
  map (fun c => if ((65 <=? c) && (c <=? 90))%N then (c + 32)%N else c) s.

(* ===================================================================== *)
(** * The completion-marker mutator, as a function on trees *)
(* ===================================================================== *)

(** This section gives the tree that [addCompletionMarkerToShellStory]
    returns as a function of the tree it is given. The object-level model,
    with the clone and the in-place writes, is in [Module Heap] below and is
    proved to compute this function. *)

Definition setMarks (node : ADFNode) (ms : list Mark) : ADFNode :=
  mkNode (type node) (attrs node) (Some ms) (text node) (content node).
Definition setText (node : ADFNode) (t : jsstring) : ADFNode :=
  mkNode (type node) (attrs node) (marks node) (Some t) (content node).
Definition setContent (node : ADFNode) (c : list ADFNode) : ADFNode :=
  mkNode (type node) (attrs node) (marks node) (text node) (Some c).

(** [findTitleParts]: the title nodes, given by their positions in the
    paragraph's content, starting the count at [i]. *)
Fixpoint findTitlePartsFrom (nodes : list ADFNode) (i : nat) (passedId : bool)
  : list nat :=
  match nodes with
  | [] => []
  | node :: rest =>
      if isType node (js "text") && hasMarkType node (js "code") then
        findTitlePartsFrom rest (S i) true
      else if isType node (js "text") && textIncludesSep node then []
      else if passedId && isType node (js "text") then
        i :: findTitlePartsFrom rest (S i) passedId
      else findTitlePartsFrom rest (S i) passedId
  end.

Definition findTitleParts (c : list ADFNode) : list nat :=
  findTitlePartsFrom c 0 false.

Definition isLinkMark (m : Mark) : bool := streq (mark_type m) (js "link").

(** [addLinkToNode] *)
Definition addLinkToNode (url : jsstring) (node : ADFNode) : ADFNode :=
  if negb (isType node (js "text")) then node
  else
    let ms := match marks node with Some ms => ms | None => [] end in
    if existsb isLinkMark ms then setMarks node ms
    else setMarks node (ms ++ [linkMark url]).

(** [content.findIndex(p)] *)
Fixpoint findIndex {A} (p : A -> bool) (l : list A) : option nat :=
  match l with
  | [] => None
  | x :: l' => if p x then Some 0 else S <$> findIndex p l'
  end.

Definition isEmText (n : ADFNode) : bool :=
  isType n (js "text") && hasMarkType n (js "em").

(** [`(${now})`] *)
Definition stampText (now : jsstring) : jsstring := js "(" ++ now ++ js ")".

(** [appendOrUpdateTimestamp], where [now] is [new Date().toISOString()]. *)
Definition appendOrUpdateTimestamp (now : jsstring) (c : list ADFNode)
  : list ADFNode :=
  match findIndex isEmText c with
  | Some existingIdx =>
      alter (fun node =>
               if isType node (js "text") then setText node (stampText now)
               else node) existingIdx c
  | None =>
      c ++ [textNode (js " ");
            markedText (stampText now) [mark (js "em")]]
  end.

(** The callback on a paragraph of the matching list item. *)
Definition markParagraph (url now : jsstring) (paragraph : ADFNode) : ADFNode :=
  match content paragraph with
  | None => paragraph
  | Some c =>
      let linked :=
        fold_left (fun c i => alter (addLinkToNode url) i c)
                  (findTitleParts c) c in
      setContent paragraph (appendOrUpdateTimestamp now linked)
  end.

(** [forEachWithContent] for a callback that updates the visited node in
    place: the nodes of the given type that have a content are replaced by
    their updated state. *)
Definition updateWithContent (ty : jsstring) (callback : ADFNode -> ADFNode)
    (source : list ADFNode) : list ADFNode :=
  map (fun node =>
         if isType node ty && hasContent node then callback node else node)
      source.

Definition isStory (storyId : jsstring) (listItem : ADFNode) : bool :=
  bool_decide (extractStoryId (contentOf listItem) = Some storyId).

Definition markListItem (storyId url now : jsstring) (listItem : ADFNode)
  : ADFNode :=
  if isStory storyId listItem then
    setContent listItem
      (updateWithContent (js "paragraph") (markParagraph url now)
                         (contentOf listItem))
  else listItem.

Definition markBulletList (storyId url now : jsstring) (bulletList : ADFNode)
  : ADFNode :=
  setContent bulletList
    (updateWithContent (js "listItem") (markListItem storyId url now)
                       (contentOf bulletList)).

(** The final value of the [storyFound] flag. *)
Definition storyFound (storyId : jsstring) (section : list ADFNode) : bool :=
  existsb (fun bulletList =>
    isType bulletList (js "bulletList") && hasContent bulletList &&
    existsb (fun listItem =>
      isType listItem (js "listItem") && hasContent listItem &&
      isStory storyId listItem) (contentOf bulletList)) section.

Definition msgNotFound (storyId : jsstring) : jsstring :=
  js "Story " ++ storyId ++ js " not found in Shell Stories section".

(** [addCompletionMarkerToShellStory]; [now] is the reading of the clock
    (all the readings of one call are taken at the same instant). *)
Definition addCompletionMarkerToShellStory (now : jsstring)
    (shellStoriesSection : list ADFNode) (storyId issueKey issueUrl : jsstring)
  : Res (list ADFNode) :=
  let newSection :=
    updateWithContent (js "bulletList") (markBulletList storyId issueUrl now)
                      shellStoriesSection in
  if storyFound storyId shellStoriesSection then Ok newSection
  else Throw (msgNotFound storyId).

(* ===================================================================== *)
(** * Sections of a document ([markdown-converter.ts]) *)
(* ===================================================================== *)

Section Sections.
Variable toLowerCase : jsstring -> jsstring.

(** [node.attrs?.level || 2] *)
Definition headingLevel (node : ADFNode) : N :=
  match attrs node with
  | Some a =>
      match level a with
      | Some l => if (l =? 0)%N then 2%N else l
      | None => 2%N
      end
  | None => 2%N
  end.

(** [node.content?.some(c => c.type === 'text' &&
       c.text?.toLowerCase().includes(headingText.toLowerCase()))] *)
Definition hasMatchingText (node : ADFNode) (headingText : jsstring) : bool :=
  match content node with
  | Some c =>
      existsb (fun contentNode =>
        isType contentNode (js "text") &&
        match text contentNode with
        | Some t => includes (toLowerCase t) (toLowerCase headingText)
        | None => false
        end) c
  | None => false
  end.

Definition isMatchingHeading (headingText : jsstring) (node : ADFNode) : bool :=
  isType node (js "heading") && hasMatchingText node headingText.

(** The first loop: [nodes] is [content] from index [i] on; the result is
    [(sectionStartIndex, sectionLevel)], [None] standing for [-1]. *)
Fixpoint findSectionStart (nodes : list ADFNode) (i : nat)
    (headingText : jsstring) : option (nat * N) :=
  match nodes with
  | [] => None
  | node :: rest =>
      if isMatchingHeading headingText node then Some (i, headingLevel node)
      else findSectionStart rest (S i) headingText
  end.

(** The second loop: [nodes] is [content] from index [i] on; the result is
    [sectionEndIndex]. *)
Fixpoint findSectionEnd (nodes : list ADFNode) (i : nat) (sectionLevel : N)
  : nat :=
  match nodes with
  | [] => i
  | node :: rest =>
      if isType node (js "heading") && (headingLevel node <=? sectionLevel)%N
      then i
      else findSectionEnd rest (S i) sectionLevel
  end.

(** [content.slice(a, b)] for [a <= b] within the array. *)
Definition slice {A} (l : list A) (a b : nat) : list A := take (b - a) (drop a l).

(** [removeADFSectionByHeading] *)
Definition removeADFSectionByHeading (content : list ADFNode)
    (headingText : jsstring) : list ADFNode :=
  match findSectionStart content 0 headingText with
  | None => content
  | Some (sectionStartIndex, sectionLevel) =>
      let sectionEndIndex :=
        findSectionEnd (drop (S sectionStartIndex) content)
                       (S sectionStartIndex) sectionLevel in
      take sectionStartIndex content ++ drop sectionEndIndex content
  end.

(** [countADFSectionsByHeading] *)
Definition countADFSectionsByHeading (content : list ADFNode)
    (headingText : jsstring) : nat :=
  length (filter (fun node => isMatchingHeading headingText node = true) content).

Record Extracted := mkExtracted {
  section : list ADFNode;
  remainingContent : list ADFNode
}.

(** [extractADFSection] *)
Definition extractADFSection (content : list ADFNode) (headingText : jsstring)
  : Extracted :=
  match findSectionStart content 0 headingText with
  | None => mkExtracted [] content
  | Some (sectionStartIndex, sectionLevel) =>
      let sectionEndIndex :=
        findSectionEnd (drop (S sectionStartIndex) content)
                       (S sectionStartIndex) sectionLevel in
      mkExtracted (slice content sectionStartIndex sectionEndIndex)
                  (take sectionStartIndex content ++ drop sectionEndIndex content)
  end.

End Sections.

(* ===================================================================== *)
(** * The mutator on the object heap *)
(* ===================================================================== *)

(** JavaScript nodes and arrays are objects with identity, and the mutator
    writes into them. Here the heap is a list of objects, a reference is an
    index into it, and allocation appends. Mark objects and [attrs] bags are
    never written to by the code and are stored by value. *)
Module Heap.

Abbreviation loc := nat.

Record nodeObj := mkObj {
  o_type : jsstring;
  o_attrs : option Attrs;
  o_marks : option loc;        (* reference to the [marks] array *)
  o_text : option jsstring;
  o_content : option loc       (* reference to the [content] array *)
}.

Inductive obj :=
| ONode (o : nodeObj)
| OMarks (ms : list Mark)
| ONodes (ns : list loc).

Abbreviation heap := (list obj).

(** The outcome of a computation: a value, a thrown [Error], or [Stuck] when
    the model is asked what JavaScript never does (following a reference to
    no object or to an object of another kind) or when the fuel of
    [structuredClone] runs out. *)
Inductive outcome (A : Type) :=
| Ret (a : A)
| Thrown (msg : jsstring)
| Stuck.
Arguments Ret {A} a.
Arguments Thrown {A} msg.
Arguments Stuck {A}.

Definition M (A : Type) : Type := heap -> outcome A * heap.

Definition ret {A} (a : A) : M A := fun h => (Ret a, h).
Definition throw {A} (msg : jsstring) : M A := fun h => (Thrown msg, h).
Definition stuck {A} : M A := fun h => (Stuck, h).

Definition bind {A B} (m : M A) (k : A -> M B) : M B :=
  fun h =>
    match m h with
    | (Ret a, h') => k a h'
    | (Thrown msg, h') => (Thrown msg, h')
    | (Stuck, h') => (Stuck, h')
    end.

Notation "'do' x := m 'in' k" := (bind m (fun x => k))
  (at level 10, x name, m at level 100, k at level 200, only parsing).

Definition alloc (o : obj) : M loc := fun h => (Ret (length h), h ++ [o]).

Definition loadNode (l : loc) : M nodeObj :=
  fun h => match h !! l with
           | Some (ONode o) => (Ret o, h)
           | _ => (Stuck, h)
           end.

Definition loadMarks (l : loc) : M (list Mark) :=
  fun h => match h !! l with
           | Some (OMarks ms) => (Ret ms, h)
           | _ => (Stuck, h)
           end.

Definition loadNodes (l : loc) : M (list loc) :=
  fun h => match h !! l with
           | Some (ONodes ns) => (Ret ns, h)
           | _ => (Stuck, h)
           end.

Definition store (l : loc) (o : obj) : M unit :=
  fun h => if decide (l < length h) then (Ret tt, <[l := o]> h)
           else (Stuck, h).

Fixpoint traverse {A B} (f : A -> M B) (l : list A) : M (list B) :=
  match l with
  | [] => ret []
  | x :: l' => do y := f x in do ys := traverse f l' in ret (y :: ys)
  end.

Fixpoint forM_ {A} (l : list A) (f : A -> M unit) : M unit :=
  match l with
  | [] => ret tt
  | x :: l' => do _ := f x in forM_ l' f
  end.

(** [structuredClone] of a node: a fresh copy of the node, of its [marks]
    array and, recursively, of its [content]. The recursion follows the
    references of the heap, so it is bounded by [fuel]. *)
Definition cloneMarks (mk : option loc) : M (option loc) :=
  match mk with
  | None => ret None
  | Some lm =>
      do ms := loadMarks lm in
      do lm' := alloc (OMarks ms) in ret (Some lm')
  end.

Definition cloneContent (cloneChild : loc -> M loc) (ct : option loc)
  : M (option loc) :=
  match ct with
  | None => ret None
  | Some lc =>
      do ns := loadNodes lc in
      do ns' := traverse cloneChild ns in
      do lc' := alloc (ONodes ns') in ret (Some lc')
  end.

Fixpoint cloneNode (fuel : nat) (l : loc) : M loc :=
  match fuel with
  | 0 => stuck
  | S fuel' =>
      do o := loadNode l in
      do mk := cloneMarks (o_marks o) in
      do ct := cloneContent (cloneNode fuel') (o_content o) in
      alloc (ONode (mkObj (o_type o) (o_attrs o) mk (o_text o) ct))
  end.

(** [structuredClone(shellStoriesSection)] *)
Definition structuredClone (fuel : nat) (arr : loc) : M loc :=
  do ns := loadNodes arr in
  do ns' := traverse (cloneNode fuel) ns in
  alloc (ONodes ns').

(** The loop of [forEachWithContent] over the elements of the array; the
    accumulator [s] stands for the variables of the caller that the callback
    assigns. *)
Fixpoint forEachNodes {St} (nodes : list loc) (ty : jsstring)
    (callback : loc -> St -> M St) (s : St) : M St :=
  match nodes with
  | [] => ret s
  | node :: rest =>
      do o := loadNode node in
      if streq (o_type o) ty && bool_decide (is_Some (o_content o)) then
        do s' := callback node s in forEachNodes rest ty callback s'
      else forEachNodes rest ty callback s
  end.

Definition forEachWithContent {St} (source : loc) (ty : jsstring)
    (callback : loc -> St -> M St) (s : St) : M St :=
  do nodes := loadNodes source in forEachNodes nodes ty callback s.

Definition hasMarkType (node : loc) (markType : jsstring) : M bool :=
  do o := loadNode node in
  match o_marks o with
  | None => ret false
  | Some lm =>
      do ms := loadMarks lm in
      ret (existsb (fun m => streq (mark_type m) markType) ms)
  end.

(** [node.type === 'text' && hasMarkType(node, markType)] *)
Definition isTextWithMark (node : loc) (markType : jsstring) : M bool :=
  do o := loadNode node in
  if streq (o_type o) (js "text") then hasMarkType node markType
  else ret false.

Fixpoint findNode (p : nodeObj -> bool) (nodes : list loc) : M (option loc) :=
  match nodes with
  | [] => ret None
  | l :: rest =>
      do o := loadNode l in
      if p o then ret (Some l) else findNode p rest
  end.

Fixpoint scanStoryId (nodes : list loc) : M (option jsstring) :=
  match nodes with
  | [] => ret None
  | textNode :: rest =>
      do b := isTextWithMark textNode (js "code") in
      if b then
        do o := loadNode textNode in
        match o_text o with
        | Some t => if matches_st_digits t then ret (Some t)
                    else scanStoryId rest
        | None => scanStoryId rest
        end
      else scanStoryId rest
  end.

Definition extractStoryId (itemContent : loc) : M (option jsstring) :=
  do nodes := loadNodes itemContent in
  do para := findNode (fun o => streq (o_type o) (js "paragraph")) nodes in
  match para with
  | None => ret None
  | Some p =>
      do o := loadNode p in
      match o_content o with
      | None => ret None
      | Some lc => do c := loadNodes lc in scanStoryId c
      end
  end.

Definition objIncludesSep (o : nodeObj) : bool :=
  match o_text o with
  | Some t => includes t [SEP]
  | None => false
  end.

(** The loop of [findTitleParts]; the result is the array [titleNodes] of
    references into the paragraph. *)
Fixpoint findTitleNodes (nodes : list loc) (passedId : bool) : M (list loc) :=
  match nodes with
  | [] => ret []
  | node :: rest =>
      do isId := isTextWithMark node (js "code") in
      if isId then findTitleNodes rest true
      else
        do o := loadNode node in
        if streq (o_type o) (js "text") && objIncludesSep o then ret []
        else if passedId && streq (o_type o) (js "text") then
          do more := findTitleNodes rest passedId in ret (node :: more)
        else findTitleNodes rest passedId
  end.

Definition findTitleParts (content : loc) : M (list loc) :=
  do nodes := loadNodes content in findTitleNodes nodes false.

Definition addLinkToNode (url : jsstring) (textNode : loc) : M unit :=
  do o := loadNode textNode in
  if negb (streq (o_type o) (js "text")) then ret tt
  else
    do lm := match o_marks o with
             | Some lm => ret lm
             | None =>
                 do lm := alloc (OMarks []) in
                 do _ := store textNode
                           (ONode (mkObj (o_type o) (o_attrs o) (Some lm)
                                         (o_text o) (o_content o))) in
                 ret lm
             end in
    do ms := loadMarks lm in
    if existsb isLinkMark ms then ret tt
    else store lm (OMarks (ms ++ [linkMark url])).

(** [content.push(node)] *)
Definition push (arr : loc) (node : loc) : M unit :=
  do ns := loadNodes arr in store arr (ONodes (ns ++ [node])).

Fixpoint findIndexEm (nodes : list loc) : M (option loc) :=
  match nodes with
  | [] => ret None
  | n :: rest =>
      do b := isTextWithMark n (js "em") in
      if b then ret (Some n) else findIndexEm rest
  end.

Definition appendOrUpdateTimestamp (now : jsstring) (content : loc) : M unit :=
  do nodes := loadNodes content in
  do existing := findIndexEm nodes in
  match existing with
  | Some node =>
      do o := loadNode node in
      if streq (o_type o) (js "text") then
        store node (ONode (mkObj (o_type o) (o_attrs o) (o_marks o)
                                 (Some (stampText now)) (o_content o)))
      else ret tt
  | None =>
      do space := alloc (ONode (mkObj (js "text") None None
                                      (Some (js " ")) None)) in
      do _ := push content space in
      do lm := alloc (OMarks [mark (js "em")]) in
      do stamp := alloc (ONode (mkObj (js "text") None (Some lm)
                                      (Some (stampText now)) None)) in
      push content stamp
  end.

(** [node.content!] *)
Definition contentRef (node : loc) : M loc :=
  do o := loadNode node in
  match o_content o with
  | Some lc => ret lc
  | None => stuck
  end.

Definition markParagraph (url now : jsstring) (paragraph : loc) : M unit :=
  do o := loadNode paragraph in
  match o_content o with
  | None => ret tt
  | Some pc =>
      do parts := findTitleParts pc in
      do _ := forM_ parts (addLinkToNode url) in
      appendOrUpdateTimestamp now pc
  end.

Definition markListItem (storyId url now : jsstring) (listItem : loc)
    (found : bool) : M bool :=
  do lc := contentRef listItem in
  do sid := extractStoryId lc in
  if bool_decide (sid = Some storyId) then
    do _ := forEachWithContent lc (js "paragraph")
              (fun paragraph _ => markParagraph url now paragraph) tt in
    ret true
  else ret found.

Definition markBulletList (storyId url now : jsstring) (bulletList : loc)
    (found : bool) : M bool :=
  do lc := contentRef bulletList in
  forEachWithContent lc (js "listItem") (markListItem storyId url now) found.

(** [addCompletionMarkerToShellStory] on the heap: [shellStoriesSection] is
    the reference to the input array, the result the reference to the new
    one. *)
Definition addCompletionMarkerToShellStory (fuel : nat) (now : jsstring)
    (shellStoriesSection : loc) (storyId issueKey issueUrl : jsstring)
  : M loc :=
  do newSection := structuredClone fuel shellStoriesSection in
  do found := forEachWithContent newSection (js "bulletList")
                (markBulletList storyId issueUrl now) false in
  if found then ret newSection
  else throw (msgNotFound storyId).

(** ** Trees laid out in a heap *)

(** A tree together with the references of its objects. *)
#[local] Unset Elimination Schemes.
Inductive LTree :=
| LT (l : loc) (ty : jsstring) (a : option Attrs)
     (mk : option (loc * list Mark)) (tx : option jsstring)
     (ct : option (loc * list LTree)).
#[local] Set Elimination Schemes.

Definition root (t : LTree) : loc := match t with LT l _ _ _ _ _ => l end.

Fixpoint erase (t : LTree) : ADFNode :=
  match t with
  | LT _ ty a mk tx ct =>
      mkNode ty a (snd <$> mk) tx
        (match ct with
         | Some (_, ts) => Some (map erase ts)
         | None => None
         end)
  end.

(** The references of the objects of a tree. *)
Fixpoint locs (t : LTree) : list loc :=
  match t with
  | LT l _ _ mk _ ct =>
      l :: match mk with Some (lm, _) => [lm] | None => [] end
        ++ match ct with
           | Some (lc, ts) => lc :: concat (map locs ts)
           | None => []
           end
  end.

(** The heap holds the objects of the tree at their references. *)
Fixpoint stored (h : heap) (t : LTree) : Prop :=
  match t with
  | LT l ty a mk tx ct =>
      h !! l = Some (ONode (mkObj ty a (fst <$> mk) tx (fst <$> ct)))
      /\ match mk with
         | Some (lm, ms) => h !! lm = Some (OMarks ms)
         | None => True
         end
      /\ match ct with
         | Some (lc, ts) =>
             h !! lc = Some (ONodes (map root ts))
             /\ (fix all (ts : list LTree) : Prop :=
                   match ts with
                   | [] => True
                   | t :: ts' => stored h t /\ all ts'
                   end) ts
         | None => True
         end
  end.

(** The array at [arr] holds the roots of trees that the heap holds, no
    object belonging to two of them (exclusive ownership). *)
Definition holds (h : heap) (arr : loc) (ts : list LTree) : Prop :=
  h !! arr = Some (ONodes (map root ts))
  /\ Forall (stored h) ts
  /\ NoDup (arr :: concat (map locs ts)).

(** The array at [arr] represents the node array [S]. *)
Definition represents (h : heap) (arr : loc) (S : list ADFNode) : Prop :=
  exists ts, holds h arr ts /\ map erase ts = S.

(** Nesting depth, which bounds the fuel that cloning needs. *)
Fixpoint depth (n : ADFNode) : nat :=
  match n with
  | mkNode _ _ _ _ ct =>
      S (match ct with
         | Some c => (fix mx (c : list ADFNode) : nat :=
                        match c with
                        | [] => 0
                        | n :: c' => Nat.max (depth n) (mx c')
                        end) c
         | None => 0
         end)
  end.

Definition depths (S : list ADFNode) : nat :=
  foldr (fun n d => Nat.max (depth n) d) 0 S.

(** Laying a tree out in the heap, to build examples. *)
Fixpoint allocNode (n : ADFNode) : M loc :=
  match n with
  | mkNode ty a mk tx ct =>
      do mk' := match mk with
                | None => ret None
                | Some ms => do lm := alloc (OMarks ms) in ret (Some lm)
                end in
      do ct' := match ct with
                | None => ret None
                | Some c =>
                    do ns := (fix go (c : list ADFNode) : M (list loc) :=
                                match c with
                                | [] => ret []
                                | n :: c' =>
                                    do l := allocNode n in
                                    do ls := go c' in ret (l :: ls)
                                end) c in
                    do lc := alloc (ONodes ns) in ret (Some lc)
                end in
      alloc (ONode (mkObj ty a mk' tx ct'))
  end.

Definition allocNodes (S : list ADFNode) : M loc :=
  do ns := traverse allocNode S in alloc (ONodes ns).

End Heap.


(* ===================================================================== *)
(** * Rendering a document as Markdown ([markdown-converter.ts]) *)
(* ===================================================================== *)

(** [parts.join(sep)] *)
Fixpoint joinWith (sep : jsstring) (parts : list jsstring) : jsstring :=
  match parts with
  | [] => []
  | p :: rest =>
      match rest with
      | [] => p
      | _ :: _ => p ++ sep ++ joinWith sep rest
      end
  end.

(** [s.repeat(n)] *)
Definition repeatString (s : jsstring) (n : nat) : jsstring :=
  concat (replicate n s).

(** [`${n}`] for a natural number: its decimal digits. *)
Definition decimal (n : nat) : jsstring :=
  js (NilZero.string_of_uint (Nat.to_uint n)).

(** [s.replace(/\s+/g, ' ')]: every maximal run of white space becomes one
    space; [inRun] tells that the unit before was white space. *)
Fixpoint collapseFrom (inRun : bool) (s : jsstring) : jsstring :=
  match s with
  | [] => []
  | c :: s' =>
      if isWhiteSpace c then
        if inRun then collapseFrom true s' else 32%N :: collapseFrom true s'
      else c :: collapseFrom false s'
  end.

Definition collapseWhiteSpace (s : jsstring) : jsstring := collapseFrom false s.

(** [node.attrs?.[name] || ''] for a string attribute. *)
Definition attrOrEmpty (node : ADFNode) (name : jsstring) : jsstring :=
  match attrs node with
  | Some a =>
      match lookupAttr name (other_attrs a) with
      | Some v => v
      | None => []
      end
  | None => []
  end.

(** [a || b] on strings. *)
Definition orElse (a b : jsstring) : jsstring := if truthy a then a else b.

(** One turn of the loop of [applyMarksToText]. *)
Definition applyMark (result : jsstring) (mark : Mark) : jsstring :=
  if streq (mark_type mark) (js "strong") then
    js "**" ++ result ++ js "**"
  else if streq (mark_type mark) (js "em") then
    js "*" ++ result ++ js "*"
  else if streq (mark_type mark) (js "code") then
    js "`" ++ result ++ js "`"
  else if streq (mark_type mark) (js "link") then
    let href :=
      match mark_attrs mark with
      | Some bag =>
          match lookupAttr (js "href") bag with Some h => h | None => [] end
      | None => []
      end in
    js "[" ++ result ++ js "](" ++ href ++ js ")"
  else if streq (mark_type mark) (js "strike") then
    js "~~" ++ result ++ js "~~"
  else if streq (mark_type mark) (js "underline") then
    js "<u>" ++ result ++ js "</u>"
  else result.

(** [applyMarksToText] *)
Definition applyMarksToText (text : jsstring) (marks : option (list Mark))
  : jsstring :=
  match marks with
  | None => text
  | Some ms => fold_left applyMark ms text
  end.

(** The callback of [convertInlineNodesToMarkdown]. *)
Definition convertInlineNodeToMarkdown (node : ADFNode) : jsstring :=
  if isType node (js "text") then
    applyMarksToText (textOrEmpty node) (marks node)
  else if isType node (js "hardBreak") then [10%N]
  else if isType node (js "inlineCard") then
    let url := attrOrEmpty node (js "url") in
    let title := orElse (attrOrEmpty node (js "title")) url in
    js "[" ++ title ++ js "](" ++ url ++ js ")"
  else if isType node (js "mention") then
    let mentionText :=
      orElse (attrOrEmpty node (js "text"))
             (orElse (attrOrEmpty node (js "id")) (js "unknown")) in
    js "@[" ++ mentionText ++ js "]"
  else if isType node (js "emoji") then
    let emojiShortName := orElse (attrOrEmpty node (js "shortName")) (js "emoji") in
    js ":" ++ emojiShortName ++ js ":"
  else textOrEmpty node.

(** [convertInlineNodesToMarkdown] *)
Definition convertInlineNodesToMarkdown (nodes : list ADFNode) : jsstring :=
  concat (map convertInlineNodeToMarkdown nodes).

(** [convertParagraphToMarkdown] *)
Definition convertParagraphToMarkdown (node : ADFNode) : jsstring :=
  match content node with
  | None => []
  | Some c => convertInlineNodesToMarkdown c
  end.

(** [node.attrs?.level || 1] *)
Definition renderedLevel (node : ADFNode) : N :=
  match attrs node with
  | Some a =>
      match level a with
      | Some l => if (l =? 0)%N then 1%N else l
      | None => 1%N
      end
  | None => 1%N
  end.

(** [convertHeadingToMarkdown] *)
Definition convertHeadingToMarkdown (node : ADFNode) : jsstring :=
  let prefix := repeatString (js "#") (N.to_nat (renderedLevel node)) in
  let text :=
    match content node with
    | Some c => convertInlineNodesToMarkdown c
    | None => []
    end in
  prefix ++ js " " ++ text.

(** [convertBulletListToMarkdown] and [convertOrderedListToMarkdown]. *)
Fixpoint convertBulletListToMarkdown (node : ADFNode) (indent : nat)
    {struct node} : jsstring :=
  match content node with
  | None => []
  | Some c =>
      let indentStr := repeatString (js "  ") indent in
      joinWith [10%N]
        (map (fun listItem =>
           if isType listItem (js "listItem") then
             match content listItem with
             | Some ic =>
                 joinWith [10%N]
                   (map (fun itemContent =>
                      if isType itemContent (js "paragraph") then
                        indentStr ++ js "- "
                        ++ trim (convertParagraphToMarkdown itemContent)
                      else if isType itemContent (js "bulletList") then
                        convertBulletListToMarkdown itemContent (S indent)
                      else if isType itemContent (js "orderedList") then
                        convertOrderedListToMarkdown itemContent (S indent)
                      else []) ic)
             | None => []
             end
           else []) c)
  end
with convertOrderedListToMarkdown (node : ADFNode) (indent : nat)
    {struct node} : jsstring :=
  match content node with
  | None => []
  | Some c =>
      let indentStr := repeatString (js "  ") indent in
      joinWith [10%N]
        ((fix items (l : list ADFNode) (index : nat) : list jsstring :=
            match l with
            | [] => []
            | listItem :: l' =>
                (if isType listItem (js "listItem") then
                   match content listItem with
                   | Some ic =>
                       joinWith [10%N]
                         (map (fun itemContent =>
                            if isType itemContent (js "paragraph") then
                              indentStr ++ decimal (index + 1) ++ js ". "
                              ++ trim (convertParagraphToMarkdown itemContent)
                            else if isType itemContent (js "bulletList") then
                              convertBulletListToMarkdown itemContent (S indent)
                            else if isType itemContent (js "orderedList") then
                              convertOrderedListToMarkdown itemContent (S indent)
                            else []) ic)
                   | None => []
                   end
                 else [])
                :: items l' (S index)
            end) c 0)
  end.

(** [convertCodeBlockToMarkdown] *)
Definition convertCodeBlockToMarkdown (node : ADFNode) : jsstring :=
  let language := attrOrEmpty node (js "language") in
  let code :=
    match content node with
    | Some c => joinWith [10%N] (map textOrEmpty c)
    | None => []
    end in
  js "```" ++ language ++ [10%N] ++ code ++ [10%N] ++ js "```".

(** [convertTableToMarkdown] and [convertBlockquoteToMarkdown] call back
    [convertAdfNodeToMarkdown]; they are written with the function they call
    back as a parameter. *)
Section Blocks.
Variable convertAdfNodeToMarkdown : ADFNode -> jsstring.

(** The rows that the first loop of [convertTableToMarkdown] collects. *)
Definition tableRows (rows : list ADFNode) : list (list jsstring) :=
  flat_map (fun row =>
    if isType row (js "tableRow") then
      match content row with
      | Some rc =>
          [flat_map (fun cell =>
             if isType cell (js "tableCell") || isType cell (js "tableHeader")
             then
               match content cell with
               | Some cc =>
                   [joinWith (js " ")
                      (map (fun c => trim (convertAdfNodeToMarkdown c)) cc)]
               | None => []
               end
             else []) rc]
      | None => []
      end
    else []) rows.

Definition tableLine (cells : list jsstring) : jsstring :=
  js "| " ++ joinWith (js " | ") cells ++ js " |".

Definition convertTableToMarkdown (node : ADFNode) : jsstring :=
  match content node with
  | None => []
  | Some c =>
      match tableRows c with
      | [] => []
      | header :: data =>
          joinWith [10%N]
            (tableLine header
             :: tableLine (map (fun _ => js "---") header)
             :: map tableLine data)
      end
  end.

Definition convertBlockquoteToMarkdown (node : ADFNode) : jsstring :=
  match content node with
  | None => []
  | Some c =>
      joinWith [10%N]
        (map (fun line => js "> " ++ line)
           (List.filter (fun line => truthy (trim line))
              (split 10%N (concat (map convertAdfNodeToMarkdown c)))))
  end.

End Blocks.

(** [convertAdfNodeToMarkdown] *)
Fixpoint convertAdfNodeToMarkdown (node : ADFNode) : jsstring :=
  if isType node (js "paragraph") then
    convertParagraphToMarkdown node ++ [10%N; 10%N]
  else if isType node (js "heading") then
    convertHeadingToMarkdown node ++ [10%N; 10%N]
  else if isType node (js "bulletList") then
    convertBulletListToMarkdown node 0 ++ [10%N; 10%N]
  else if isType node (js "orderedList") then
    convertOrderedListToMarkdown node 0 ++ [10%N; 10%N]
  else if isType node (js "codeBlock") then
    convertCodeBlockToMarkdown node ++ [10%N; 10%N]
  else if isType node (js "table") then
    convertTableToMarkdown convertAdfNodeToMarkdown node ++ [10%N; 10%N]
  else if isType node (js "blockquote") then
    convertBlockquoteToMarkdown convertAdfNodeToMarkdown node ++ [10%N; 10%N]
  else if isType node (js "rule") then js "---" ++ [10%N; 10%N]
  else
    match content node with
    | Some c => concat (map convertAdfNodeToMarkdown c)
    | None => []
    end.

(** [convertAdfNodesToMarkdown] *)
Definition convertAdfNodesToMarkdown (nodes : list ADFNode) : jsstring :=
  concat (map convertAdfNodeToMarkdown nodes).

(** The callback of [extractPlainTextFromAdf]; the recursive call normalises
    the white space of what it returns, like the outer one. *)
Fixpoint extractPlainTextFromAdfNode (node : ADFNode) : jsstring :=
  if isType node (js "text") then textOrEmpty node
  else
    match content node with
    | Some c =>
        trim (collapseWhiteSpace
                (joinWith (js " ") (map extractPlainTextFromAdfNode c)))
    | None => []
    end.

(** [extractPlainTextFromAdf] *)
Definition extractPlainTextFromAdf (nodes : list ADFNode) : jsstring :=
  trim (collapseWhiteSpace
          (joinWith (js " ") (map extractPlainTextFromAdfNode nodes))).

(** [interface ADFDocument { version; type: 'doc'; content }], as it comes
    from JSON: the fields may have other values, and [content] may be
    missing. *)
Record ADFDocument := mkDoc {
  version : N;
  doc_type : jsstring;
  doc_content : option (list ADFNode)
}.

(** [convertAdfToMarkdown]: the rendering of a document of this type does
    not throw, so that the [catch] branch with [extractPlainTextFromAdf] is
    not taken. *)
Definition convertAdfToMarkdown (adf : ADFDocument) : jsstring :=
  convertAdfNodesToMarkdown (default [] (doc_content adf)).

(** [validateAdf] on a value that is [null]/[undefined] ([None]) or an
    object with these fields. *)
Definition validateAdf (adf : option ADFDocument) : bool :=
  match adf with
  | None => false
  | Some d =>
      (version d =? 1)%N && streq (doc_type d) (js "doc")
      && bool_decide (is_Some (doc_content d))
  end.

(** [text.split(/\n\s*\n/)]: a separator starts at a line feed and runs,
    over white space only, up to the last line feed of the white space that
    follows. [separatorRest s] is the number of units of [s] that belong to
    a separator whose first line feed stands just before [s], if there is
    one. *)
Fixpoint separatorRest (s : jsstring) : option nat :=
  match s with
  | [] => None
  | c :: s' =>
      if isWhiteSpace c then
        match separatorRest s' with
        | Some k => Some (S k)
        | None => if (c =? 10)%N then Some 1 else None
        end
      else None
  end.

(** The pieces of the split: [skip] units of a separator are still to be
    passed over, and [cur] is the piece read so far. *)
Fixpoint splitBlankFrom (skip : nat) (cur s : jsstring) : list jsstring :=
  match s with
  | [] => [cur]
  | c :: s' =>
      match skip with
      | S k => splitBlankFrom k cur s'
      | 0 =>
          if (c =? 10)%N then
            match separatorRest s' with
            | Some k => cur :: splitBlankFrom k [] s'
            | None => splitBlankFrom 0 (cur ++ [c]) s'
            end
          else splitBlankFrom 0 (cur ++ [c]) s'
      end
  end.

Definition splitBlank (s : jsstring) : list jsstring := splitBlankFrom 0 [] s.

(** [createFallbackAdf] *)
Definition createFallbackAdf (text : jsstring) : ADFDocument :=
  let paragraphs := List.filter (fun p => truthy (trim p)) (splitBlank text) in
  match paragraphs with
  | [] => mkDoc 1 (js "doc") (Some [block (js "paragraph") []])
  | _ :: _ =>
      mkDoc 1 (js "doc")
        (Some (map (fun paragraph =>
                      block (js "paragraph")
                        [mkNode (js "text") None None (Some (trim paragraph))
                                None])
                   paragraphs))
  end.

(* ===================================================================== *)
(** * The write-next-story workflow ([core-logic.ts]) *)
(* ===================================================================== *)

(** The steps below are the computations of the workflow on the parsed
    stories; the progress notifications and the calls to Jira, Figma and the
    language model around them are left out. *)

(** [!story.jiraUrl] *)
Definition unwritten (story : ParsedShellStoryADF) : bool :=
  match jiraUrl story with
  | Some url => negb (truthy url)
  | None => true
  end.

(** [findNextUnwrittenStory]: [shellStories.find(story => !story.jiraUrl)] *)
Definition findNextUnwrittenStory (shellStories : list ParsedShellStoryADF)
  : option ParsedShellStoryADF :=
  List.find unwritten shellStories.

(** [allStories.find(s => s.id === depId)] *)
Definition findStory (allStories : list ParsedShellStoryADF) (depId : jsstring)
  : option ParsedShellStoryADF :=
  List.find (fun s => streq (id s) depId) allStories.

(** The two errors of [validateDependencies], with the dependency that they
    name (the messages also quote the story and the available ids). *)
Inductive DependencyError :=
| DependencyNotFound (depId : jsstring)
| DependencyNotYetWritten (depId : jsstring).

Inductive Validation :=
| Validated
| Rejected (e : DependencyError).

(** The [while] loop of [validateDependencies]: [visited] is the set of the
    ids checked so far, [toCheck] the queue. The loop is run for at most
    [fuel] turns; [None] tells that the turns did not suffice. *)
Fixpoint validateLoop (fuel : nat) (allStories : list ParsedShellStoryADF)
    (visited : list jsstring) (toCheck : list jsstring) : option Validation :=
  match fuel with
  | 0 => None
  | S fuel' =>
      match toCheck with
      | [] => Some Validated
      | depId :: rest =>
          if bool_decide (depId ∈ visited) then
            validateLoop fuel' allStories visited rest
          else
            match findStory allStories depId with
            | None => Some (Rejected (DependencyNotFound depId))
            | Some depStory =>
                if unwritten depStory then
                  Some (Rejected (DependencyNotYetWritten depId))
                else
                  validateLoop fuel' allStories (depId :: visited)
                               (rest ++ dependencies depStory)
            end
      end
  end.

(** [validateDependencies] *)
Definition validateDependencies (fuel : nat) (story : ParsedShellStoryADF)
    (allStories : list ParsedShellStoryADF) : option Validation :=
  validateLoop fuel allStories [] (dependencies story).

(** [story.dependencies.map(depId => allStories.find(s => s.id === depId))
      .filter(s => s !== undefined)] in [generateStoryContent] *)
Definition dependencyStories (story : ParsedShellStoryADF)
    (allStories : list ParsedShellStoryADF) : list ParsedShellStoryADF :=
  flat_map (fun depId =>
              match findStory allStories depId with
              | Some s => [s]
              | None => []
              end) (dependencies story).

(** [`https://bitovi.atlassian.net/browse/${createdIssue.key}`], the URL that
    [updateEpicWithCompletion] writes into the epic. *)
Definition completionUrl (key : jsstring) : jsstring :=
  js "https://bitovi.atlassian.net/browse/" ++ key.

Definition isUpper (c : N) : bool := ((65 <=? c) && (c <=? 90))%N.

Fixpoint takeWhile {A} (p : A -> bool) (l : list A) : list A :=
  match l with
  | x :: l' => if p x then x :: takeWhile p l' else []
  | [] => []
  end.

(** [/browse\/([A-Z]+-\d+)/] tried at the start of [s]: the capture. Both
    repetitions are followed by a unit that they cannot match, so that the
    longest run is the only one that can succeed. *)
Definition keyMatchAt (s : jsstring) : option jsstring :=
  if startsWith s (js "browse/") then
    let r := drop (length (js "browse/")) s in
    match takeWhile isUpper r, dropWhile isUpper r with
    | (_ :: _) as letters, 45%N :: r' =>
        match takeWhile isDigit r' with
        | (_ :: _) as digits => Some (letters ++ [45%N] ++ digits)
        | [] => None
        end
    | _, _ => None
    end
  else None.

(** [depStory.jiraUrl.match(/browse\/([A-Z]+-\d+)/)?.[1]] in
    [createJiraIssue]: the capture of the leftmost match. *)
Fixpoint keyMatch (jiraUrl : jsstring) : option jsstring :=
  match keyMatchAt jiraUrl with
  | Some key => Some key
  | None =>
      match jiraUrl with
      | [] => None
      | _ :: rest => keyMatch rest
      end
  end.

(** The keys of the blocker links that [createJiraIssue] adds: one for each
    dependency that is found, has a URL and whose URL holds an issue key. *)
Definition blockerKeys (story : ParsedShellStoryADF)
    (allStories : list ParsedShellStoryADF) : list jsstring :=
  flat_map (fun depId =>
              match findStory allStories depId with
              | Some depStory =>
                  match jiraUrl depStory with
                  | Some url =>
                      if truthy url then
                        match keyMatch url with
                        | Some depKey => [depKey]
                        | None => []
                        end
                      else []
                  | None => []
                  end
              | None => []
              end) (dependencies story).

(** The [content] of the description that [updateEpicWithCompletion] sends
    back: the epic without its shell stories, then the updated shell
    stories. *)
Definition updatedAdfDoc (epicWithoutShellStoriesAdf updatedShellStories
                          : list ADFNode) : ADFDocument :=
  mkDoc 1 (js "doc") (Some (epicWithoutShellStoriesAdf ++ updatedShellStories)).

(* ===================================================================== *)
(** * The Figma links of an epic ([figma-screen-setup.ts]) *)
(* ===================================================================== *)

(** [figmaUrls.add(url)] on a [Set] kept in insertion order. *)
Definition setAdd (url : jsstring) (figmaUrls : list jsstring) : list jsstring :=
  if bool_decide (url ∈ figmaUrls) then figmaUrls else figmaUrls ++ [url].

(** [if (url.includes('figma.com')) figmaUrls.add(url)] *)
Definition addIfFigma (url : jsstring) (figmaUrls : list jsstring)
  : list jsstring :=
  if includes url (js "figma.com") then setAdd url figmaUrls else figmaUrls.

Definition notWhiteSpace (c : N) : bool := negb (isWhiteSpace c).

(** [/https?:\/\/[^\s]+figma\.com[^\s]*/] tried at the start of [s]. After
    the scheme, the match runs to the end of the units that are not white
    space, and it needs [figma.com] in them after at least one unit. *)
Definition figmaUrlAfter (scheme s : jsstring) : option jsstring :=
  if startsWith s scheme then
    let run := takeWhile notWhiteSpace (drop (length scheme) s) in
    if includes (drop 1 run) (js "figma.com") then Some (scheme ++ run)
    else None
  else None.

Definition figmaUrlAt (s : jsstring) : option jsstring :=
  match figmaUrlAfter (js "https://") s with
  | Some m => Some m
  | None => figmaUrlAfter (js "http://") s
  end.

(** [text.match(/https?:\/\/[^\s]+figma\.com[^\s]*/g)]: the matches from
    left to right, each search starting where the match before ended;
    [skip] units of the last match are still to be passed over. *)
Fixpoint figmaUrlMatches (skip : nat) (s : jsstring) : list jsstring :=
  match s with
  | [] => []
  | _ :: s' =>
      match skip with
      | S k => figmaUrlMatches k s'
      | 0 =>
          match figmaUrlAt s with
          | Some m => m :: figmaUrlMatches (length m - 1) s'
          | None => figmaUrlMatches 0 s'
          end
      end
  end.

(** One turn of the loop of [traverse] over the marks of a text node. *)
Definition linkStep (s : list jsstring) (mark : Mark) : list jsstring :=
  if streq (mark_type mark) (js "link") then
    match mark_attrs mark with
    | Some bag =>
        match lookupAttr (js "href") bag with
        | Some href => if truthy href then addIfFigma href s else s
        | None => s
        end
    | None => s
    end
  else s.

(** What [traverse] does at one node, before it goes down. *)
Definition visitNode (node : ADFNode) (figmaUrls : list jsstring)
  : list jsstring :=
  let s1 :=
    if isType node (js "inlineCard") && truthy (attrOrEmpty node (js "url"))
    then addIfFigma (attrOrEmpty node (js "url")) figmaUrls
    else figmaUrls in
  let s2 :=
    if isType node (js "text") then
      match marks node with
      | Some ms => fold_left linkStep ms s1
      | None => s1
      end
    else s1 in
  if isType node (js "text") && truthy (textOrEmpty node) then
    fold_left (fun s url => setAdd url s)
              (figmaUrlMatches 0 (textOrEmpty node)) s2
  else s2.

(** The inner function [traverse] of [extractFigmaUrlsFromADF]. *)
Fixpoint traverse (node : ADFNode) (figmaUrls : list jsstring)
  : list jsstring :=
  let s := visitNode node figmaUrls in
  match content node with
  | Some c =>
      (fix go (c : list ADFNode) (s : list jsstring) : list jsstring :=
         match c with
         | [] => s
         | n :: c' => go c' (traverse n s)
         end) c s
  | None => s
  end.

(** The document as the node that [traverse] is first called on. *)
Definition docNode (adf : ADFDocument) : ADFNode :=
  mkNode (doc_type adf) None None None (doc_content adf).

(** [extractFigmaUrlsFromADF] *)
Definition extractFigmaUrlsFromADF (adf : ADFDocument) : list jsstring :=
  traverse (docNode adf) [].
(* ===================================================================== *)
(** * Properties stated in the specification's words *)
(* ===================================================================== *)

Definition code : Mark := mark (js "code").
Definition strong : Mark := mark (js "strong").
Definition em : Mark := mark (js "em").
Definition paragraph := block (js "paragraph").
Definition listItem := block (js "listItem").
Definition bulletList := block (js "bulletList").

Section SpecWords.
Variable toLowerCase : jsstring -> jsstring.

(** A heading that ends a section of level [L]: level at most [L]. *)
Definition isBoundary (L : N) (node : ADFNode) : bool :=
  isType node (js "heading") && (headingLevel node <=? L)%N.

(** A heading without a usable level: no [attrs], no [level], or level 0. *)
Definition levelless (node : ADFNode) : Prop :=
  isType node (js "heading") = true /\
  (attrs node = None \/
   exists a, attrs node = Some a /\ (level a = None \/ level a = Some 0%N)).

(** The text of a heading as a reader sees it: the texts of its text
    children, one after the other. *)
Definition renderedText (node : ADFNode) : jsstring :=
  concat (map textOrEmpty
            (filter (fun c => isType c (js "text") = true) (contentOf node))).

(** The specification's test for the start of a section: a heading whose
    text contains the label, whatever the case of the letters. *)
Definition headingTextContains (label : jsstring) (node : ADFNode) : bool :=
  isType node (js "heading")
  && includes (toLowerCase (renderedText node)) (toLowerCase label).

End SpecWords.


(** ** Words of the specification about records *)

(** A text node that can carry an identifier: code-marked, its text of the
    form [st] followed by digits. *)
Definition isIdNode (n : ADFNode) : bool :=
  isType n (js "text") && hasMarkType n (js "code") &&
  match text n with
  | Some t => matches_st_digits t
  | None => false
  end.

(** A code-marked text node, the marker after which the title starts. *)
Definition isCodeText (n : ADFNode) : bool :=
  isType n (js "text") && hasMarkType n (js "code").

(** A text node that holds the separator glyph and is not code-marked. *)
Definition isSepNode (n : ADFNode) : bool :=
  negb (isCodeText n) && isType n (js "text") && textIncludesSep n.

(** The nodes on which [forEachWithContent] runs its callback. *)
Definition withContent (ty : jsstring) (node : ADFNode) : bool :=
  isType node ty && hasContent node.

(** The list items that the parser and the mutator visit, in document
    order: those with a content, in the top-level bullet lists with a
    content. *)
Definition visitedItems (S : list ADFNode) : list ADFNode :=
  flat_map (fun bl => List.filter (withContent (js "listItem")) (contentOf bl))
           (List.filter (withContent (js "bulletList")) S).

(** The structural error of a visited list item, if it has one. *)
Definition itemError (li : ADFNode) : option jsstring :=
  let c := contentOf li in
  match extractStoryId c with
  | None => Some msgMissingId
  | Some storyId =>
      match extractTitleInfo c with
      | None => Some (msgMissingTitle storyId)
      | Some _ =>
          if truthy (extractDescription c) then None
          else Some (msgMissingDescription storyId)
      end
  end.

(** The inline nodes of the first paragraph of a list item's content (none
    when there is no paragraph or it has no content). *)
Definition firstParagraphNodes (c : list ADFNode) : list ADFNode :=
  match findParagraph c with
  | Some p => contentOf p
  | None => []
  end.

(** The separator is there, after the marker: the first separator node of
    the paragraph is preceded by a code-marked text node. *)
Definition separatorAfterMarker (nodes : list ADFNode) : Prop :=
  exists pre s post,
    nodes = pre ++ s :: post /\
    Forall (fun n => isSepNode n = false) pre /\
    isSepNode s = true /\
    existsb isCodeText pre = true.

(** Running a throwing callback over a list, left to right. *)
Fixpoint foldRes {A St} (callback : A -> St -> Res St) (l : list A) (s : St)
  : Res St :=
  match l with
  | [] => Ok s
  | x :: l' => letr s' := callback x s in foldRes callback l' s'
  end.

(** ** Words of the specification about trees *)

(** The nodes of a tree: the node itself and the nodes below it. *)
Fixpoint subnodes (n : ADFNode) : list ADFNode :=
  n :: match content n with
       | Some c =>
           (fix go (c : list ADFNode) : list ADFNode :=
              match c with
              | [] => []
              | m :: c' => subnodes m ++ go c'
              end) c
       | None => []
       end.

(** The nodes of a node array. *)
Definition allNodes (S : list ADFNode) : list ADFNode := flat_map subnodes S.

(** A node of a kind that the mutator does not know: the mutator looks for
    bullet lists, list items, paragraphs and text nodes. *)
Definition unknownKind (u : ADFNode) : bool :=
  negb (isType u (js "bulletList")) && negb (isType u (js "listItem"))
  && negb (isType u (js "paragraph")) && negb (isType u (js "text")).

(** ** The title nodes as a mask *)

(** Which nodes of a paragraph [findTitleParts] returns: [true] at the
    positions of the title nodes. *)
Fixpoint titleMask (nodes : list ADFNode) (passedId : bool) : list bool :=
  match nodes with
  | [] => []
  | node :: rest =>
      if isType node (js "text") && hasMarkType node (js "code") then
        false :: titleMask rest true
      else if isType node (js "text") && textIncludesSep node then []
      else if passedId && isType node (js "text") then
        true :: titleMask rest passedId
      else false :: titleMask rest passedId
  end.

(** Applying [f] at the positions that the mask selects. *)
Fixpoint applyMask {A} (f : A -> A) (mask : list bool) (l : list A) {struct l}
  : list A :=
  match l, mask with
  | x :: l', b :: mask' => (if b then f x else x) :: applyMask f mask' l'
  | _, _ => l
  end.

(** The elements at the positions that the mask selects. *)
Fixpoint pick {A} (mask : list bool) (l : list A) {struct l} : list A :=
  match l, mask with
  | x :: l', b :: mask' => if b then x :: pick mask' l' else pick mask' l'
  | _, _ => []
  end.

(** The paragraph's content after the links are added. *)
Definition linkTitles (url : jsstring) (c : list ADFNode) : list ADFNode :=
  applyMask (addLinkToNode url) (titleMask c false) c.

(** A callback that keeps the node [u] wherever it finds it. *)
Definition keeps (u : ADFNode) (f : ADFNode -> ADFNode) (x : ADFNode) : Prop :=
  u ∈ subnodes x -> u ∈ subnodes (f x).

(** ** Words about the nested lists of a story *)

(** The paragraphs that [extractScreens] and [extractDependencies] read. *)
Definition nestedParagraph (c : list ADFNode) (p : ADFNode) : Prop :=
  exists bl li,
    bl ∈ c /\ withContent (js "bulletList") bl = true /\
    li ∈ contentOf bl /\ withContent (js "listItem") li = true /\
    p ∈ contentOf li /\ withContent (js "paragraph") p = true.

(** A dependency id as [extractDependencies] returns it: not empty, without
    white space at its ends and without a comma. *)
Definition cleanToken (d : jsstring) : Prop :=
  d <> [] /\ trim d = d /\ 44%N ∉ d.

(** A target of a screen link: the non-empty [href] of a link mark on a
    text node of a nested paragraph. *)
Definition screenLink (c : list ADFNode) (u : jsstring) : Prop :=
  u <> [] /\
  exists p n, nestedParagraph c p /\ n ∈ contentOf p /\
              isType n (js "text") = true /\
              getMarkAttribute n (js "link") (js "href") = Some u.

(** ** Words about dependencies *)

(** The ids that the validation of [story] has to look at: its
    dependencies, and the dependencies of every required id that names a
    story. *)
Inductive required (allStories : list ParsedShellStoryADF)
    (story : ParsedShellStoryADF) : jsstring -> Prop :=
| required_direct d :
    d ∈ dependencies story -> required allStories story d
| required_next d s e :
    required allStories story d ->
    findStory allStories d = Some s ->
    e ∈ dependencies s ->
    required allStories story e.

(** An id that names a story which is written to Jira. *)
Definition satisfied (allStories : list ParsedShellStoryADF) (d : jsstring)
  : Prop :=
  exists s, findStory allStories d = Some s /\ unwritten s = false.

(** What a validation result tells. *)
Definition validationSpec (allStories : list ParsedShellStoryADF)
    (story : ParsedShellStoryADF) (v : Validation) : Prop :=
  match v with
  | Validated =>
      forall d, required allStories story d -> satisfied allStories d
  | Rejected (DependencyNotFound d) =>
      required allStories story d /\ findStory allStories d = None
  | Rejected (DependencyNotYetWritten d) =>
      required allStories story d /\
      exists s, findStory allStories d = Some s /\ unwritten s = true
  end.

(** The number of turns that the validation loop can take at most: one for
    each dependency entry of the story and of all the stories. *)
Definition validationTurns (story : ParsedShellStoryADF)
    (allStories : list ParsedShellStoryADF) : nat :=
  length (dependencies story)
  + sum_list_with (fun s => length (dependencies s)) allStories.

(** An issue key of the form that [keyMatch] looks for: capital letters, a
    hyphen, digits. *)
Definition isIssueKey (key : jsstring) : Prop :=
  exists letters digits,
    key = letters ++ [45%N] ++ digits /\
    letters <> [] /\ digits <> [] /\
    forallb isUpper letters = true /\ forallb isDigit digits = true.

(** The measure of the validation loop: the dependency entries of the
    stories that are not visited yet. *)
Definition weight (allStories : list ParsedShellStoryADF)
    (visited : list jsstring) : nat :=
  sum_list_with (fun s => length (dependencies s))
    (List.filter (fun s => negb (bool_decide (id s ∈ visited))) allStories).

(** The invariant of the validation loop. *)
Definition loopInv (allStories : list ParsedShellStoryADF)
    (story : ParsedShellStoryADF) (visited toCheck : list jsstring) : Prop :=
  (forall d, d ∈ toCheck -> required allStories story d) /\
  (forall d, d ∈ visited ->
     required allStories story d /\ satisfied allStories d) /\
  (forall d s e, d ∈ visited -> findStory allStories d = Some s ->
     e ∈ dependencies s -> e ∈ visited \/ e ∈ toCheck) /\
  (forall d, d ∈ dependencies story -> d ∈ visited \/ d ∈ toCheck).

(** ** Words about reading a marked section back *)

(** A paragraph that was never marked: no text node in italics and no text
    node with a link. *)
Definition neverMarked (nodes : list ADFNode) : Prop :=
  Forall (fun n => isEmText n = false /\ hasMarkType n (js "link") = false)
         nodes.

(** The paragraph has a title node, that is a text node between the
    identifier and the node of the separator. *)
Definition hasTitleNode (nodes : list ADFNode) : bool :=
  existsb (fun b => b) (titleMask nodes false).

(** The story [r'] that is read from the list item [li] after the marking
    of [storyId], against the story [r] that was read from it before. *)
Definition readBack (storyId url : jsstring) (li : ADFNode)
    (r r' : ParsedShellStoryADF) : Prop :=
  if bool_decide (id r = storyId) then
    id r' = id r /\ title r' = title r /\ description r' = description r /\
    screens r' = screens r /\ dependencies r' = dependencies r /\
    jiraUrl r' =
      (if hasTitleNode (firstParagraphNodes (contentOf li))
       then Some url else None)
  else r' = r.

(** ** Words about the Figma links *)

(** A set of distinct URLs that all hold [figma.com]. *)
Definition figmaSet (s : list jsstring) : Prop :=
  NoDup s /\ Forall (fun u => includes u (js "figma.com") = true) s.

(** A paragraph that can be marked again without a change: it has no text
    node in italics, and it has the text node of a separator or no
    code-marked text node at all. *)
Definition stableParagraph (c : list ADFNode) : Prop :=
  Forall (fun n => isEmText n = false) c /\
  (existsb isSepNode c = true \/ existsb isCodeText c = false).

(** A list item all of whose paragraphs are stable. *)
Definition stableItem (li : ADFNode) : Prop :=
  forall p c, p ∈ contentOf li -> isType p (js "paragraph") = true ->
              content p = Some c -> stableParagraph c.

(** ** Words of the specification about the defects of a record *)

(** A string of white space only (the empty string also). *)
Definition blank (s : jsstring) : bool := forallb isWhiteSpace s.

(** The text of a node up to its first separator glyph. *)
Definition beforeSep (n : ADFNode) : jsstring :=
  takeWhile (fun c => negb (c =? SEP)%N) (textOrEmpty n).

(** The text of a node between its first separator glyph and the next one
    (or the end of the text). *)
Definition afterSep (n : ADFNode) : jsstring :=
  takeWhile (fun c => negb (c =? SEP)%N)
    (tl (dropWhile (fun c => negb (c =? SEP)%N) (textOrEmpty n))).

(** A list of nodes cut at its first node that satisfies [p]. *)
Definition cutAtFirst (p : ADFNode -> bool) (nodes pre : list ADFNode)
    (s : ADFNode) (post : list ADFNode) : Prop :=
  nodes = pre ++ s :: post /\ Forall (fun n => p n = false) pre /\ p s = true.

(** The record has the identifier [t]: the text of the first identifier node
    of the paragraph. *)
Definition hasId (nodes : list ADFNode) (t : jsstring) : Prop :=
  exists pre n post, cutAtFirst isIdNode nodes pre n post /\ text n = Some t.

(** A text node without a code mark. *)
Definition isPlainText (n : ADFNode) : bool :=
  isType n (js "text") && negb (hasMarkType n (js "code")).

(** The title nodes among the nodes [pre] that stand before the separator
    node: the text nodes without a code mark after the first code-marked
    text node. *)
Definition titleNodesOf (pre : list ADFNode) : list ADFNode :=
  List.filter isPlainText (dropWhile (fun n => negb (isCodeText n)) pre).

(** The title as it is written: the trimmed text of each title node followed
    by a space, then the trimmed text before the glyph in the separator
    node. *)
Definition writtenTitle (pre : list ADFNode) (s : ADFNode) : jsstring :=
  concat (map (fun n => trim (textOrEmpty n) ++ js " ") (titleNodesOf pre))
  ++ trim (beforeSep s).

(** The record has the title [ttl]: the paragraph has a separator node (a
    text node without a code mark that holds the glyph), a code-marked text
    node stands before the first one, and something is written as the title:
    a title node, or text other than white space before the glyph. *)
Definition hasTitle (nodes : list ADFNode) (ttl : jsstring) : Prop :=
  exists pre s post,
    cutAtFirst isSepNode nodes pre s post /\
    existsb isCodeText pre = true /\
    (titleNodesOf pre <> [] \/ blank (beforeSep s) = false) /\
    ttl = trim (writtenTitle pre s).

(** A text node that holds the glyph, code-marked or not. *)
Definition holdsSep (n : ADFNode) : bool :=
  isType n (js "text") && textIncludesSep n.

(** What a node adds to the description, once the glyph has been met: the
    text after the glyph for a text node that holds it, the whole text for
    another text node without an [em] mark, nothing otherwise (a hard break
    adds a line feed, which is white space). *)
Definition descriptionPiece (n : ADFNode) : jsstring :=
  if holdsSep n then afterSep n
  else if isType n (js "text") && negb (hasMarkType n (js "em"))
       then textOrEmpty n
       else [].

(** The record has a description: from the first text node that holds the
    glyph on, some node adds text other than white space. *)
Definition hasDescription (nodes : list ADFNode) : Prop :=
  exists pre s post,
    cutAtFirst holdsSep nodes pre s post /\
    Exists (fun n => blank (descriptionPiece n) = false) (s :: post).

(** The three structural defects of a record, with the error of each. *)
Inductive defect (nodes : list ADFNode) : jsstring -> Prop :=
  | missingId :
      Forall (fun n => isIdNode n = false) nodes ->
      defect nodes msgMissingId
  | missingTitle t :
      hasId nodes t -> (forall ttl, ~ hasTitle nodes ttl) ->
      defect nodes (msgMissingTitle t)
  | missingDescription t ttl :
      hasId nodes t -> hasTitle nodes ttl -> ~ hasDescription nodes ->
      defect nodes (msgMissingDescription t).

(** A record without defect, with identifier [t] and title [ttl]. *)
Definition wellFormed (nodes : list ADFNode) (t ttl : jsstring) : Prop :=
  hasId nodes t /\ hasTitle nodes ttl /\ hasDescription nodes.

(** ** Words about heaps *)

Module HeapSpec.
Import Heap(loc, heap, nodeObj, mkObj, obj, ONode, OMarks, ONodes, LTree, LT,
            root, erase, locs, stored).

(** [upd F h h']: from [h] to [h'] the heap has grown, and the objects of
    [h] outside [F] are as they were. *)
Definition upd (F : list loc) (h h' : heap) : Prop :=
  length h <= length h' /\
  forall x, x < length h -> x ∉ F -> h' !! x = h !! x.

(** The node object of the root of a laid-out tree. *)
Definition objOf (t : LTree) : nodeObj :=
  match t with
  | LT _ ty a mk tx ct => mkObj ty a (fst <$> mk) tx (fst <$> ct)
  end.

(** The result of a clone: a fresh tree [t'], equal to [t] as a tree, in
    the heap grown by [hx]. *)
Definition cloned (h : heap) (t t' : LTree) (hx : list obj) : Prop :=
  erase t' = erase t /\ stored (h ++ hx) t' /\ NoDup (locs t') /\
  forall x, x ∈ locs t' -> length h <= x.

(** The result of an in-place update of the tree [t]: the tree [t'] stands
    at the same root in the new heap, it is made of objects of [t] and of
    new objects, and the objects of the old heap outside [t] are as they
    were. *)
Definition updated (h : heap) (t : LTree) (h' : heap) (t' : LTree) : Prop :=
  root t' = root t /\ stored h' t' /\ NoDup (locs t') /\
  (forall x, x ∈ locs t' -> x ∈ locs t \/ length h <= x) /\
  upd (locs t) h h'.

(** The result of an in-place update of the array [arr] and of the trees
    [ts] whose roots it holds. *)
Definition updatedArr (h : heap) (arr : loc) (ts : list LTree)
    (h' : heap) (ts' : list LTree) : Prop :=
  h' !! arr = Some (ONodes (map root ts')) /\
  Forall (stored h') ts' /\
  NoDup (arr :: concat (map locs ts')) /\
  (forall x, x ∈ arr :: concat (map locs ts') ->
             x ∈ arr :: concat (map locs ts) \/ length h <= x) /\
  upd (arr :: concat (map locs ts)) h h'.

(** The value of the [storyFound] flag after a bullet list. *)
Definition foundInList (storyId : jsstring) (bulletList : ADFNode)
    (found : bool) : bool :=
  fold_left (fun s li =>
               if withContent (js "listItem") li
               then (if isStory storyId li then true else s) else s)
            (contentOf bulletList) found.

End HeapSpec.
(** ** Sample documents *)

Definition sampleDoc : list ADFNode :=
  [ paragraph [textNode (js "Epic context")];
    heading (Some 2%N) [textNode (js "Shell Stories")];
    bulletList [];
    heading (Some 3%N) [textNode (js "Details")];
    paragraph [textNode (js "more")];
    heading (Some 2%N) [textNode (js "Other")];
    paragraph [textNode (js "tail")] ].

Definition levellessDoc : list ADFNode :=
  [ heading (Some 3%N) [textNode (js "Shell Stories")];
    bulletList [];
    heading (Some 4%N) [textNode (js "Notes")];
    mkNode (js "heading") None None None (Some [textNode (js "Next")]);
    paragraph [textNode (js "tail")] ].

(** The record of the parser's tests: [`st001` **Login Story** ⟩ User can
    log into the application]. *)
Definition loginParagraph : ADFNode :=
  paragraph [ markedText (js "st001") [code];
              textNode (js " ");
              markedText (js "Login Story") [strong];
              textNode (js " " ++ [SEP] ++ js " User can log in") ].

Definition loginItem : ADFNode := listItem [loginParagraph].

(** No rendering is needed to run the examples. *)
Definition noMarkdown (nodes : list ADFNode) : jsstring := [].

(** The parser's test of unknown nodes: a node of type [unknownNode] after
    the record's paragraph; here it also carries attributes and a child. *)
Definition unknownNode : ADFNode :=
  mkNode (js "unknownNode")
         (Some (mkAttrs None [(js "customProp", js "value")]))
         None None (Some [textNode (js "kept")]).

Definition unknownDoc : list ADFNode :=
  [ paragraph [textNode (js "Epic context")];
    heading (Some 2%N) [textNode (js "Shell Stories")];
    bulletList [listItem [loginParagraph; unknownNode]];
    heading (Some 2%N) [textNode (js "Other")] ].

Definition sampleNow : jsstring := js "2025-01-15T10:30:00.000Z".
Definition sampleUrl : jsstring := js "https://jira.com/PROJ-123".
Definition sampleKey : jsstring := js "PROJ-123".

(** A record whose description has an emphasised word and that was
    already stamped once. *)
Definition oldStamp : jsstring := js "(2025-01-15T10:30:00.000Z)".
Definition laterNow : jsstring := js "2025-02-01T09:00:00.000Z".

Definition twoEmSection : list ADFNode :=
  [ bulletList [ listItem [ paragraph
      [ markedText (js "st001") [code];
        textNode (js " ");
        markedText (js "Login") [strong; linkMark sampleUrl];
        textNode (js " " ++ [SEP] ++ js " see the ");
        markedText (js "docs") [em];
        textNode (js " ");
        markedText oldStamp [em] ] ] ] ].

(** A record whose title is in italics. *)
Definition emTitleSection : list ADFNode :=
  [ bulletList [ listItem [ paragraph
      [ markedText (js "st001") [code];
        textNode (js " ");
        markedText (js "Login") [em];
        textNode (js " " ++ [SEP] ++ js " desc") ] ] ] ].

(** A record followed, in the same list item, by a second paragraph that
    holds inline code. *)
Definition twoParagraphSection : list ADFNode :=
  [ bulletList [ listItem
      [ paragraph [ markedText (js "st001") [code];
                    textNode (js " ");
                    markedText (js "Login") [strong];
                    textNode (js " " ++ [SEP] ++ js " desc") ];
        paragraph [ markedText (js "npm test") [code];
                    textNode (js " must pass") ] ] ] ].

Definition stampNode (now : jsstring) : ADFNode :=
  markedText (stampText now) [em].

(** A small section and its layout in a heap: the objects in the order in
    which [Heap.allocNodes] creates them. *)
Definition smallSection : list ADFNode :=
  [ bulletList [ listItem [ paragraph
      [ markedText (js "st001") [code];
        textNode (js " Login ");
        textNode ([SEP] ++ js " desc") ] ] ] ].

Definition smallHeap : Heap.heap := snd (Heap.allocNodes smallSection []).

Definition smallLayout : list Heap.LTree :=
  [ Heap.LT 9 (js "bulletList") None None None (Some (8,
      [ Heap.LT 7 (js "listItem") None None None (Some (6,
          [ Heap.LT 5 (js "paragraph") None None None (Some (4,
              [ Heap.LT 1 (js "text") None (Some (0, [code]))
                        (Some (js "st001")) None;
                Heap.LT 2 (js "text") None None (Some (js " Login ")) None;
                Heap.LT 3 (js "text") None None
                        (Some ([SEP] ++ js " desc")) None ])) ])) ])) ].


(** Three parsed stories: the first is written, the second depends on the
    first, and the third depends on the first and on itself. *)
Definition writtenStory : ParsedShellStoryADF :=
  mkStory (js "st001") (js "Login") (js "User can log in")
          (Some (completionUrl sampleKey)) [] [] [].
Definition secondStory : ParsedShellStoryADF :=
  mkStory (js "st002") (js "Logout") (js "User can log out")
          None [] [js "st001"] [].
Definition cyclicStory : ParsedShellStoryADF :=
  mkStory (js "st003") (js "Profile") (js "User can edit the profile")
          None [] [js "st001"; js "st003"] [].
Definition sampleStories : list ParsedShellStoryADF :=
  [writtenStory; secondStory; cyclicStory].
(* ===================================================================== *)
(** * Proofs *)
(* ===================================================================== *)

(** ** Section extraction *)

Section SectionFacts.
Variable toLowerCase : jsstring -> jsstring.

Abbreviation matching label := (isMatchingHeading toLowerCase label).

Lemma findSectionStart_none nodes i label :
  findSectionStart toLowerCase nodes i label = None <->
  Forall (fun n => matching label n = false) nodes.
Proof.
  revert i. induction nodes as [|n nodes IH]; intros i; simpl.
  - split; [constructor | done].
  - destruct (matching label n) eqn:Hm.
    + split; [done | intros H; inversion H; congruence].
    + rewrite IH. split; [by constructor | by inversion 1].
Qed.

Lemma findSectionStart_some nodes i label k L :
  findSectionStart toLowerCase nodes i label = Some (k, L) ->
  exists pre h post,
    nodes = pre ++ h :: post /\ k = i + length pre /\
    Forall (fun n => matching label n = false) pre /\
    matching label h = true /\ L = headingLevel h.
Proof.
  revert i. induction nodes as [|n nodes IH]; intros i; simpl; [done|].
  destruct (matching label n) eqn:Hm.
  - intros [= <- <-]. exists [], n, nodes. simpl.
    repeat split; auto with lia.
  - intros H. destruct (IH _ H) as (pre & h & post & -> & -> & Hpre & Hh & ->).
    exists (n :: pre), h, post. simpl. repeat split; auto with lia.
Qed.

Lemma findSectionEnd_spec nodes i L :
  exists mid rest,
    nodes = mid ++ rest /\
    findSectionEnd nodes i L = i + length mid /\
    Forall (fun n => isBoundary L n = false) mid /\
    match rest with
    | [] => True
    | b :: _ => isBoundary L b = true
    end.
Proof.
  revert i. induction nodes as [|n nodes IH]; intros i; simpl.
  - exists [], []. simpl. repeat split; auto with lia.
  - fold (isBoundary L n). destruct (isBoundary L n) eqn:Hb.
    + exists [], (n :: nodes). simpl. repeat split; auto with lia.
    + destruct (IH (S i)) as (mid & rest & -> & Hj & Hmid & Hrest).
      exists (n :: mid), rest. simpl. rewrite Hj.
      repeat split; auto with lia.
Qed.

(** The first index at which a predicate holds is unique. *)
Lemma first_index_unique {A} (p : A -> bool) (l : list A) i i' x x' :
  l !! i = Some x -> p x = true ->
  (forall k y, k < i -> l !! k = Some y -> p y = false) ->
  l !! i' = Some x' -> p x' = true ->
  (forall k y, k < i' -> l !! k = Some y -> p y = false) ->
  i = i'.
Proof.
  intros Hi Hp Hlt Hi' Hp' Hlt'.
  destruct (lt_eq_lt_dec i i') as [[Hc|Hc]|Hc]; [|done|].
  - specialize (Hlt' _ _ Hc Hi). congruence.
  - specialize (Hlt _ _ Hc Hi'). congruence.
Qed.

(** When a heading matches at [i], and none does before, the first loop
    stops there. *)
Lemma findSectionStart_at content label i h :
  content !! i = Some h -> matching label h = true ->
  (forall k n, k < i -> content !! k = Some n -> matching label n = false) ->
  findSectionStart toLowerCase content 0 label = Some (i, headingLevel h).
Proof.
  intros Hi Hh Hlt.
  destruct (findSectionStart toLowerCase content 0 label) as [[k L]|] eqn:Hf.
  - apply findSectionStart_some in Hf
      as (pre & h' & post & -> & -> & Hpre & Hh' & ->). simpl.
    assert (length pre = i) as <-.
    { eapply (first_index_unique (matching label)); eauto.
      - by rewrite list_lookup_middle.
      - intros k y Hk Hy. rewrite lookup_app_l in Hy by done.
        rewrite Forall_forall in Hpre. apply Hpre.
        apply list_elem_of_In. eapply list_elem_of_lookup_2; eauto. }
    rewrite list_lookup_middle in Hi by done. by injection Hi as ->.
  - apply findSectionStart_none in Hf.
    rewrite Forall_forall in Hf.
    assert (matching label h = false); [|congruence].
    apply Hf, list_elem_of_In. eapply list_elem_of_lookup_2; eauto.
Qed.

(** When [j] is the first index after [i] that holds a heading of level at
    most [L], or the length if there is none, the second loop stops at
    [j]. *)
Lemma findSectionEnd_at content i j L :
  i < j -> j <= length content ->
  (forall k n, i < k -> k < j -> content !! k = Some n -> isBoundary L n = false) ->
  (j = length content \/
   exists b, content !! j = Some b /\ isBoundary L b = true) ->
  findSectionEnd (drop (S i) content) (S i) L = j.
Proof.
  intros Hij Hj Hbetween Hend.
  destruct (findSectionEnd_spec (drop (S i) content) (S i) L)
    as (mid & rest & Hsplit & -> & Hmid & Hrest).
  assert (Hlk : forall k, (drop (S i) content) !! k = content !! (S i + k)).
  { intros k. by rewrite lookup_drop. }
  assert (Hlen : length mid + length rest = length content - S i).
  { rewrite <- length_app, <- Hsplit, length_drop. done. }
  destruct (lt_eq_lt_dec (S i + length mid) j) as [[Hc|Hc]|Hc]; [|done|].
  - (* the loop stopped before [j]: at a boundary, which is excluded *)
    destruct rest as [|b rest]; [cbn [length] in Hlen; lia|].
    assert (content !! (S i + length mid) = Some b) as Hb.
    { rewrite <- Hlk, Hsplit. by rewrite list_lookup_middle. }
    rewrite (Hbetween (S i + length mid) b ltac:(lia) Hc Hb) in Hrest. done.
  - (* the loop went past [j]: [j] is not a boundary *)
    destruct Hend as [->|(b & Hb & Hbb)]; [lia|].
    assert (mid !! (j - S i) = Some b) as Hm.
    { rewrite <- (lookup_app_l mid rest) by lia.
      rewrite <- Hsplit, Hlk. rewrite <- Hb. f_equal. lia. }
    rewrite Forall_forall in Hmid.
    rewrite Hmid in Hbb; [done|].
    apply list_elem_of_In. eapply list_elem_of_lookup_2; eauto.
Qed.

Lemma extractADFSection_none content label :
  Forall (fun n => matching label n = false) content ->
  extractADFSection toLowerCase content label = mkExtracted [] content.
Proof.
  intros H. apply findSectionStart_none with (i := 0) in H.
  unfold extractADFSection. by rewrite H.
Qed.

Lemma extractADFSection_at content label i j h :
  content !! i = Some h -> matching label h = true ->
  (forall k n, k < i -> content !! k = Some n -> matching label n = false) ->
  i < j -> j <= length content ->
  (forall k n, i < k -> k < j -> content !! k = Some n ->
               isBoundary (headingLevel h) n = false) ->
  (j = length content \/
   exists b, content !! j = Some b /\ isBoundary (headingLevel h) b = true) ->
  extractADFSection toLowerCase content label =
    mkExtracted (take (j - i) (drop i content))
                (take i content ++ drop j content).
Proof.
  intros Hi Hh Hlt Hij Hj Hbetween Hend.
  unfold extractADFSection, slice.
  rewrite (findSectionStart_at _ _ _ _ Hi Hh Hlt).
  by rewrite (findSectionEnd_at _ _ _ _ Hij Hj Hbetween Hend).
Qed.

(** The remover returns what the extractor leaves. *)
Lemma removeADFSectionByHeading_remaining content label :
  removeADFSectionByHeading toLowerCase content label =
  remainingContent (extractADFSection toLowerCase content label).
Proof.
  unfold removeADFSectionByHeading, extractADFSection.
  by destruct (findSectionStart toLowerCase content 0 label) as [[??]|].
Qed.

Lemma levelless_level node : levelless node -> headingLevel node = 2%N.
Proof.
  intros [_ [H|(a & H & [Hl|Hl])]]; unfold headingLevel; rewrite H; [done| |];
    by rewrite Hl.
Qed.

End SectionFacts.

(** C4, as stated, fails: a heading reading "Shell Stories", its first word
    in bold, is not found under the label "Shell Stories", because the test
    looks at one text child at a time. *)
Lemma extractADFSection_misses_split_heading :
  let h := heading (Some 2%N)
             [markedText (js "Shell") [strong]; textNode (js " Stories")] in
  let doc := [h; bulletList []] in
  headingTextContains asciiLower (js "Shell Stories") h = true /\
  extractADFSection asciiLower doc (js "Shell Stories") = mkExtracted [] doc.
Proof. split; reflexivity. Qed.

(** C4, as amended: [extractADFSection] takes the first top-level heading
    that has a text child whose own text contains the label, letter case
    aside, at index [i] with level [L]; [j] being the index of the first
    later heading of level at most [L], or the length of the array when there
    is none, the section is [content[i..j)] and the remainder
    [content[0..i) ++ content[j..)]. When no heading matches, the section is
    empty and the remainder is the whole content; nothing is thrown. *)
Theorem extractADFSection_boundary_algorithm
    (toLowerCase : jsstring -> jsstring)
    (content : list ADFNode) (headingLabel : jsstring) :
  ((forall n, n ∈ content ->
      isMatchingHeading toLowerCase headingLabel n = false) ->
   extractADFSection toLowerCase content headingLabel
   = mkExtracted [] content)
  /\
  (forall i j h,
     content !! i = Some h ->
     isMatchingHeading toLowerCase headingLabel h = true ->
     (forall k n, k < i -> content !! k = Some n ->
                  isMatchingHeading toLowerCase headingLabel n = false) ->
     i < j -> j <= length content ->
     (forall k n, i < k -> k < j -> content !! k = Some n ->
                  isBoundary (headingLevel h) n = false) ->
     (j = length content \/
      exists b, content !! j = Some b /\
                isBoundary (headingLevel h) b = true) ->
     extractADFSection toLowerCase content headingLabel
     = mkExtracted (take (j - i) (drop i content))
                   (take i content ++ drop j content)).
Proof.
  split.
  - intros H. apply extractADFSection_none.
    apply Forall_forall. intros n Hn. by apply H, list_elem_of_In.
  - intros i j h. apply extractADFSection_at.
Qed.


Lemma extractADFSection_boundary_algorithm_witness :
  extractADFSection asciiLower sampleDoc (js "shell stories")
  = mkExtracted
      [ heading (Some 2%N) [textNode (js "Shell Stories")];
        bulletList [];
        heading (Some 3%N) [textNode (js "Details")];
        paragraph [textNode (js "more")] ]
      [ paragraph [textNode (js "Epic context")];
        heading (Some 2%N) [textNode (js "Other")];
        paragraph [textNode (js "tail")] ].
Proof.
  apply (proj2 (extractADFSection_boundary_algorithm asciiLower sampleDoc
                  (js "shell stories")) 1 5
               (heading (Some 2%N) [textNode (js "Shell Stories")])).
  - reflexivity.
  - reflexivity.
  - intros [|k] n Hk Hn; [|lia]. injection Hn as <-. reflexivity.
  - lia.
  - simpl. lia.
  - intros k n H1 H2 Hn.
    destruct k as [|[|[|[|[|k]]]]]; try lia; injection Hn as <-; reflexivity.
  - right. eexists. split; reflexivity.
Defined.

(** C10: a heading without a [level] (or with level 0) counts as a heading
    of level 2 in [extractADFSection] and [removeADFSectionByHeading]: when
    it starts the section, the section runs to the first later heading of
    level at most 2; when it follows the start of a section of level 2 or
    more, it ends that section. *)
Theorem levelless_heading_counts_as_level_2
    (toLowerCase : jsstring -> jsstring)
    (content : list ADFNode) (headingLabel : jsstring) (i j : nat)
    (h : ADFNode) :
  content !! i = Some h ->
  isMatchingHeading toLowerCase headingLabel h = true ->
  (forall k n, k < i -> content !! k = Some n ->
               isMatchingHeading toLowerCase headingLabel n = false) ->
  i < j -> j <= length content ->
  (levelless h ->
   (forall k n, i < k -> k < j -> content !! k = Some n ->
                isBoundary 2 n = false) ->
   (j = length content \/
    exists b, content !! j = Some b /\ isBoundary 2 b = true) ->
   extractADFSection toLowerCase content headingLabel
   = mkExtracted (take (j - i) (drop i content))
                 (take i content ++ drop j content)
   /\ removeADFSectionByHeading toLowerCase content headingLabel
      = take i content ++ drop j content)
  /\
  (forall b,
     content !! j = Some b -> levelless b ->
     (2 <= headingLevel h)%N ->
     (forall k n, i < k -> k < j -> content !! k = Some n ->
                  isBoundary (headingLevel h) n = false) ->
     extractADFSection toLowerCase content headingLabel
     = mkExtracted (take (j - i) (drop i content))
                   (take i content ++ drop j content)
     /\ removeADFSectionByHeading toLowerCase content headingLabel
        = take i content ++ drop j content).
Proof.
  intros Hi Hh Hfirst Hij Hj. split.
  - intros Hl Hbetween Hend.
    rewrite removeADFSectionByHeading_remaining.
    rewrite (extractADFSection_at toLowerCase content headingLabel i j h);
      rewrite ?(levelless_level h Hl); auto.
  - intros b Hb Hl HL Hbetween.
    rewrite removeADFSectionByHeading_remaining.
    rewrite (extractADFSection_at toLowerCase content headingLabel i j h);
      auto.
    right. exists b. split; [done|].
    unfold isBoundary. rewrite (levelless_level b Hl).
    destruct Hl as [-> _]. simpl. by apply N.leb_le.
Qed.


Lemma levelless_heading_counts_as_level_2_witness :
  levelless (mkNode (js "heading") None None None
                    (Some [textNode (js "Next")])) /\
  extractADFSection asciiLower levellessDoc (js "Shell Stories")
  = mkExtracted
      [ heading (Some 3%N) [textNode (js "Shell Stories")];
        bulletList [];
        heading (Some 4%N) [textNode (js "Notes")] ]
      [ mkNode (js "heading") None None None (Some [textNode (js "Next")]);
        paragraph [textNode (js "tail")] ] /\
  removeADFSectionByHeading asciiLower levellessDoc (js "Shell Stories")
  = [ mkNode (js "heading") None None None (Some [textNode (js "Next")]);
      paragraph [textNode (js "tail")] ].
Proof.
  assert (Hl : levelless (mkNode (js "heading") None None None
                                 (Some [textNode (js "Next")]))).
  { split; [reflexivity | by left]. }
  split; [exact Hl|].
  apply (proj2 (levelless_heading_counts_as_level_2 asciiLower levellessDoc
                  (js "Shell Stories") 0 3
                  (heading (Some 3%N) [textNode (js "Shell Stories")])
                  eq_refl eq_refl
                  ltac:(intros k n Hk; lia) ltac:(lia) ltac:(simpl; lia))
               (mkNode (js "heading") None None None
                       (Some [textNode (js "Next")]))).
  - reflexivity.
  - exact Hl.
  - apply N.leb_le. reflexivity.
  - intros k n H1 H2 Hn.
    destruct k as [|[|[|k]]]; try lia; injection Hn as <-; reflexivity.
Defined.

(** ** The parser *)

Lemma streq_true a b : streq a b = true <-> a = b.
Proof. unfold streq. by rewrite bool_decide_eq_true. Qed.

Lemma streq_refl a : streq a a = true.
Proof. by apply streq_true. Qed.

Lemma forEachWithContent_foldRes {St} source ty
    (cb : ADFNode -> St -> Res St) s :
  forEachWithContent source ty cb s
  = foldRes cb (List.filter (withContent ty) source) s.
Proof.
  revert s. induction source as [|n source IH]; intros s; simpl; [done|].
  unfold withContent at 1.
  destruct (isType n ty && hasContent n); simpl; [|done].
  destruct (cb n s); simpl; [apply IH | done].
Qed.

Lemma foldRes_app {A St} (cb : A -> St -> Res St) l1 l2 s :
  foldRes cb (l1 ++ l2) s = letr s' := foldRes cb l1 s in foldRes cb l2 s'.
Proof.
  revert s. induction l1 as [|x l1 IH]; intros s; simpl; [done|].
  destruct (cb x s); simpl; [apply IH | done].
Qed.

Lemma foldRes_flat_map {A B St} (cb : B -> St -> Res St) (f : A -> list B) l s :
  foldRes (fun x s => foldRes cb (f x) s) l s = foldRes cb (flat_map f l) s.
Proof.
  revert s. induction l as [|x l IH]; intros s; simpl; [done|].
  rewrite foldRes_app. destruct (foldRes cb (f x) s); simpl; [apply IH | done].
Qed.

Lemma foldRes_ext {A St} (cb cb' : A -> St -> Res St) l s :
  (forall x s, x ∈ l -> cb x s = cb' x s) ->
  foldRes cb l s = foldRes cb' l s.
Proof.
  revert s. induction l as [|x l IH]; intros s H; simpl; [done|].
  rewrite H by left. destruct (cb' x s); simpl; [|done].
  apply IH. intros y s' Hy. apply H. by right.
Qed.

Lemma foldRes_total {A St} (cb : A -> St -> Res St) (g : A -> St -> St) l s :
  (forall x s, cb x s = Ok (g x s)) ->
  foldRes cb l s = Ok (fold_left (fun s x => g x s) l s).
Proof.
  intros H. revert s. induction l as [|x l IH]; intros s; simpl; [done|].
  rewrite H. simpl. apply IH.
Qed.

(** The identifier is the text of the first identifier node of the first
    paragraph. *)
Lemma scanStoryId_first pre n post t :
  Forall (fun m => isIdNode m = false) pre ->
  isIdNode n = true -> text n = Some t ->
  scanStoryId (pre ++ n :: post) = Some t.
Proof.
  intros Hpre Hn Ht. induction Hpre as [|m pre Hm _ IH]; simpl.
  - unfold isIdNode in Hn. rewrite Ht in *.
    apply andb_true_iff in Hn as [-> ->]. done.
  - unfold isIdNode in Hm.
    destruct (isType m (js "text") && hasMarkType m (js "code")); [|done].
    simpl in Hm. destruct (text m); [|done]. by rewrite Hm.
Qed.

Lemma scanStoryId_none nodes :
  scanStoryId nodes = None <-> Forall (fun m => isIdNode m = false) nodes.
Proof.
  induction nodes as [|m nodes IH]; simpl; [by split; [constructor|]|].
  rewrite Forall_cons_iff. unfold isIdNode at 1.
  destruct (isType m (js "text") && hasMarkType m (js "code")); simpl.
  - destruct (text m) as [t|].
    + destruct (matches_st_digits t) eqn:Ht.
      * split; [done|]. intros [? _]. done.
      * rewrite IH. tauto.
    + rewrite IH. tauto.
  - rewrite IH. tauto.
Qed.

Lemma scanStoryId_some nodes t :
  scanStoryId nodes = Some t ->
  exists pre n post,
    nodes = pre ++ n :: post /\ Forall (fun m => isIdNode m = false) pre /\
    isIdNode n = true /\ text n = Some t.
Proof.
  induction nodes as [|m nodes IH]; simpl; [done|].
  destruct (isIdNode m) eqn:Hm.
  - unfold isIdNode in Hm.
    apply andb_true_iff in Hm as [Hm Ht]. rewrite Hm.
    destruct (text m) as [t'|] eqn:Htx; [|done]. rewrite Ht.
    intros [= <-]. exists [], m, nodes. simpl. repeat split; auto.
    unfold isIdNode. by rewrite Hm, Htx, Ht.
  - intros H.
    assert (scanStoryId nodes = Some t) as H'.
    { unfold isIdNode in Hm.
      destruct (isType m (js "text") && hasMarkType m (js "code")); [|done].
      simpl in Hm. destruct (text m); [|done]. by rewrite Hm in H. }
    destruct (IH H') as (pre & n & post & -> & Hpre & Hn & Ht).
    exists (m :: pre), n, post. repeat split; auto.
Qed.

Lemma extractStoryId_firstParagraph c :
  extractStoryId c = scanStoryId (firstParagraphNodes c).
Proof.
  unfold extractStoryId, firstParagraphNodes, contentOf.
  destruct (findParagraph c) as [p|]; [|done]. by destruct (content p).
Qed.

Lemma extractStoryId_none_iff c :
  extractStoryId c = None <->
  Forall (fun n => isIdNode n = false) (firstParagraphNodes c).
Proof. rewrite extractStoryId_firstParagraph. apply scanStoryId_none. Qed.

(** The scan for the title stops at the first separator node; it has found
    the marker if a code-marked text node comes before. *)
Lemma titleLoop_found nodes fid ttl url :
  let r := titleLoop nodes fid ttl url in
  (Forall (fun n => isSepNode n = false) nodes /\
   foundSeparator r = false)
  \/
  (exists pre s post,
     nodes = pre ++ s :: post /\
     Forall (fun n => isSepNode n = false) pre /\
     isSepNode s = true /\
     foundSeparator r = true /\
     foundId r = fid || existsb isCodeText pre).
Proof.
  revert fid ttl url. induction nodes as [|n nodes IH]; intros fid ttl url.
  - left. simpl. split; [constructor | done].
  - simpl. unfold isSepNode at 1 3. unfold isCodeText at 1 2.
    destruct (isType n (js "text") && hasMarkType n (js "code")) eqn:Hcode.
    + destruct (IH true ttl url) as [[Hall Hs]|(pre & s & post & -> & Hpre & Hs & Hf & Hid)].
      * left. split; [|done]. constructor; [|done].
        unfold isSepNode, isCodeText. by rewrite Hcode.
      * right. exists (n :: pre), s, post. simpl.
        unfold isCodeText at 1. rewrite Hcode. simpl.
        repeat split; auto.
        -- constructor; [|done]. unfold isSepNode, isCodeText. by rewrite Hcode.
        -- rewrite Hid. simpl. by rewrite orb_true_r.
    + destruct (isType n (js "text") && textIncludesSep n) eqn:Hsep.
      * right. exists [], n, nodes. simpl.
        repeat split; auto.
        -- unfold isSepNode, isCodeText. rewrite Hcode. simpl.
           by rewrite Hsep.
        -- by rewrite orb_false_r.
      * assert (isSepNode n = false) as Hn.
        { unfold isSepNode, isCodeText. rewrite Hcode. simpl. by rewrite Hsep. }
        assert (forall r' : TitleScan,
          (Forall (fun n => isSepNode n = false) nodes /\
           foundSeparator r' = false) \/
          (exists pre s post,
             nodes = pre ++ s :: post /\
             Forall (fun n => isSepNode n = false) pre /\
             isSepNode s = true /\ foundSeparator r' = true /\
             foundId r' = fid || existsb isCodeText pre) ->
          (Forall (fun n => isSepNode n = false) (n :: nodes) /\
           foundSeparator r' = false) \/
          (exists pre s post,
             n :: nodes = pre ++ s :: post /\
             Forall (fun n => isSepNode n = false) pre /\
             isSepNode s = true /\ foundSeparator r' = true /\
             foundId r' = fid || existsb isCodeText pre)) as Hstep.
        { intros r' [[Hall Hs]|(pre & s & post & -> & Hpre & Hs & Hf & Hid)].
          - left. split; [by constructor | done].
          - right. exists (n :: pre), s, post. simpl.
            unfold isCodeText at 1. rewrite Hcode. simpl.
            repeat split; auto. }
        destruct (fid && isType n (js "text")); apply Hstep, IH.
Qed.

Lemma extractTitleInfo_firstParagraph c :
  extractTitleInfo c =
  let r := titleLoop (firstParagraphNodes c) false [] None in
  if foundId r && foundSeparator r && truthy (scannedTitle r)
  then Some (trim (scannedTitle r), scannedUrl r) else None.
Proof.
  unfold extractTitleInfo, firstParagraphNodes, contentOf.
  destruct (findParagraph c) as [p|]; [|done]. by destruct (content p).
Qed.

Lemma extractDescription_firstParagraph c :
  extractDescription c = trim (descriptionLoop (firstParagraphNodes c) false []).
Proof.
  unfold extractDescription, firstParagraphNodes, contentOf.
  destruct (findParagraph c) as [p|]; [|done]. by destruct (content p).
Qed.

Section ParserFacts.
Variable toLowerCase : jsstring -> jsstring.
Variable convertAdfNodesToMarkdown : list ADFNode -> jsstring.

Abbreviation parseItem :=
  (parseShellStoryFromListItem toLowerCase convertAdfNodesToMarkdown).
Abbreviation parse :=
  (parseShellStoriesFromAdf toLowerCase convertAdfNodesToMarkdown).

(** The scans of nested lists never throw. *)
Lemma forEachNestedParagraph_total {St} c (cb : ADFNode -> St -> St) s :
  exists s', forEachNestedParagraph c cb s = Ok s'.
Proof.
  unfold forEachNestedParagraph.
  rewrite forEachWithContent_foldRes.
  erewrite foldRes_ext.
  2:{ intros bl s1 _. rewrite forEachWithContent_foldRes.
      erewrite foldRes_ext.
      2:{ intros li s2 _. rewrite forEachWithContent_foldRes.
          apply (foldRes_total _ cb). done. }
      apply (foldRes_total _ (fun li s2 =>
               fold_left (fun s3 p => cb p s3)
                 (List.filter (withContent (js "paragraph")) (contentOf li)) s2)).
      done. }
  erewrite foldRes_total; [eauto|]. intros x s1. reflexivity.
Qed.

(** What [parseShellStoryFromListItem] does on a visited list item: it
    throws the item's structural error, or returns its record. *)
Lemma parseItem_visited li :
  withContent (js "listItem") li = true ->
  match itemError li with
  | Some msg => parseItem li = Throw msg
  | None =>
      exists r, parseItem li = Ok (Some r) /\
                extractStoryId (contentOf li) = Some (id r) /\
                (exists url, extractTitleInfo (contentOf li)
                             = Some (title r, url) /\ jiraUrl r = url) /\
                description r = extractDescription (contentOf li)
  end.
Proof.
  intros Hv. unfold withContent in Hv. apply andb_true_iff in Hv as [Hty Hc].
  unfold itemError, parseShellStoryFromListItem. rewrite Hty, Hc. simpl.
  destruct (extractStoryId (contentOf li)) as [sid|]; [|done].
  destruct (extractTitleInfo (contentOf li)) as [[ttl url]|]; [|done].
  destruct (truthy (extractDescription (contentOf li))); simpl; [|done].
  destruct (forEachNestedParagraph_total (contentOf li) screensOfParagraph [])
    as [scr Hscr].
  destruct (forEachNestedParagraph_total (contentOf li)
              (dependenciesOfParagraph toLowerCase) []) as [deps Hdeps].
  unfold extractScreens, extractDependencies. rewrite Hscr, Hdeps. simpl.
  eexists. split; [reflexivity|]. simpl. eauto.
Qed.

(** The parser is one pass over the visited items. *)
Lemma parse_visitedItems S :
  parse S =
  foldRes (fun li stories =>
             letr story := parseItem li in
             match story with
             | Some st => Ok (stories ++ [st])
             | None => Ok stories
             end) (visitedItems S) [].
Proof.
  unfold parseShellStoriesFromAdf, visitedItems.
  rewrite forEachWithContent_foldRes, <- foldRes_flat_map.
  apply foldRes_ext. intros bl s _. apply forEachWithContent_foldRes.
Qed.

Lemma visitedItems_withContent S li :
  li ∈ visitedItems S -> withContent (js "listItem") li = true.
Proof.
  unfold visitedItems. rewrite list_elem_of_In, in_flat_map.
  intros (bl & _ & Hli). by apply filter_In in Hli as [_ ?].
Qed.

Lemma parse_items_spec items acc :
  (forall li, li ∈ items -> withContent (js "listItem") li = true) ->
  match foldRes (fun li stories =>
                   letr story := parseItem li in
                   match story with
                   | Some st => Ok (stories ++ [st])
                   | None => Ok stories
                   end) items acc with
  | Throw msg =>
      exists pre li post,
        items = pre ++ li :: post /\
        Forall (fun x => itemError x = None) pre /\
        itemError li = Some msg
  | Ok stories =>
      exists rs, stories = acc ++ rs /\
        Forall2 (fun li r =>
                   itemError li = None /\
                   extractStoryId (contentOf li) = Some (id r) /\
                   (exists url, extractTitleInfo (contentOf li)
                                = Some (title r, url) /\ jiraUrl r = url) /\
                   description r = extractDescription (contentOf li))
                items rs
  end.
Proof.
  revert acc. induction items as [|li items IH]; intros acc Hv; simpl.
  - exists []. by rewrite app_nil_r.
  - pose proof (parseItem_visited li (Hv li ltac:(left))) as Hli.
    destruct (itemError li) as [msg|] eqn:He.
    + rewrite Hli. simpl. exists [], li, items. repeat split; auto.
    + destruct Hli as (r & -> & Hid & Httl & Hd). simpl.
      specialize (IH (acc ++ [r]) (fun x Hx => Hv x ltac:(by right))).
      match goal with |- context [foldRes ?f items (acc ++ [r])] =>
        destruct (foldRes f items (acc ++ [r])) as [stories|msg] end.
      * destruct IH as (rs & -> & Hrs). exists (r :: rs).
        split; [by rewrite <- app_assoc|]. constructor; auto.
      * destruct IH as (pre & li' & post & -> & Hpre & Hmsg).
        exists (li :: pre), li', post. repeat split; auto.
Qed.

End ParserFacts.

(** C5, as stated, fails: "ab001" is lowercase letters then digits and is
    code-marked, and the parser does not take it as an identifier. *)
Lemma other_letters_are_no_identifier :
  let item := listItem [paragraph [ markedText (js "ab001") [code];
                                    textNode (js " ");
                                    markedText (js "Login") [strong];
                                    textNode (js " " ++ [SEP] ++ js " desc") ]] in
  matches_letters_digits (js "ab001") = true /\
  extractStoryId (contentOf item) = None /\
  parseShellStoriesFromAdf asciiLower noMarkdown [bulletList [item]]
  = Throw msgMissingId.
Proof. repeat split; reflexivity. Qed.

(** C5, as amended: when the first paragraph of a list item contains a
    code-marked text node whose text matches [^st\d+$], the parser takes the
    text of the first such node as the record's identifier: it is the result
    of [extractStoryId], and the item parses to a record with that [id] or
    fails with an error that names it. *)
Theorem story_id_is_first_st_token
    (toLowerCase : jsstring -> jsstring)
    (convertAdfNodesToMarkdown : list ADFNode -> jsstring)
    (item : ADFNode) (pre post : list ADFNode) (n : ADFNode) (t : jsstring) :
  withContent (js "listItem") item = true ->
  firstParagraphNodes (contentOf item) = pre ++ n :: post ->
  isType n (js "text") = true -> hasMarkType n (js "code") = true ->
  text n = Some t -> matches_st_digits t = true ->
  Forall (fun m => isIdNode m = false) pre ->
  extractStoryId (contentOf item) = Some t /\
  match parseShellStoryFromListItem toLowerCase convertAdfNodesToMarkdown item
  with
  | Ok (Some r) => id r = t
  | Ok None => False
  | Throw msg => msg = msgMissingTitle t \/ msg = msgMissingDescription t
  end.
Proof.
  intros Hv Hsplit Hty Hcode Htx Hm Hpre.
  assert (extractStoryId (contentOf item) = Some t) as Hid.
  { rewrite extractStoryId_firstParagraph, Hsplit.
    apply scanStoryId_first; auto.
    unfold isIdNode. by rewrite Hty, Hcode, Htx. }
  split; [done|].
  pose proof (parseItem_visited toLowerCase convertAdfNodesToMarkdown item Hv)
    as Hp.
  unfold itemError in Hp. rewrite Hid in Hp.
  destruct (extractTitleInfo (contentOf item)).
  - destruct (truthy (extractDescription (contentOf item))).
    + destruct Hp as (r & -> & Hr & _). congruence.
    + rewrite Hp. by right.
  - rewrite Hp. by left.
Qed.

Lemma story_id_is_first_st_token_witness :
  extractStoryId (contentOf loginItem) = Some (js "st001") /\
  match parseShellStoryFromListItem asciiLower noMarkdown loginItem with
  | Ok (Some r) => id r = js "st001"
  | Ok None => False
  | Throw msg => msg = msgMissingTitle (js "st001") \/
                 msg = msgMissingDescription (js "st001")
  end.
Proof.
  apply (story_id_is_first_st_token asciiLower noMarkdown loginItem []
           [ textNode (js " ");
             markedText (js "Login Story") [strong];
             textNode (js " " ++ [SEP] ++ js " User can log in") ]
           (markedText (js "st001") [code]) (js "st001"));
    try reflexivity.
  constructor.
Defined.


(** ** The mutator, on trees *)

Lemma subnodes_unfold n : subnodes n = n :: allNodes (contentOf n).
Proof.
  by destruct n as [ty a mk tx [c|]].
Qed.

Lemma allNodes_app S1 S2 : allNodes (S1 ++ S2) = allNodes S1 ++ allNodes S2.
Proof. unfold allNodes. by rewrite flat_map_app. Qed.

Lemma elem_of_allNodes u S :
  u ∈ allNodes S <-> exists n, n ∈ S /\ u ∈ subnodes n.
Proof.
  unfold allNodes. rewrite list_elem_of_In, in_flat_map.
  split; intros (n & Hn & Hu); exists n; by rewrite ?list_elem_of_In in *.
Qed.

Lemma self_subnode n : n ∈ subnodes n.
Proof. rewrite subnodes_unfold. by left. Qed.

Lemma keeps_map u f S :
  (forall x, x ∈ S -> keeps u f x) ->
  u ∈ allNodes S -> u ∈ allNodes (map f S).
Proof.
  intros Hf. rewrite !elem_of_allNodes. intros (n & Hn & Hu).
  exists (f n). split; [by apply list_elem_of_fmap_2 | by apply Hf].
Qed.

Lemma keeps_updateWithContent u ty f S :
  (forall x, x ∈ S -> keeps u f x) ->
  u ∈ allNodes S -> u ∈ allNodes (updateWithContent ty f S).
Proof.
  intros Hf. apply keeps_map. intros x Hx Hu.
  destruct (isType x ty && hasContent x); [by apply Hf | done].
Qed.

Lemma keeps_alter u f i c :
  (forall x, x ∈ c -> keeps u f x) ->
  u ∈ allNodes c -> u ∈ allNodes (alter f i c).
Proof.
  intros Hf. rewrite !elem_of_allNodes. intros (n & Hn & Hu).
  apply list_elem_of_lookup in Hn as [j Hj].
  destruct (decide (i = j)) as [->|Hne].
  - exists (f n). split; [|by apply Hf; [eapply list_elem_of_lookup_2|]].
    apply list_elem_of_lookup. exists j.
    by rewrite list_lookup_alter_eq, Hj.
  - exists n. split; [|done].
    apply list_elem_of_lookup. exists j.
    by rewrite list_lookup_alter_ne.
Qed.

(** Replacing the content of a node of another type keeps [u], when the
    new content does. *)
Lemma keeps_setContent u x (g : list ADFNode -> list ADFNode) :
  type u <> type x ->
  (u ∈ allNodes (contentOf x) -> u ∈ allNodes (g (contentOf x))) ->
  keeps u (fun x => setContent x (g (contentOf x))) x.
Proof.
  intros Hty Hg. unfold keeps. rewrite !subnodes_unfold.
  rewrite !elem_of_cons. intros [->|Hu]; [done|].
  right. by apply Hg.
Qed.

Lemma isType_type n ty : isType n ty = true <-> type n = ty.
Proof. apply streq_true. Qed.

Lemma unknownKind_types u :
  unknownKind u = true ->
  type u <> js "bulletList" /\ type u <> js "listItem" /\
  type u <> js "paragraph" /\ type u <> js "text".
Proof.
  unfold unknownKind. rewrite !andb_true_iff, !negb_true_iff.
  intros [[[H1 H2] H3] H4].
  repeat split; intros Heq; apply isType_type in Heq; congruence.
Qed.

(** The updates of a text node keep every node of another type. *)
Lemma keeps_text_update u (f : ADFNode -> ADFNode) x :
  type u <> js "text" ->
  (isType x (js "text") = false -> f x = x) ->
  (isType x (js "text") = true ->
   type (f x) = type x /\ content (f x) = content x) ->
  keeps u f x.
Proof.
  intros Hu Hother Htext.
  destruct (isType x (js "text")) eqn:Hx.
  - destruct (Htext eq_refl) as [Hty Hc]. unfold keeps.
    rewrite !subnodes_unfold. unfold contentOf. rewrite Hc.
    rewrite !elem_of_cons. intros [->|H]; [|by right].
    apply isType_type in Hx. done.
  - unfold keeps. by rewrite (Hother eq_refl).
Qed.

Lemma keeps_addLinkToNode u url x :
  type u <> js "text" -> keeps u (addLinkToNode url) x.
Proof.
  intros Hu. apply keeps_text_update; [done| |].
  - intros Hx. unfold addLinkToNode. by rewrite Hx.
  - intros Hx. unfold addLinkToNode. rewrite Hx. simpl.
    by destruct (existsb isLinkMark _).
Qed.

Lemma keeps_links u url idxs c :
  type u <> js "text" ->
  u ∈ allNodes c ->
  u ∈ allNodes (fold_left (fun c i => alter (addLinkToNode url) i c) idxs c).
Proof.
  intros Hu. revert c. induction idxs as [|i idxs IH]; intros c Hc; simpl.
  - done.
  - apply IH. apply keeps_alter; [|done].
    intros x _. by apply keeps_addLinkToNode.
Qed.

Lemma keeps_appendOrUpdateTimestamp u now c :
  type u <> js "text" ->
  u ∈ allNodes c -> u ∈ allNodes (appendOrUpdateTimestamp now c).
Proof.
  intros Hu Hc. unfold appendOrUpdateTimestamp.
  destruct (findIndex isEmText c) as [i|].
  - apply keeps_alter; [|done]. intros x _.
    apply keeps_text_update; [done| |].
    + by intros ->.
    + by intros ->.
  - rewrite allNodes_app. apply elem_of_app. by left.
Qed.

Lemma keeps_markParagraph u url now p :
  type u <> js "paragraph" -> type u <> js "text" ->
  isType p (js "paragraph") = true ->
  keeps u (markParagraph url now) p.
Proof.
  intros Hp Ht Hty. unfold keeps, markParagraph.
  destruct (content p) as [c|] eqn:Hc; [|done].
  pose proof (keeps_setContent u p
    (fun c => appendOrUpdateTimestamp now
       (fold_left (fun c i => alter (addLinkToNode url) i c)
                  (findTitleParts c) c))) as H.
  unfold keeps, contentOf in H. rewrite Hc in H. apply H.
  - apply isType_type in Hty. congruence.
  - intros Hu. by apply keeps_appendOrUpdateTimestamp, keeps_links.
Qed.

Lemma keeps_markListItem u storyId url now li :
  type u <> js "listItem" -> type u <> js "paragraph" -> type u <> js "text" ->
  isType li (js "listItem") = true ->
  keeps u (markListItem storyId url now) li.
Proof.
  intros Hl Hp Ht Hty. unfold keeps, markListItem.
  destruct (isStory storyId li); [|done].
  apply (keeps_setContent u li
    (updateWithContent (js "paragraph") (markParagraph url now))).
  - apply isType_type in Hty. congruence.
  - apply keeps_map. intros p _ Hu.
    destruct (isType p (js "paragraph")) eqn:Hpty; simpl; [|done].
    destruct (hasContent p); [|done].
    by apply keeps_markParagraph.
Qed.

Lemma keeps_markBulletList u storyId url now bl :
  unknownKind u = true ->
  isType bl (js "bulletList") = true ->
  keeps u (markBulletList storyId url now) bl.
Proof.
  intros Hu Hty. apply unknownKind_types in Hu as (Hb & Hl & Hp & Ht).
  apply (keeps_setContent u bl
    (updateWithContent (js "listItem") (markListItem storyId url now))).
  - apply isType_type in Hty. congruence.
  - apply keeps_map. intros li _ Hin.
    destruct (isType li (js "listItem")) eqn:Hlty; simpl; [|done].
    destruct (hasContent li); [|done].
    by apply keeps_markListItem.
Qed.

(** The mutator keeps the nodes of unknown kinds. *)
Lemma mutator_keeps_unknown now S storyId issueKey issueUrl S' u :
  unknownKind u = true ->
  addCompletionMarkerToShellStory now S storyId issueKey issueUrl = Ok S' ->
  u ∈ allNodes S -> u ∈ allNodes S'.
Proof.
  intros Hu. unfold addCompletionMarkerToShellStory.
  destruct (storyFound storyId S); [|done]. intros [= <-].
  apply keeps_map. intros bl _ Hin.
  destruct (isType bl (js "bulletList")) eqn:Hty; simpl; [|done].
  destruct (hasContent bl); [|done].
  by apply keeps_markBulletList.
Qed.

(** The extractor splits the content: every node is in the section or in
    the remainder. *)
Lemma extractADFSection_splits toLowerCase content label :
  let E := extractADFSection toLowerCase content label in
  exists i j,
    section E = take (j - i) (drop i content) /\
    remainingContent E = take i content ++ drop j content /\
    i <= j.
Proof.
  unfold extractADFSection.
  destruct (findSectionStart toLowerCase content 0 label) as [[i L]|] eqn:Hs;
    simpl.
  - destruct (findSectionEnd_spec (drop (S i) content) (S i) L)
      as (mid & rest & _ & -> & _).
    eexists i, _. unfold slice. repeat split; lia.
  - exists 0, 0. simpl. by rewrite take_0, drop_0.
Qed.

Lemma extractADFSection_keeps_nodes toLowerCase content label u :
  let E := extractADFSection toLowerCase content label in
  u ∈ allNodes content ->
  u ∈ allNodes (section E) \/ u ∈ allNodes (remainingContent E).
Proof.
  intros E Hu.
  destruct (extractADFSection_splits toLowerCase content label)
    as (i & j & Hsec & Hrem & Hij).
  fold E in Hsec, Hrem. rewrite Hsec, Hrem.
  rewrite <- (take_drop i content) in Hu at 1.
  rewrite <- (take_drop (j - i) (drop i content)) in Hu.
  rewrite drop_drop in Hu. replace (i + (j - i)) with j in Hu by lia.
  rewrite !allNodes_app in *. rewrite !elem_of_app in *. tauto.
Qed.

(** C9: a node of a kind that the mutator does not know survives an
    extract / mutate cycle unchanged: extraction puts every node of the
    content in the section or in the remainder; completion marking of the
    section, for an identifier found in it, keeps every node of unknown kind
    that the section contains; so the reassembled document
    [remainder ++ marked section] still contains it. (Parsing reads the
    section and builds no tree.) *)
Theorem unknown_nodes_are_preserved
    (toLowerCase : jsstring -> jsstring)
    (content : list ADFNode) (headingLabel now storyId issueKey issueUrl : jsstring)
    (u : ADFNode) (marked : list ADFNode) :
  let E := extractADFSection toLowerCase content headingLabel in
  unknownKind u = true ->
  u ∈ allNodes content ->
  addCompletionMarkerToShellStory now (section E) storyId issueKey issueUrl
  = Ok marked ->
  (u ∈ allNodes (section E) \/ u ∈ allNodes (remainingContent E)) /\
  (u ∈ allNodes (section E) -> u ∈ allNodes marked) /\
  u ∈ allNodes (remainingContent E ++ marked).
Proof.
  intros E Hu Hin Hmark.
  pose proof (extractADFSection_keeps_nodes toLowerCase content headingLabel
                u Hin) as Hsplit.
  fold E in Hsplit.
  pose proof (mutator_keeps_unknown _ _ _ _ _ _ u Hu Hmark) as Hkeep.
  repeat split; [done | done |].
  rewrite allNodes_app, elem_of_app. tauto.
Qed.

Lemma unknown_nodes_are_preserved_witness :
  exists marked,
    addCompletionMarkerToShellStory sampleNow
      (section (extractADFSection asciiLower unknownDoc (js "Shell Stories")))
      (js "st001") sampleKey sampleUrl = Ok marked /\
    unknownNode ∈ allNodes marked /\
    unknownNode ∈ allNodes
      (remainingContent (extractADFSection asciiLower unknownDoc
                           (js "Shell Stories")) ++ marked).
Proof.
  eexists. split; [reflexivity|].
  assert (Hin : unknownNode ∈ allNodes unknownDoc).
  { apply list_elem_of_In. vm_compute. tauto. }
  destruct (unknown_nodes_are_preserved asciiLower unknownDoc
              (js "Shell Stories") sampleNow (js "st001") sampleKey sampleUrl
              unknownNode _ eq_refl Hin eq_refl) as (_ & H1 & H2).
  split; [|exact H2].
  apply H1. apply list_elem_of_In. vm_compute. tauto.
Defined.

(** *** The title nodes *)

Lemma findTitlePartsFrom_mask (f : ADFNode -> ADFNode) c :
  forall pre passedId,
    fold_left (fun c i => alter f i c)
              (findTitlePartsFrom c (length pre) passedId) (pre ++ c)
    = pre ++ applyMask f (titleMask c passedId) c.
Proof.
  induction c as [|n c IH]; intros pre passedId; [done|].
  assert (Hnext : forall p,
    fold_left (fun c i => alter f i c)
              (findTitlePartsFrom c (S (length pre)) p) (pre ++ n :: c)
    = pre ++ n :: applyMask f (titleMask c p) c).
  { intros p. specialize (IH (pre ++ [n]) p).
    rewrite length_app, <- !app_assoc in IH. simpl in IH.
    by rewrite Nat.add_1_r in IH. }
  cbn [findTitlePartsFrom titleMask].
  destruct (isType n (js "text") && hasMarkType n (js "code")).
  - by rewrite Hnext.
  - destruct (isType n (js "text") && textIncludesSep n); [done|].
    destruct (passedId && isType n (js "text")).
    + cbn [fold_left applyMask].
      assert (alter f (length pre) (pre ++ n :: c) = pre ++ f n :: c) as ->.
      { rewrite alter_app_r_alt by lia. by rewrite Nat.sub_diag. }
      specialize (IH (pre ++ [f n]) passedId).
      rewrite length_app, <- !app_assoc in IH. simpl in IH.
      by rewrite Nat.add_1_r in IH.
    + by rewrite Hnext.
Qed.

Lemma markParagraph_linkTitles url now p c :
  content p = Some c ->
  markParagraph url now p
  = setContent p (appendOrUpdateTimestamp now (linkTitles url c)).
Proof.
  intros Hc. unfold markParagraph, findTitleParts, linkTitles. rewrite Hc.
  pose proof (findTitlePartsFrom_mask (addLinkToNode url) c [] false) as H.
  cbn [length app] in H. by rewrite H.
Qed.

(** *** The timestamp *)

Lemma findIndex_none {A} (p : A -> bool) (l : list A) :
  findIndex p l = None <-> Forall (fun x => p x = false) l.
Proof.
  induction l as [|x l IH]; simpl; [by split; [constructor|]|].
  rewrite Forall_cons_iff. destruct (p x); simpl.
  - split; [done | by intros [? _]].
  - rewrite fmap_None, IH. tauto.
Qed.

Lemma findIndex_some {A} (p : A -> bool) (l : list A) i :
  findIndex p l = Some i <->
  exists x, l !! i = Some x /\ p x = true /\
            Forall (fun y => p y = false) (take i l).
Proof.
  revert i. induction l as [|x l IH]; intros i; simpl.
  - split; [done | by intros (? & ? & _)].
  - destruct (p x) eqn:Hx; simpl.
    + split.
      * intros [= <-]. exists x. simpl. repeat split; auto.
      * intros (y & Hy & Hpy & Hpre). destruct i as [|i]; [done|].
        simpl in Hpre. inversion Hpre; congruence.
    + rewrite fmap_Some. split.
      * intros (k & Hk & ->). apply IH in Hk as (y & Hy & Hpy & Hpre).
        exists y. simpl. repeat split; auto.
      * intros (y & Hy & Hpy & Hpre). destruct i as [|i].
        -- simpl in Hy. injection Hy as ->. congruence.
        -- exists i. split; [|done]. apply IH. exists y. simpl in *.
           repeat split; auto. by inversion Hpre.
Qed.

(** What [appendOrUpdateTimestamp] does: without an emphasis-marked text
    node in the paragraph, a plain space and the emphasis-marked timestamp
    are appended; otherwise the first emphasis-marked text node, wherever it
    stands, has its text replaced, and nothing else changes. *)
Lemma appendOrUpdateTimestamp_cases now c :
  (Forall (fun n => isEmText n = false) c /\
   appendOrUpdateTimestamp now c
   = c ++ [textNode (js " "); markedText (stampText now) [em]])
  \/
  (exists i n,
     c !! i = Some n /\ isEmText n = true /\
     Forall (fun m => isEmText m = false) (take i c) /\
     appendOrUpdateTimestamp now c = <[i := setText n (stampText now)]> c).
Proof.
  unfold appendOrUpdateTimestamp.
  destruct (findIndex isEmText c) as [i|] eqn:Hf.
  - right. apply findIndex_some in Hf as (n & Hn & Hem & Hpre).
    exists i, n. repeat split; auto.
    apply list_eq. intros j. destruct (decide (i = j)) as [<-|Hne].
    + rewrite list_lookup_alter_eq, Hn. simpl.
      rewrite list_lookup_insert_eq by (by eapply lookup_lt_Some).
      unfold isEmText in Hem. apply andb_true_iff in Hem as [-> _]. done.
    + by rewrite list_lookup_alter_ne, list_lookup_insert_ne.
  - left. by apply findIndex_none in Hf.
Qed.

(** C8, at the failing input: the paragraph has an emphasised word and the
    timestamp of an earlier marking at its end; marking again replaces the
    emphasised word by the new timestamp and leaves the old timestamp in
    place, so that two emphasis-marked timestamps result. *)
Theorem second_stamp_hits_first_emphasis :
  addCompletionMarkerToShellStory laterNow twoEmSection
    (js "st001") sampleKey sampleUrl
  = Ok [ bulletList [ listItem [ paragraph
      [ markedText (js "st001") [code];
        markedText (js " ") [linkMark sampleUrl];
        markedText (js "Login") [strong; linkMark sampleUrl];
        textNode (js " " ++ [SEP] ++ js " see the ");
        markedText (stampText laterNow) [em];
        textNode (js " ");
        markedText oldStamp [em] ] ] ] ].
Proof. reflexivity. Qed.

(** C2, at the failing input: the title is in italics; after marking, the
    record parses with the timestamp as its title. *)
Theorem italic_title_is_overwritten :
  (exists r, parseShellStoriesFromAdf asciiLower noMarkdown emTitleSection
             = Ok [r] /\
             id r = js "st001" /\ title r = js "Login" /\
             description r = js "desc")
  /\
  (exists marked r',
     addCompletionMarkerToShellStory sampleNow emTitleSection
       (js "st001") sampleKey sampleUrl = Ok marked /\
     parseShellStoriesFromAdf asciiLower noMarkdown marked = Ok [r'] /\
     id r' = js "st001" /\ title r' = stampText sampleNow /\
     description r' = js "desc").
Proof.
  split.
  - eexists. split; [reflexivity|]. repeat split; reflexivity.
  - eexists _, _. split; [reflexivity|]. split; [reflexivity|].
    repeat split; reflexivity.
Qed.

(** C1, at the failing input: the list item has a second paragraph with
    inline code; the first marking links the text after the code and appends
    a space and a timestamp to that paragraph too; the second marking takes
    the appended space and timestamp for title text and links them. *)
Theorem second_marking_links_the_stamp :
  let once :=
    [ bulletList [ listItem
        [ paragraph [ markedText (js "st001") [code];
                      markedText (js " ") [linkMark sampleUrl];
                      markedText (js "Login") [strong; linkMark sampleUrl];
                      textNode (js " " ++ [SEP] ++ js " desc");
                      textNode (js " ");
                      stampNode sampleNow ];
          paragraph [ markedText (js "npm test") [code];
                      markedText (js " must pass") [linkMark sampleUrl];
                      textNode (js " ");
                      stampNode sampleNow ] ] ] ] in
  let twice :=
    [ bulletList [ listItem
        [ paragraph [ markedText (js "st001") [code];
                      markedText (js " ") [linkMark sampleUrl];
                      markedText (js "Login") [strong; linkMark sampleUrl];
                      textNode (js " " ++ [SEP] ++ js " desc");
                      textNode (js " ");
                      stampNode sampleNow ];
          paragraph [ markedText (js "npm test") [code];
                      markedText (js " must pass") [linkMark sampleUrl];
                      markedText (js " ") [linkMark sampleUrl];
                      markedText (stampText sampleNow)
                                 [em; linkMark sampleUrl] ] ] ] ] in
  addCompletionMarkerToShellStory sampleNow twoParagraphSection
    (js "st001") sampleKey sampleUrl = Ok once /\
  addCompletionMarkerToShellStory sampleNow once
    (js "st001") sampleKey sampleUrl = Ok twice /\
  once <> twice.
Proof. repeat split; try reflexivity. discriminate. Qed.

(** ** The mutator, on the heap *)

Module HeapFacts.
Import Heap(loc, heap, nodeObj, mkObj, o_type, o_attrs, o_marks, o_text,
            o_content, obj, ONode, OMarks, ONodes, outcome, Ret, Thrown,
            Stuck, M, ret, throw, stuck, bind, alloc, loadNode, loadMarks,
            loadNodes, store, traverse, forM_, cloneMarks, cloneContent,
            cloneNode, structuredClone,
            forEachNodes, isTextWithMark, findNode, objIncludesSep,
            findTitleNodes, push, findIndexEm, contentRef, LTree, LT, root,
            erase, locs, stored, holds, represents, depth, depths,
            allocNode, allocNodes).
Import HeapSpec.

(** Induction on laid-out trees. *)
Lemma LTree_ind (P : LTree -> Prop) :
  (forall l ty a mk tx, P (LT l ty a mk tx None)) ->
  (forall l ty a mk tx lc ts,
     Forall P ts -> P (LT l ty a mk tx (Some (lc, ts)))) ->
  forall t, P t.
Proof.
  intros Hleaf Hnode.
  fix IH 1. intros [l ty a mk tx [[lc ts]|]]; [|apply Hleaf].
  apply Hnode. induction ts as [|t ts IHts]; constructor; [apply IH | done].
Qed.

Lemma stored_unfold h l ty a mk tx ct :
  stored h (LT l ty a mk tx ct) <->
  h !! l = Some (ONode (mkObj ty a (fst <$> mk) tx (fst <$> ct)))
  /\ match mk with
     | Some (lm, ms) => h !! lm = Some (OMarks ms)
     | None => True
     end
  /\ match ct with
     | Some (lc, ts) =>
         h !! lc = Some (ONodes (map root ts)) /\ Forall (stored h) ts
     | None => True
     end.
Proof.
  simpl. destruct ct as [[lc ts]|]; [|done].
  assert ((fix all (ts : list LTree) : Prop :=
             match ts with
             | [] => True
             | t :: ts' => stored h t /\ all ts'
             end) ts <-> Forall (stored h) ts) as ->; [|done].
  induction ts as [|t ts IH]; [by split; [constructor|]|].
  rewrite Forall_cons_iff, IH. done.
Qed.

Opaque stored.

Lemma elem_of_locs_forest x ts :
  x ∈ concat (map locs ts) <-> exists t, t ∈ ts /\ x ∈ locs t.
Proof.
  rewrite list_elem_of_In, in_concat. split.
  - intros (ls & Hls & Hx). apply in_map_iff in Hls as (t & <- & Ht).
    exists t. by rewrite !list_elem_of_In.
  - intros (t & Ht & Hx). exists (locs t). rewrite <- !list_elem_of_In.
    split; [|done]. by apply list_elem_of_fmap_2.
Qed.

Lemma elem_of_locs x l ty a mk tx ct :
  x ∈ locs (LT l ty a mk tx ct) <->
  x = l \/ (exists ms, mk = Some (x, ms)) \/
  (exists lc ts, ct = Some (lc, ts) /\
                 (x = lc \/ x ∈ concat (map locs ts))).
Proof.
  simpl. rewrite elem_of_cons, elem_of_app.
  destruct mk as [[lm ms]|], ct as [[lc ts]|];
    rewrite ?list_elem_of_singleton, ?elem_of_cons, ?elem_of_nil;
    naive_solver.
Qed.

Lemma root_in_locs t : root t ∈ locs t.
Proof. destruct t. apply elem_of_locs. by left. Qed.

(** The objects of a stored tree are in the heap. *)
Lemma stored_lt h t x : stored h t -> x ∈ locs t -> x < length h.
Proof.
  revert x. induction t as [l ty a mk tx|l ty a mk tx lc ts IH] using LTree_ind;
    intros x; rewrite stored_unfold, elem_of_locs; intros (Hl & Hmk & Hct).
  - intros [->|[(ms & ->)|(? & ? & ? & _)]]; [| |done];
      by eapply lookup_lt_Some.
  - destruct Hct as [Hlc Hts].
    intros [->|[(ms & ->)|(? & ? & [= <- <-] & [->|Hx])]];
      [by eapply lookup_lt_Some..|].
    apply elem_of_locs_forest in Hx as (t & Ht & Hx).
    rewrite Forall_forall in IH, Hts.
    apply list_elem_of_In in Ht. apply (IH t Ht); [by apply Hts | done].
Qed.

(** A stored tree stays stored when its objects are left as they are. *)
Lemma stored_frame h h' t :
  stored h t -> (forall x, x ∈ locs t -> h' !! x = h !! x) -> stored h' t.
Proof.
  induction t as [l ty a mk tx|l ty a mk tx lc ts IH] using LTree_ind;
    rewrite !stored_unfold; intros (Hl & Hmk & Hct) Hsame.
  - split; [|split; [|done]].
    + rewrite Hsame; [done | apply elem_of_locs; by left].
    + destruct mk as [[lm ms]|]; [|done].
      rewrite Hsame; [done | apply elem_of_locs; eauto].
  - destruct Hct as [Hlc Hts]. split; [|split; [|split]].
    + rewrite Hsame; [done | apply elem_of_locs; by left].
    + destruct mk as [[lm ms]|]; [|done].
      rewrite Hsame; [done | apply elem_of_locs; eauto].
    + rewrite Hsame; [done | apply elem_of_locs; eauto 10].
    + rewrite Forall_forall in IH, Hts. apply Forall_forall. intros t Ht.
      apply IH; [done | by apply Hts |]. intros x Hx. apply Hsame.
      apply elem_of_locs. right. right. exists lc, ts. split; [done|]. right.
      apply elem_of_locs_forest. exists t. split; [|done].
      by apply list_elem_of_In.
Qed.

Lemma upd_refl F h : upd F h h.
Proof. split; [lia | done]. Qed.

Lemma upd_trans F1 F2 F h1 h2 h3 :
  upd F1 h1 h2 -> upd F2 h2 h3 ->
  (forall x, x ∈ F1 -> x ∈ F) ->
  (forall x, x ∈ F2 -> x < length h1 -> x ∈ F) ->
  upd F h1 h3.
Proof.
  intros [Hl1 H1] [Hl2 H2] HF1 HF2. split; [lia|].
  intros x Hx HxF. rewrite H2, H1; auto with lia.
Qed.

Lemma upd_mono F F' h h' :
  upd F h h' -> (forall x, x ∈ F -> x ∈ F') -> upd F' h h'.
Proof. intros [Hl H] HF. split; [done|]. intros x Hx HxF. apply H; auto. Qed.

Lemma upd_alloc F h o : upd F h (h ++ [o]).
Proof.
  split; [rewrite length_app; lia|]. intros x Hx _. by rewrite lookup_app_l.
Qed.

Lemma upd_insert F h x o : x ∈ F -> upd F h (<[x := o]> h).
Proof.
  intros Hx. split; [by rewrite length_insert|].
  intros y Hy HyF. rewrite list_lookup_insert_ne; [done|]. by intros ->.
Qed.

Lemma stored_upd F h h' t :
  stored h t -> upd F h h' -> (forall x, x ∈ locs t -> x ∉ F) -> stored h' t.
Proof.
  intros Hs [_ Hu] Hd. apply (stored_frame h); [done|].
  intros x Hx. apply Hu; [by eapply stored_lt | by apply Hd].
Qed.

Lemma Forall_stored_upd F h h' ts :
  Forall (stored h) ts -> upd F h h' ->
  (forall x, x ∈ concat (map locs ts) -> x ∉ F) ->
  Forall (stored h') ts.
Proof.
  intros Hs Hu Hd. rewrite Forall_forall in Hs. apply Forall_forall.
  intros t Ht. apply (stored_upd F h); [by apply Hs | done |].
  intros x Hx. apply Hd. apply elem_of_locs_forest. exists t.
  split; [by apply list_elem_of_In | done].
Qed.

Lemma Forall_stored_lt h ts x :
  Forall (stored h) ts -> x ∈ concat (map locs ts) -> x < length h.
Proof.
  intros Hs Hx. apply elem_of_locs_forest in Hx as (t & Ht & Hx).
  rewrite Forall_forall in Hs. apply (stored_lt h t); [|done].
  by apply Hs, list_elem_of_In.
Qed.

(** *** Reading a stored tree *)

Lemma stored_root h t : stored h t -> h !! root t = Some (ONode (objOf t)).
Proof. destruct t. rewrite stored_unfold. by intros (? & _). Qed.

Lemma loadNode_stored h t : stored h t -> loadNode (root t) h = (Ret (objOf t), h).
Proof. intros Hs. unfold loadNode. by rewrite (stored_root h t Hs). Qed.

Lemma objOf_type t : o_type (objOf t) = type (erase t).
Proof. by destruct t. Qed.

Lemma objOf_text t : o_text (objOf t) = text (erase t).
Proof. by destruct t. Qed.

Lemma objOf_content_is_Some t :
  bool_decide (is_Some (o_content (objOf t))) = hasContent (erase t).
Proof. by destruct t as [l ty a mk tx [[lc ts]|]]. Qed.

Lemma hasMarkType_stored h t m :
  stored h t ->
  Heap.hasMarkType (root t) m h = (Ret (hasMarkType (erase t) m), h).
Proof.
  intros Hs. unfold Heap.hasMarkType, bind. rewrite (loadNode_stored h t Hs).
  destruct t as [l ty a [[lm ms]|] tx ct]; simpl; [|done].
  apply stored_unfold in Hs as (_ & Hmk & _).
  unfold loadMarks. by rewrite Hmk.
Qed.

Lemma isTextWithMark_stored h t m :
  stored h t ->
  isTextWithMark (root t) m h
  = (Ret (isType (erase t) (js "text") && hasMarkType (erase t) m), h).
Proof.
  intros Hs. unfold isTextWithMark, bind. rewrite (loadNode_stored h t Hs).
  rewrite objOf_type. unfold isType.
  destruct (streq (type (erase t)) (js "text")); simpl; [|done].
  by apply hasMarkType_stored.
Qed.

Lemma scanStoryId_stored h ts :
  Forall (stored h) ts ->
  Heap.scanStoryId (map root ts) h = (Ret (scanStoryId (map erase ts)), h).
Proof.
  induction 1 as [|t ts Ht Hts IH]; simpl; [done|].
  unfold bind. rewrite (isTextWithMark_stored h t _ Ht).
  destruct (isType (erase t) (js "text") && hasMarkType (erase t) (js "code"));
    [|done].
  rewrite (loadNode_stored h t Ht), objOf_text.
  destruct (text (erase t)) as [tx|]; [|done].
  by destruct (matches_st_digits tx).
Qed.

Lemma findNode_paragraph_stored h ts :
  Forall (stored h) ts ->
  findNode (fun o => streq (o_type o) (js "paragraph")) (map root ts) h
  = (Ret (root <$> List.find (fun t => isType (erase t) (js "paragraph")) ts), h).
Proof.
  induction 1 as [|t ts Ht Hts IH]; simpl; [done|].
  unfold bind. rewrite (loadNode_stored h t Ht), objOf_type.
  unfold isType at 1. by destruct (streq (type (erase t)) (js "paragraph")).
Qed.

Lemma find_erase (p : ADFNode -> bool) ts :
  List.find p (map erase ts) = erase <$> List.find (fun t => p (erase t)) ts.
Proof.
  induction ts as [|t ts IH]; simpl; [done|]. by destruct (p (erase t)).
Qed.

Lemma extractStoryId_stored h lc ts :
  h !! lc = Some (ONodes (map root ts)) -> Forall (stored h) ts ->
  Heap.extractStoryId lc h = (Ret (extractStoryId (map erase ts)), h).
Proof.
  intros Hlc Hts. unfold Heap.extractStoryId, extractStoryId, bind.
  unfold loadNodes at 1. rewrite Hlc.
  rewrite (findNode_paragraph_stored h ts Hts).
  unfold findParagraph. rewrite find_erase.
  destruct (List.find _ ts) as [p|] eqn:Hf; simpl; [|done].
  apply find_some in Hf as [Hp _].
  rewrite Forall_forall in Hts. specialize (Hts p Hp).
  rewrite (loadNode_stored h p Hts).
  destruct p as [l ty a mk tx [[pc cs]|]]; simpl; [|done].
  apply stored_unfold in Hts as (_ & _ & Hpc & Hcs).
  unfold loadNodes. rewrite Hpc. by apply scanStoryId_stored.
Qed.

(** *** Cloning *)

Lemma stored_ext h hx t : stored h t -> stored (h ++ hx) t.
Proof.
  intros Hs. apply (stored_frame h); [done|]. intros x Hx.
  apply lookup_app_l. by eapply stored_lt.
Qed.

Lemma depth_unfold n : depth n = S (depths (contentOf n)).
Proof.
  by destruct n as [ty a mk tx [c|]].
Qed.

Lemma bind_run {A B} (m : M A) (k : A -> M B) h a h' :
  m h = (Ret a, h') -> bind m k h = k a h'.
Proof. intros H. unfold bind. by rewrite H. Qed.

Lemma bind_assoc {A B C} (m : M A) (k1 : A -> M B) (k2 : B -> M C) h :
  bind (bind m k1) k2 h = bind m (fun a => bind (k1 a) k2) h.
Proof. unfold bind. by destruct (m h) as [[a|msg|] h']. Qed.

Lemma bind_ret {A B} (a : A) (k : A -> M B) h : bind (ret a) k h = k a h.
Proof. done. Qed.

Lemma loadNodes_run h l ns :
  h !! l = Some (ONodes ns) -> loadNodes l h = (Ret ns, h).
Proof. intros H. unfold loadNodes. by rewrite H. Qed.

Lemma loadMarks_run h l ms :
  h !! l = Some (OMarks ms) -> loadMarks l h = (Ret ms, h).
Proof. intros H. unfold loadMarks. by rewrite H. Qed.

Lemma alloc_run h o : alloc o h = (Ret (length h), h ++ [o]).
Proof. done. Qed.

Lemma store_run h l o :
  l < length h -> store l o h = (Ret tt, <[l := o]> h).
Proof. intros H. unfold store. by rewrite decide_True. Qed.

Lemma cloneNode_S fuel l :
  cloneNode (S fuel) l =
  bind (loadNode l) (fun o =>
  bind (cloneMarks (o_marks o)) (fun mk =>
  bind (cloneContent (cloneNode fuel) (o_content o)) (fun ct =>
  alloc (ONode (mkObj (o_type o) (o_attrs o) mk (o_text o) ct))))).
Proof. reflexivity. Qed.

Lemma traverse_clone fuel ts :
  Forall (fun t => forall h, stored h t -> depth (erase t) <= fuel ->
            exists t' hx, cloneNode fuel (root t) h = (Ret (root t'), h ++ hx)
                          /\ cloned h t t' hx) ts ->
  forall h,
    Forall (stored h) ts -> depths (map erase ts) <= fuel ->
    exists ts' hx,
      traverse (cloneNode fuel) (map root ts) h = (Ret (map root ts'), h ++ hx)
      /\ map erase ts' = map erase ts
      /\ Forall (stored (h ++ hx)) ts'
      /\ NoDup (concat (map locs ts'))
      /\ forall x, x ∈ concat (map locs ts') -> length h <= x.
Proof.
  induction 1 as [|t ts Ht _ IH]; intros h Hs Hd.
  - exists [], []. rewrite app_nil_r. simpl. repeat split; auto.
    + constructor.
    + intros x Hx. by apply elem_of_nil in Hx.
  - inversion Hs as [|? ? Hst Hsts]; subst. simpl in Hd.
    destruct (Ht h Hst ltac:(lia)) as (t' & hx1 & Hrun & He & Hs' & Hnd & Hfresh).
    destruct (IH (h ++ hx1)) as (ts' & hx2 & Hrun2 & He2 & Hs2 & Hnd2 & Hfresh2).
    { eapply Forall_impl; [|exact Hsts]. intros ? ?. by apply stored_ext. }
    { lia. }
    exists (t' :: ts'), (hx1 ++ hx2). simpl.
    rewrite (bind_run _ _ _ _ _ Hrun), (bind_run _ _ _ _ _ Hrun2).
    rewrite <- app_assoc. simpl.
    repeat split; auto.
    + by rewrite He, He2.
    + constructor; [|by rewrite app_assoc].
      rewrite app_assoc. by apply stored_ext.
    + apply list.NoDup_app. repeat split; auto.
      intros x Hx Hx2. apply Hfresh2 in Hx2.
      apply (stored_lt _ _ _ Hs') in Hx. lia.
    + intros x. rewrite elem_of_app. intros [Hx|Hx]; [by apply Hfresh|].
      apply Hfresh2 in Hx. rewrite length_app in Hx. lia.
Qed.

Lemma lookup_snoc {A} (l : list A) x : (l ++ [x]) !! length l = Some x.
Proof. by rewrite list_lookup_middle. Qed.

(** Cloning the [marks] array. *)
Lemma cloneMarks_spec h (mk : option (loc * list Mark)) :
  match mk with
  | Some (lm, ms) => h !! lm = Some (OMarks ms)
  | None => True
  end ->
  exists mk' hm,
    cloneMarks (fst <$> mk) h = (Ret (fst <$> mk'), h ++ hm) /\
    snd <$> mk' = snd <$> mk /\
    match mk' with
    | Some (lm', ms) => lm' = length h /\ hm = [OMarks ms]
    | None => hm = []
    end.
Proof.
  destruct mk as [[lm ms]|]; simpl; intros Hmk.
  - exists (Some (length h, ms)), [OMarks ms].
    rewrite (bind_run _ _ _ _ _ (loadMarks_run _ _ _ Hmk)).
    by rewrite (bind_run _ _ _ _ _ (alloc_run _ _)).
  - exists None, []. by rewrite app_nil_r.
Qed.

Lemma cloneNode_spec t :
  forall fuel h, stored h t -> depth (erase t) <= fuel ->
  exists t' hx, cloneNode fuel (root t) h = (Ret (root t'), h ++ hx)
                /\ cloned h t t' hx.
Proof.
  induction t as [l ty a mk tx|l ty a mk tx lc ts IH] using LTree_ind;
    intros fuel h Hs Hd; rewrite depth_unfold in Hd;
    (destruct fuel as [|fuel]; [lia|]);
    rewrite cloneNode_S;
    rewrite (bind_run _ _ _ _ _ (loadNode_stored h _ Hs));
    cbn [objOf o_marks o_content o_type o_attrs o_text];
    pose proof Hs as Hs0; apply stored_unfold in Hs as (Hl & Hmk & Hct);
    destruct (cloneMarks_spec h mk Hmk) as (mk' & hm & Hcm & Hmk' & Hhm);
    rewrite (bind_run _ _ _ _ _ Hcm).
  - (* no content *)
    exists (LT (length (h ++ hm)) ty a mk' tx None),
                  (hm ++ [ONode (mkObj ty a (fst <$> mk') tx None)]).
    split; [cbv [bind cloneContent ret alloc]; simpl; by rewrite <- app_assoc|].
    unfold cloned.
    split; [simpl; by rewrite Hmk'|].
    rewrite app_assoc. split; [|split].
    + apply stored_unfold. split; [apply lookup_snoc|]. split; [|done].
      destruct mk' as [[lm' ms]|]; [|done]. destruct Hhm as [-> ->].
      rewrite lookup_app_l by (rewrite length_app; simpl; lia).
      apply lookup_snoc.
    + simpl. rewrite app_nil_r. destruct mk' as [[lm' ms]|]; simpl.
      * destruct Hhm as [-> ->]. rewrite length_app. simpl.
        apply list.NoDup_cons. split; [|apply NoDup_singleton].
        rewrite list_elem_of_singleton. lia.
      * apply NoDup_singleton.
    + intros x. rewrite elem_of_locs, length_app.
      intros [->|[(ms & ->)|(? & ? & ? & _)]]; [lia | | done].
      by destruct Hhm as [-> _].
  - (* with content *)
    destruct Hct as [Hlc Hts]. cbn [erase contentOf content] in Hd.
    cbn [fmap option_fmap option_map fst cloneContent].
    assert (Hlc' : (h ++ hm) !! lc = Some (ONodes (map root ts))).
    { rewrite lookup_app_l; [done | by eapply lookup_lt_Some]. }
    rewrite bind_assoc.
    rewrite (bind_run _ _ _ _ _ (loadNodes_run _ _ _ Hlc')).
    destruct (traverse_clone fuel ts) with (h := h ++ hm)
      as (ts' & hx & Hrun & He & Hs' & Hnd & Hfresh).
    { eapply Forall_impl; [|exact IH]. intros t Ht h' Hst Hdt.
      by apply Ht. }
    { eapply Forall_impl; [|exact Hts]. intros ? ?. by apply stored_ext. }
    { lia. }
    rewrite bind_assoc, (bind_run _ _ _ _ _ Hrun).
    rewrite bind_assoc, (bind_run _ _ _ _ _ (alloc_run _ _)).
    rewrite bind_ret.
    set (h2 := (h ++ hm) ++ hx) in *.
    set (lc' := length h2).
    exists (LT (S lc') ty a mk' tx (Some (lc', ts'))),
           (hm ++ hx ++ [ONodes (map root ts');
                         ONode (mkObj ty a (fst <$> mk') tx (Some lc'))]).
    assert (Hfinal : h ++ hm ++ hx ++
                     [ONodes (map root ts');
                      ONode (mkObj ty a (fst <$> mk') tx (Some lc'))]
                     = (h2 ++ [ONodes (map root ts')])
                       ++ [ONode (mkObj ty a (fst <$> mk') tx (Some lc'))]).
    { subst h2. by rewrite <- !app_assoc. }
    unfold cloned. rewrite Hfinal.
    assert (Hlen2 : length (h2 ++ [ONodes (map root ts')]) = S lc').
    { rewrite length_app. simpl. lia. }
    assert (Hh2 : length h + length hm <= lc').
    { subst lc' h2. rewrite !length_app. lia. }
    split; [by rewrite alloc_run, Hlen2|].
    assert (Hold : forall x, x ∈ concat (map locs ts') ->
              length h + length hm <= x /\ x < lc').
    { intros x Hx. split.
      - apply Hfresh in Hx. by rewrite length_app in Hx.
      - by apply (Forall_stored_lt _ _ _ Hs'). }
    split; [|split; [|split]].
    + simpl. by rewrite He, Hmk'.
    + apply stored_unfold. split; [|split; [|split]].
      * rewrite <- Hlen2. apply lookup_snoc.
      * destruct mk' as [[lm' ms]|]; [|done]. destruct Hhm as [-> ->].
        subst h2. rewrite <- !app_assoc. simpl.
        by rewrite list_lookup_middle.
      * rewrite lookup_app_l by lia. apply lookup_snoc.
      * eapply Forall_impl; [|exact Hs']. intros t Ht.
        rewrite <- app_assoc. by apply stored_ext.
    + assert (Hm : forall x,
                x ∈ match mk' with Some (lm, _) => [lm] | None => [] end ->
                x = length h /\ length hm = 1).
      { intros x Hx. destruct mk' as [[lm' ms]|]; [|by apply elem_of_nil in Hx].
        apply list_elem_of_singleton in Hx. by destruct Hhm as [-> ->]. }
      simpl. apply list.NoDup_cons. split.
      * rewrite elem_of_app, elem_of_cons. intros [Hx|[Hx|Hx]].
        -- apply Hm in Hx. lia.
        -- lia.
        -- apply Hold in Hx. lia.
      * apply list.NoDup_app. split; [|split].
        -- destruct mk' as [[lm' ms]|]; [apply NoDup_singleton|constructor].
        -- intros x Hx. apply Hm in Hx. rewrite elem_of_cons.
           intros [->|Hx2]; [lia|]. apply Hold in Hx2. lia.
        -- apply list.NoDup_cons. split; [|done].
           intros Hx. apply Hold in Hx. lia.
    + intros x. rewrite elem_of_locs.
      intros [->|[(ms & ->)|(? & ? & [= <- <-] & [->|Hx])]]; [lia | | lia |].
      * destruct Hhm as [-> _]. lia.
      * apply Hold in Hx. lia.
Qed.

(** *** Updating trees in place *)

Lemma updated_refl h t : stored h t -> NoDup (locs t) -> updated h t h t.
Proof. intros Hs Hn. repeat split; auto. Qed.

Lemma NoDup_forest_cons t ts :
  NoDup (concat (map locs (t :: ts))) <->
  NoDup (locs t) /\
  (forall x, x ∈ locs t -> x ∉ concat (map locs ts)) /\
  NoDup (concat (map locs ts)).
Proof. simpl. apply list.NoDup_app. Qed.

(** The loop of [forEachWithContent], when its callback updates the visited
    tree in place and computes [f] on it, the accumulator following [g]. *)
Lemma forEachNodes_spec {St} ty (cb : loc -> St -> M St)
    (f : ADFNode -> ADFNode) (g : ADFNode -> St -> St) ts :
  (forall t h s,
     t ∈ ts -> stored h t -> NoDup (locs t) ->
     withContent ty (erase t) = true ->
     exists h' t',
       cb (root t) s h = (Ret (g (erase t) s), h') /\
       erase t' = f (erase t) /\ updated h t h' t') ->
  forall h s,
    Forall (stored h) ts -> NoDup (concat (map locs ts)) ->
    exists h' ts',
      forEachNodes (map root ts) ty cb s h
      = (Ret (fold_left (fun s n => if withContent ty n then g n s else s)
                        (map erase ts) s), h')
      /\ map erase ts' = updateWithContent ty f (map erase ts)
      /\ map root ts' = map root ts
      /\ Forall (stored h') ts'
      /\ NoDup (concat (map locs ts'))
      /\ (forall x, x ∈ concat (map locs ts') ->
                    x ∈ concat (map locs ts) \/ length h <= x)
      /\ upd (concat (map locs ts)) h h'.
Proof.
  induction ts as [|t ts IH]; intros Hcb h s Hs Hnd.
  - exists h, []. simpl. repeat split; auto; constructor.
  - inversion Hs as [|? ? Hst Hsts]; subst.
    apply NoDup_forest_cons in Hnd as (Hnt & Hdisj & Hnts).
    assert (Hold : forall x, x ∈ concat (map locs ts) -> x < length h).
    { intros x. by apply Forall_stored_lt. }
    cbn [map forEachNodes].
    rewrite (bind_run _ _ _ _ _ (loadNode_stored h t Hst)).
    rewrite objOf_type, objOf_content_is_Some.
    change (streq (type (erase t)) ty && hasContent (erase t))
      with (withContent ty (erase t)).
    cbn [fold_left]. unfold updateWithContent. cbn [map].
    change (isType (erase t) ty && hasContent (erase t))
      with (withContent ty (erase t)).
    destruct (withContent ty (erase t)) eqn:Hv.
    + destruct (Hcb t h s ltac:(left) Hst Hnt Hv)
        as (h1 & t1 & Hrun & He & Hr1 & Hs1 & Hn1 & Hl1 & Hu1).
      rewrite (bind_run _ _ _ _ _ Hrun).
      destruct (IH (fun t' h' s' Ht' => Hcb t' h' s' ltac:(by right))
                   h1 (g (erase t) s))
        as (h2 & ts' & Hrun2 & He2 & Hr2 & Hs2 & Hn2 & Hl2 & Hu2).
      { apply (Forall_stored_upd (locs t) h); auto.
        intros x Hx Hx'. by apply (Hdisj x). }
      { done. }
      exists h2, (t1 :: ts'). rewrite Hrun2.
      assert (Hfresh1 : forall x, x ∈ locs t1 -> x ∉ concat (map locs ts)).
      { intros x Hx Hx'. destruct (Hl1 x Hx) as [Hx1|Hx1].
        - by apply (Hdisj x).
        - apply Hold in Hx'. lia. }
      split; [done|]. split; [cbn [map]; by rewrite He, He2|].
      split; [cbn [map]; by rewrite Hr1, Hr2|].
      split; [constructor; [|done]; by apply (stored_upd _ h1 h2 t1 Hs1 Hu2)|].
      split; [|split].
      * apply NoDup_forest_cons. repeat split; auto.
        intros x Hx Hx'. destruct (Hl2 x Hx') as [Hx2|Hx2].
        -- by apply (Hfresh1 x).
        -- apply (stored_lt _ _ _ Hs1) in Hx. lia.
      * intros x. cbn [map concat]. rewrite !elem_of_app.
        intros [Hx|Hx].
        -- destruct (Hl1 x Hx); auto.
        -- destruct (Hl2 x Hx); auto. right. destruct Hu1. lia.
      * cbn [map concat]. eapply upd_trans; [exact Hu1 | exact Hu2 | |].
        -- intros x Hx. apply elem_of_app. by left.
        -- intros x Hx _. apply elem_of_app. by right.
    + destruct (IH (fun t' h' s' Ht' => Hcb t' h' s' ltac:(by right)) h s)
        as (h2 & ts' & Hrun2 & He2 & Hr2 & Hs2 & Hn2 & Hl2 & Hu2); auto.
      exists h2, (t :: ts'). rewrite Hrun2.
      split; [done|]. split; [cbn [map]; by rewrite He2|].
      split; [cbn [map]; by rewrite Hr2|].
      split; [constructor; [|done]; apply (stored_upd _ h h2 t Hst Hu2);
              intros x Hx Hx'; by apply (Hdisj x)|].
      split; [|split].
      * apply NoDup_forest_cons. repeat split; auto.
        intros x Hx Hx'. destruct (Hl2 x Hx') as [Hx2|Hx2].
        -- by apply (Hdisj x).
        -- apply (stored_lt _ _ _ Hst) in Hx. lia.
      * intros x. cbn [map concat]. rewrite !elem_of_app.
        intros [Hx|Hx]; auto. destruct (Hl2 x Hx); auto.
      * cbn [map concat]. eapply upd_mono; [exact Hu2|].
        intros x Hx. apply elem_of_app. by right.
Qed.

(** *** The title nodes and their links *)

Lemma objIncludesSep_stored t : objIncludesSep (objOf t) = textIncludesSep (erase t).
Proof. by destruct t. Qed.

Lemma findTitleNodes_stored h ts passedId :
  Forall (stored h) ts ->
  findTitleNodes (map root ts) passedId h
  = (Ret (map root (pick (titleMask (map erase ts) passedId) ts)), h).
Proof.
  intros Hs. revert passedId.
  induction Hs as [|t ts Ht Hts IH]; intros passedId; [done|].
  cbn [map findTitleNodes titleMask].
  rewrite (bind_run _ _ _ _ _ (isTextWithMark_stored h t _ Ht)).
  destruct (isType (erase t) (js "text") && hasMarkType (erase t) (js "code")).
  - by rewrite IH.
  - rewrite (bind_run _ _ _ _ _ (loadNode_stored h t Ht)).
    rewrite objOf_type, objIncludesSep_stored.
    change (streq (type (erase t)) (js "text"))
      with (isType (erase t) (js "text")).
    destruct (isType (erase t) (js "text") && textIncludesSep (erase t));
      [done|].
    destruct (passedId && isType (erase t) (js "text")).
    + by rewrite (bind_run _ _ _ _ _ (IH passedId)).
    + by rewrite IH.
Qed.

Lemma not_elem_of_locs_forest x t ts :
  t ∈ ts -> x ∉ concat (map locs ts) -> x ∉ locs t.
Proof. intros Ht Hx Hx'. apply Hx, elem_of_locs_forest. eauto. Qed.

(** [addLinkToNode] on a stored tree. *)
Lemma addLinkToNode_spec url t h :
  stored h t -> NoDup (locs t) ->
  exists h' t',
    Heap.addLinkToNode url (root t) h = (Ret tt, h') /\
    erase t' = addLinkToNode url (erase t) /\ updated h t h' t'.
Proof.
  intros Hs Hnd. unfold Heap.addLinkToNode.
  rewrite (bind_run _ _ _ _ _ (loadNode_stored h t Hs)).
  rewrite objOf_type. unfold addLinkToNode.
  change (streq (type (erase t)) (js "text"))
    with (isType (erase t) (js "text")).
  destruct (isType (erase t) (js "text")) eqn:Hty; cbn [negb].
  2:{ exists h, t. split; [done|]. split; [done|]. by apply updated_refl. }
  destruct t as [l ty a mk tx ct]. pose proof Hs as Hs0.
  apply stored_unfold in Hs as (Hl & Hmk & Hct).
  cbn [objOf o_marks o_type o_attrs o_text o_content erase marks root].
  assert (Hll : l < length h) by (by eapply lookup_lt_Some).
  destruct mk as [[lm ms]|]; cbn [fmap option_fmap option_map fst snd].
  - (* the node has a marks array *)
    rewrite bind_ret, (bind_run _ _ _ _ _ (loadMarks_run _ _ _ Hmk)).
    destruct (existsb isLinkMark ms).
    + exists h, (LT l ty a (Some (lm, ms)) tx ct).
      split; [done|]. split; [done|]. by apply updated_refl.
    + assert (Hlm : lm < length h) by (by eapply lookup_lt_Some).
      rewrite (store_run _ _ _ Hlm).
      exists (<[lm := OMarks (ms ++ [linkMark url])]> h),
             (LT l ty a (Some (lm, ms ++ [linkMark url])) tx ct).
      split; [done|]. split; [done|].
      assert (Hne : lm <> l).
      { intros ->. simpl in Hnd. apply list.NoDup_cons in Hnd as [Hnd _].
        apply Hnd. by left. }
      split; [done|]. split; [|split; [done|split]].
      * apply stored_unfold. split; [|split].
        -- by rewrite list_lookup_insert_ne.
        -- by rewrite list_lookup_insert_eq.
        -- destruct ct as [[lc ts]|]; [|done]. destruct Hct as [Hlc Hts].
           simpl in Hnd. apply list.NoDup_cons in Hnd as [_ Hnd].
           apply list.NoDup_cons in Hnd as [Hlm' _].
           rewrite not_elem_of_cons in Hlm'. destruct Hlm' as [Hlc' Hts'].
           split; [by rewrite list_lookup_insert_ne|].
           apply (Forall_stored_upd [lm] h); auto.
           ++ apply upd_insert. by left.
           ++ intros x Hx Hx'. apply list_elem_of_singleton in Hx' as ->. done.
      * intros x Hx. left. exact Hx.
      * apply upd_insert. apply elem_of_locs. eauto.
  - (* no marks array yet *)
    rewrite bind_assoc, (bind_run _ _ _ _ _ (alloc_run _ _)).
    assert (Hl1 : l < length (h ++ [OMarks []])).
    { rewrite length_app. lia. }
    rewrite bind_assoc, (bind_run _ _ _ _ _ (store_run _ _ _ Hl1)).
    rewrite bind_ret.
    set (o' := ONode (mkObj ty a (Some (length h)) tx (fst <$> ct))).
    set (h2 := <[l := o']> (h ++ [OMarks []])).
    assert (Hm2 : h2 !! length h = Some (OMarks [])).
    { subst h2. rewrite list_lookup_insert_ne by lia. apply lookup_snoc. }
    rewrite (bind_run _ _ _ _ _ (loadMarks_run _ _ _ Hm2)).
    cbn [existsb app].
    assert (Hlm2 : length h < length h2).
    { subst h2. rewrite length_insert, length_app. simpl. lia. }
    rewrite (store_run _ _ _ Hlm2).
    set (h3 := <[length h := OMarks [linkMark url]]> h2).
    exists h3, (LT l ty a (Some (length h, [linkMark url])) tx ct).
    split; [done|]. split; [done|].
    assert (Hup : upd [l] h h3).
    { split.
      - subst h3 h2. rewrite !length_insert, length_app. lia.
      - intros x Hx Hxl. rewrite not_elem_of_cons in Hxl.
        subst h3 h2. rewrite !list_lookup_insert_ne by (lia || naive_solver).
        by rewrite lookup_app_l. }
    split; [done|]. split; [|split; [|split]].
    + apply stored_unfold. split; [|split].
      * subst h3 h2. rewrite list_lookup_insert_ne by lia.
        by rewrite list_lookup_insert_eq.
      * subst h3. by rewrite list_lookup_insert_eq.
      * destruct ct as [[lc ts]|]; [|done]. destruct Hct as [Hlc Hts].
        simpl in Hnd. apply list.NoDup_cons in Hnd as [Hnl _].
        rewrite not_elem_of_cons in Hnl. destruct Hnl as [Hlc' Hts'].
        split.
        -- destruct Hup as [_ Hup]. rewrite Hup; [done | |].
           ++ by eapply lookup_lt_Some.
           ++ rewrite not_elem_of_cons. split; [done | apply not_elem_of_nil].
        -- apply (Forall_stored_upd [l] h); auto.
           intros x Hx Hx'. apply list_elem_of_singleton in Hx' as ->. done.
    + assert (Hlt : forall x, x ∈ locs (LT l ty a None tx ct) -> x < length h).
      { intros x. by apply stored_lt. }
      cbn [locs app] in Hnd, Hlt |- *.
      apply list.NoDup_cons in Hnd as [Hnl Hnd].
      apply list.NoDup_cons. split.
      * rewrite elem_of_cons. intros [?|Hx]; [lia | done].
      * apply list.NoDup_cons. split; [|done].
        intros Hx. specialize (Hlt (length h) ltac:(by right)). lia.
    + intros x. rewrite !elem_of_locs.
      intros [->|[(ms & [= -> _])|Hx]]; [by left; left | right; lia |].
      left. by right; right.
    + eapply upd_mono; [exact Hup|]. intros x Hx.
      apply list_elem_of_singleton in Hx as ->.
      apply (root_in_locs (LT l ty a None tx ct)).
Qed.

(** The loop that links the title nodes. *)
Lemma link_titles_spec url ts :
  forall mask h,
    Forall (stored h) ts -> NoDup (concat (map locs ts)) ->
    exists h' ts',
      forM_ (map root (pick mask ts)) (Heap.addLinkToNode url) h = (Ret tt, h')
      /\ map erase ts' = applyMask (addLinkToNode url) mask (map erase ts)
      /\ map root ts' = map root ts
      /\ Forall (stored h') ts'
      /\ NoDup (concat (map locs ts'))
      /\ (forall x, x ∈ concat (map locs ts') ->
                    x ∈ concat (map locs ts) \/ length h <= x)
      /\ upd (concat (map locs ts)) h h'.
Proof.
  induction ts as [|t ts IH]; intros mask h Hs Hnd.
  - exists h, []. simpl. repeat split; auto; constructor.
  - inversion Hs as [|? ? Hst Hsts]; subst.
    apply NoDup_forest_cons in Hnd as (Hnt & Hdisj & Hnts).
    assert (Hold : forall x, x ∈ concat (map locs ts) -> x < length h).
    { intros x. by apply Forall_stored_lt. }
    destruct mask as [|b mask].
    { exists h, (t :: ts). cbn [pick map forM_ applyMask].
      split; [done|]. split; [done|]. split; [done|]. split; [done|].
      split; [by apply NoDup_forest_cons|]. split; [auto | apply upd_refl]. }
    cbn [pick map applyMask]. destruct b.
    + destruct (addLinkToNode_spec url t h Hst Hnt)
        as (h1 & t1 & Hrun & He & Hr1 & Hs1 & Hn1 & Hl1 & Hu1).
      cbn [map forM_]. rewrite (bind_run _ _ _ _ _ Hrun).
      destruct (IH mask h1)
        as (h2 & ts' & Hrun2 & He2 & Hr2 & Hs2 & Hn2 & Hl2 & Hu2).
      { apply (Forall_stored_upd (locs t) h); auto.
        intros x Hx Hx'. by apply (Hdisj x). }
      { done. }
      exists h2, (t1 :: ts'). rewrite Hrun2.
      assert (Hfresh1 : forall x, x ∈ locs t1 -> x ∉ concat (map locs ts)).
      { intros x Hx Hx'. destruct (Hl1 x Hx) as [Hx1|Hx1].
        - by apply (Hdisj x).
        - apply Hold in Hx'. lia. }
      split; [done|]. split; [cbn [map]; by rewrite He, He2|].
      split; [cbn [map]; by rewrite Hr1, Hr2|].
      split; [constructor; [|done]; by apply (stored_upd _ h1 h2 t1 Hs1 Hu2)|].
      split; [|split].
      * apply NoDup_forest_cons. repeat split; auto.
        intros x Hx Hx'. destruct (Hl2 x Hx') as [Hx2|Hx2].
        -- by apply (Hfresh1 x).
        -- apply (stored_lt _ _ _ Hs1) in Hx. lia.
      * intros x. cbn [map concat]. rewrite !elem_of_app.
        intros [Hx|Hx].
        -- destruct (Hl1 x Hx); auto.
        -- destruct (Hl2 x Hx); auto. right. destruct Hu1. lia.
      * cbn [map concat]. eapply upd_trans; [exact Hu1 | exact Hu2 | |].
        -- intros x Hx. apply elem_of_app. by left.
        -- intros x Hx _. apply elem_of_app. by right.
    + destruct (IH mask h)
        as (h2 & ts' & Hrun2 & He2 & Hr2 & Hs2 & Hn2 & Hl2 & Hu2); auto.
      exists h2, (t :: ts'). rewrite Hrun2.
      split; [done|]. split; [cbn [map]; by rewrite He2|].
      split; [cbn [map]; by rewrite Hr2|].
      split; [constructor; [|done]; apply (stored_upd _ h h2 t Hst Hu2);
              intros x Hx Hx'; by apply (Hdisj x)|].
      split; [|split].
      * apply NoDup_forest_cons. repeat split; auto.
        intros x Hx Hx'. destruct (Hl2 x Hx') as [Hx2|Hx2].
        -- by apply (Hdisj x).
        -- apply (stored_lt _ _ _ Hst) in Hx. lia.
      * intros x. cbn [map concat]. rewrite !elem_of_app.
        intros [Hx|Hx]; auto. destruct (Hl2 x Hx); auto.
      * cbn [map concat]. eapply upd_mono; [exact Hu2|].
        intros x Hx. apply elem_of_app. by right.
Qed.

(** *** Arrays of trees *)

Lemma updatedArr_trans h arr ts h1 ts1 h2 ts2 :
  Forall (stored h) ts -> h !! arr = Some (ONodes (map root ts)) ->
  updatedArr h arr ts h1 ts1 -> updatedArr h1 arr ts1 h2 ts2 ->
  updatedArr h arr ts h2 ts2.
Proof.
  intros Hs Harr (Ha1 & Hs1 & Hn1 & Hl1 & Hu1) (Ha2 & Hs2 & Hn2 & Hl2 & Hu2).
  split; [done|]. split; [done|]. split; [done|]. split.
  - intros x Hx. destruct (Hl2 x Hx) as [Hx1|Hx1].
    + by apply Hl1.
    + right. destruct Hu1. lia.
  - eapply upd_trans; [exact Hu1 | exact Hu2 | done |].
    intros x Hx Hlt. destruct (Hl1 x Hx); [done | lia].
Qed.

(** When the trees of an array are updated at their roots, the array holds
    the updated trees. *)
Lemma forest_updatedArr h arr ts h' ts' :
  h !! arr = Some (ONodes (map root ts)) ->
  Forall (stored h) ts ->
  NoDup (arr :: concat (map locs ts)) ->
  map root ts' = map root ts ->
  Forall (stored h') ts' ->
  NoDup (concat (map locs ts')) ->
  (forall x, x ∈ concat (map locs ts') ->
             x ∈ concat (map locs ts) \/ length h <= x) ->
  upd (concat (map locs ts)) h h' ->
  updatedArr h arr ts h' ts'.
Proof.
  intros Harr Hs Hnd Hr Hs' Hnd' Hl Hu.
  apply list.NoDup_cons in Hnd as [Harr' Hnd].
  assert (Hlt : arr < length h) by (by eapply lookup_lt_Some).
  split; [|split; [done|split; [|split]]].
  - rewrite Hr. destruct Hu as [_ Hu]. by rewrite Hu.
  - apply list.NoDup_cons. split; [|done].
    intros Hx. destruct (Hl _ Hx); [done | lia].
  - intros x. rewrite !elem_of_cons. intros [->|Hx]; [by left; left|].
    destruct (Hl x Hx); auto.
  - eapply upd_mono; [exact Hu|]. intros x Hx. by right.
Qed.

(** A node whose content array is updated in place is updated in place. *)
Lemma updated_parent h h' l ty a mk tx lc ts ts' :
  stored h (LT l ty a mk tx (Some (lc, ts))) ->
  NoDup (locs (LT l ty a mk tx (Some (lc, ts)))) ->
  updatedArr h lc ts h' ts' ->
  updated h (LT l ty a mk tx (Some (lc, ts)))
          h' (LT l ty a mk tx (Some (lc, ts'))).
Proof.
  intros Hs Hnd (Ha & Hs' & Hn' & Hl & Hu).
  assert (Hlt : forall x, x ∈ locs (LT l ty a mk tx (Some (lc, ts))) ->
                          x < length h).
  { intros x. by apply stored_lt. }
  apply stored_unfold in Hs as (Hroot & Hmk & Hlc & Hts).
  cbn [locs] in Hnd, Hlt.
  apply list.NoDup_cons in Hnd as [Hnl Hnd].
  apply list.NoDup_app in Hnd as (Hnm & Hdisj & Hnc).
  rewrite elem_of_app in Hnl.
  assert (Hkeep : forall x,
            x = l \/ x ∈ match mk with Some (lm, _) => [lm] | None => [] end ->
            h' !! x = h !! x /\ x < length h /\
            x ∉ lc :: concat (map locs ts')).
  { intros x Hx.
    assert (x ∉ lc :: concat (map locs ts)) as Hout.
    { destruct Hx as [->|Hx]; [tauto | by apply Hdisj]. }
    assert (x < length h) as Hxl.
    { apply Hlt. destruct Hx as [->|Hx]; [by left|].
      right. apply elem_of_app. by left. }
    split; [|split; [done|]].
    - destruct Hu as [_ Hu]. by apply Hu.
    - intros Hin. destruct (Hl x Hin); [done | lia]. }
  split; [done|]. split; [|split; [|split]].
  - apply stored_unfold. split; [|split; [|done]].
    + destruct (Hkeep l ltac:(by left)) as [-> _]. done.
    + destruct mk as [[lm ms]|]; [|done].
      destruct (Hkeep lm ltac:(right; by left)) as [-> _]. done.
  - cbn [locs]. apply list.NoDup_cons. split.
    + rewrite elem_of_app. intros [Hx|Hx]; [tauto|].
      by destruct (Hkeep l ltac:(by left)) as (_ & _ & ?).
    + apply list.NoDup_app. split; [done|]. split; [|done].
      intros x Hx. by destruct (Hkeep x ltac:(by right)) as (_ & _ & ?).
  - intros x. cbn [locs]. rewrite !elem_of_cons, !elem_of_app.
    intros [->|[Hx|Hx]]; [by left; left | by left; right; left |].
    destruct (Hl x Hx); auto.
  - eapply upd_mono; [exact Hu|]. intros x Hx. cbn [locs].
    right. apply elem_of_app. by right.
Qed.

(** *** The timestamp *)

Lemma findIndexEm_stored h ts :
  Forall (stored h) ts ->
  findIndexEm (map root ts) h
  = (Ret (match findIndex isEmText (map erase ts) with
          | Some i => root <$> ts !! i
          | None => None
          end), h).
Proof.
  induction 1 as [|t ts Ht Hts IH]; [done|].
  cbn [map findIndexEm findIndex].
  rewrite (bind_run _ _ _ _ _ (isTextWithMark_stored h t _ Ht)).
  change (isType (erase t) (js "text") && hasMarkType (erase t) (js "em"))
    with (isEmText (erase t)).
  destruct (isEmText (erase t)); [done|]. rewrite IH.
  by destruct (findIndex isEmText (map erase ts)).
Qed.

Lemma NoDup_forest_app ts1 ts2 :
  NoDup (concat (map locs (ts1 ++ ts2))) <->
  NoDup (concat (map locs ts1)) /\
  (forall x, x ∈ concat (map locs ts1) -> x ∉ concat (map locs ts2)) /\
  NoDup (concat (map locs ts2)).
Proof. rewrite map_app, concat_app. apply list.NoDup_app. Qed.

Lemma appendOrUpdateTimestamp_spec now arr ts h :
  h !! arr = Some (ONodes (map root ts)) ->
  Forall (stored h) ts ->
  NoDup (arr :: concat (map locs ts)) ->
  exists h' ts',
    Heap.appendOrUpdateTimestamp now arr h = (Ret tt, h') /\
    map erase ts' = appendOrUpdateTimestamp now (map erase ts) /\
    updatedArr h arr ts h' ts'.
Proof.
  intros Harr Hs Hnd. unfold Heap.appendOrUpdateTimestamp.
  rewrite (bind_run _ _ _ _ _ (loadNodes_run _ _ _ Harr)).
  rewrite (bind_run _ _ _ _ _ (findIndexEm_stored h ts Hs)).
  unfold appendOrUpdateTimestamp.
  assert (Harrlt : arr < length h) by (by eapply lookup_lt_Some).
  pose proof Hnd as Hnd0.
  apply list.NoDup_cons in Hnd as [Harr' Hnd].
  destruct (findIndex isEmText (map erase ts)) as [i|] eqn:Hf.
  - (* an emphasis-marked text node exists: its text is overwritten *)
    apply findIndex_some in Hf as (n & Hn & Hem & _).
    rewrite list_lookup_fmap in Hn.
    destruct (ts !! i) as [t|] eqn:Hi; [|done]. injection Hn as <-.
    cbn [fmap option_fmap option_map].
    apply list_elem_of_split_length in Hi as (pre & post & -> & Hlen).
    apply Forall_app in Hs as [Hpre Hs]. inversion Hs as [|? ? Ht Hpost]; subst.
    rewrite (bind_run _ _ _ _ _ (loadNode_stored h t Ht)).
    rewrite objOf_type.
    assert (Hty : isType (erase t) (js "text") = true).
    { unfold isEmText in Hem. by apply andb_true_iff in Hem as [? _]. }
    change (streq (type (erase t)) (js "text"))
      with (isType (erase t) (js "text")). rewrite Hty.
    assert (Hrt : root t < length h).
    { eapply stored_lt; [exact Ht | apply root_in_locs]. }
    rewrite (store_run _ _ _ Hrt).
    destruct t as [l ty a mk tx ct].
    cbn [objOf o_type o_attrs o_marks o_text o_content root] in *.
    set (t' := LT l ty a mk (Some (stampText now)) ct).
    set (h' := <[l := ONode (mkObj ty a (fst <$> mk)
                                   (Some (stampText now)) (fst <$> ct))]> h).
    exists h', (pre ++ t' :: post).
    split; [done|].
    apply NoDup_forest_app in Hnd as (Hnpre & Hdisj & Hnd).
    apply NoDup_forest_cons in Hnd as (Hnt & Hdisj2 & Hnpost).
    assert (Hup : upd [l] h h').
    { apply upd_insert. by left. }
    assert (Hlt : l ∈ locs (LT l ty a mk tx ct))
      by apply (root_in_locs (LT l ty a mk tx ct)).
    assert (Hin : l ∈ concat (map locs (pre ++ LT l ty a mk tx ct :: post))).
    { apply elem_of_locs_forest. eexists. split; [|exact Hlt].
      apply elem_of_app. right. by left. }
    split; [|split; [|split; [|split; [|split]]]].
    + rewrite !map_app. cbn [map].
      rewrite alter_app_r_alt by (rewrite length_map; lia).
      rewrite length_map, Nat.sub_diag. cbn [alter list_alter].
      by rewrite Hty.
    + subst h'. rewrite list_lookup_insert_ne by (intros ->; done).
      rewrite Harr. by rewrite !map_app.
    + apply Forall_app. split; [|constructor].
      * apply (Forall_stored_upd [l] h); auto.
        intros x Hx Hx'. apply list_elem_of_singleton in Hx' as ->.
        apply (Hdisj l Hx). apply elem_of_locs_forest. eexists.
        split; [by left | exact Hlt].
      * apply stored_unfold in Ht as (Hl & Hmk & Hct).
        cbn [locs] in Hnt. apply list.NoDup_cons in Hnt as [Hnl Hnt].
        rewrite elem_of_app in Hnl.
        apply stored_unfold. split; [|split].
        -- subst h'. by rewrite list_lookup_insert_eq.
        -- destruct mk as [[lm ms]|]; [|done]. subst h'.
           rewrite list_lookup_insert_ne; [done|].
           intros ->. apply Hnl. left. by left.
        -- destruct ct as [[lc cs]|]; [|done]. destruct Hct as [Hlc Hcs].
           split.
           ++ subst h'. rewrite list_lookup_insert_ne; [done|].
              intros ->. apply Hnl. right. by left.
           ++ apply (Forall_stored_upd [l] h); auto.
              intros x Hx Hx'. apply list_elem_of_singleton in Hx' as ->.
              apply Hnl. right. by right.
      * apply (Forall_stored_upd [l] h); auto.
        intros x Hx Hx'. apply list_elem_of_singleton in Hx' as ->.
        by apply (Hdisj2 l Hlt).
    + assert (map locs (pre ++ t' :: post)
              = map locs (pre ++ LT l ty a mk tx ct :: post)) as ->
        by (by rewrite !map_app).
      exact Hnd0.
    + assert (map locs (pre ++ t' :: post)
              = map locs (pre ++ LT l ty a mk tx ct :: post)) as ->
        by (by rewrite !map_app).
      intros x Hx. by left.
    + eapply upd_mono; [exact Hup|]. intros x Hx.
      apply list_elem_of_singleton in Hx as ->. by right.
  - (* none: a space and the timestamp are appended *)
    set (space := ONode (mkObj (js "text") None None (Some (js " ")) None)).
    rewrite (bind_run _ _ _ _ _ (alloc_run _ _)).
    set (n := length h).
    set (h1 := h ++ [space]).
    assert (Harr1 : h1 !! arr = Some (ONodes (map root ts))).
    { subst h1. by rewrite lookup_app_l. }
    assert (Hlen1 : length h1 = S n).
    { subst h1 n. rewrite length_app. simpl. lia. }
    unfold push at 1.
    rewrite bind_assoc, (bind_run _ _ _ _ _ (loadNodes_run _ _ _ Harr1)).
    rewrite (bind_run _ _ _ _ _ (store_run h1 arr _ ltac:(lia))).
    set (h2 := <[arr := ONodes (map root ts ++ [n])]> h1).
    assert (Hlen2 : length h2 = S n).
    { subst h2. by rewrite length_insert. }
    rewrite (bind_run _ _ _ _ _ (alloc_run _ _)). rewrite Hlen2.
    set (h3 := h2 ++ [OMarks [mark (js "em")]]).
    rewrite (bind_run _ _ _ _ _ (alloc_run _ _)).
    assert (Hlen3 : length h3 = S (S n)).
    { subst h3. rewrite length_app. simpl. lia. }
    rewrite Hlen3.
    set (stamp := ONode (mkObj (js "text") None (Some (S n))
                               (Some (stampText now)) None)).
    set (h4 := h3 ++ [stamp]).
    assert (Hlen4 : length h4 = S (S (S n))).
    { subst h4. rewrite length_app. simpl. lia. }
    assert (Harr4 : h4 !! arr = Some (ONodes (map root ts ++ [n]))).
    { subst h4 h3. rewrite !lookup_app_l by lia.
      subst h2. apply list_lookup_insert_eq. lia. }
    unfold push.
    rewrite (bind_run _ _ _ _ _ (loadNodes_run _ _ _ Harr4)).
    rewrite (store_run h4 arr _ ltac:(lia)).
    set (h5 := <[arr := ONodes ((map root ts ++ [n]) ++ [S (S n)])]> h4).
    set (tspace := LT n (js "text") None None (Some (js " ")) None).
    set (tstamp := LT (S (S n)) (js "text") None
                      (Some (S n, [mark (js "em")]))
                      (Some (stampText now)) None).
    exists h5, (ts ++ [tspace; tstamp]).
    split; [done|].
    assert (Hold : forall x, x < n -> x <> arr -> h5 !! x = h !! x).
    { intros x Hx Hne. subst h5 h4 h3 h2 h1.
      rewrite list_lookup_insert_ne by done.
      rewrite !lookup_app_l by (rewrite ?length_app, ?length_insert; simpl; lia).
      rewrite list_lookup_insert_ne by done.
      by rewrite lookup_app_l. }
    assert (Hup : upd [arr] h h5).
    { split.
      - subst h5. rewrite length_insert. lia.
      - intros x Hx Hne. apply Hold; [done|].
        intros ->. apply Hne. by left. }
    assert (Hforest : forall x, x ∈ concat (map locs ts) -> x < n).
    { intros x. by apply Forall_stored_lt. }
    split; [|split; [|split; [|split; [|split]]]].
    + rewrite map_app. reflexivity.
    + subst h5. rewrite list_lookup_insert_eq by lia.
      rewrite map_app, <- app_assoc. reflexivity.
    + apply Forall_app. split.
      * apply (Forall_stored_upd [arr] h); auto.
        intros x Hx Hx'. by apply list_elem_of_singleton in Hx' as ->.
      * assert (Hnew : h5 !! n = Some space /\
                       h5 !! S n = Some (OMarks [mark (js "em")]) /\
                       h5 !! S (S n) = Some stamp).
        { subst h5. rewrite !list_lookup_insert_ne by lia.
          subst h4. split; [|split].
          - rewrite lookup_app_l by lia. subst h3.
            rewrite lookup_app_l by lia. subst h2.
            rewrite list_lookup_insert_ne by lia. subst h1 n.
            apply lookup_snoc.
          - rewrite lookup_app_l by lia. subst h3.
            rewrite <- Hlen2. apply lookup_snoc.
          - rewrite <- Hlen3. apply lookup_snoc. }
        destruct Hnew as (Hn0 & Hn1 & Hn2).
        constructor; [|constructor; [|constructor]];
          apply stored_unfold; by repeat split.
    + assert (concat (map locs (ts ++ [tspace; tstamp]))
              = concat (map locs ts) ++ [n; S (S n); S n]) as ->.
      { by rewrite map_app, concat_app. }
      apply list.NoDup_cons. split.
      * rewrite elem_of_app, !elem_of_cons, elem_of_nil.
        intros [Hx|[?|[?|[?|[]]]]]; [done | lia..].
      * apply list.NoDup_app. split; [done|]. split.
        -- intros x Hx. apply Hforest in Hx.
           rewrite !elem_of_cons, elem_of_nil. lia.
        -- repeat (apply list.NoDup_cons; split;
                   [rewrite ?elem_of_cons, ?elem_of_nil; lia|]).
           constructor.
    + assert (concat (map locs (ts ++ [tspace; tstamp]))
              = concat (map locs ts) ++ [n; S (S n); S n]) as ->.
      { by rewrite map_app, concat_app. }
      intros x.
      rewrite !elem_of_cons, elem_of_app, !elem_of_cons, elem_of_nil.
      fold n. intros [->|[Hx|[->|[->|[->|[]]]]]]; auto with lia.
    + eapply upd_mono; [exact Hup|]. intros x Hx.
      apply list_elem_of_singleton in Hx as ->. by left.
Qed.

(** *** Paragraphs, list items, bullet lists *)

Lemma NoDup_content l ty a mk tx lc ts :
  NoDup (locs (LT l ty a mk tx (Some (lc, ts)))) ->
  NoDup (lc :: concat (map locs ts)).
Proof.
  cbn [locs]. intros Hnd. apply list.NoDup_cons in Hnd as [_ Hnd].
  by apply list.NoDup_app in Hnd as (_ & _ & Hnd).
Qed.

Lemma NoDup_children arr ts :
  NoDup (arr :: concat (map locs ts)) -> NoDup (concat (map locs ts)).
Proof. intros Hnd. by apply list.NoDup_cons in Hnd as [_ ?]. Qed.

Lemma markParagraph_spec url now t h :
  stored h t -> NoDup (locs t) ->
  exists h' t',
    Heap.markParagraph url now (root t) h = (Ret tt, h') /\
    erase t' = markParagraph url now (erase t) /\ updated h t h' t'.
Proof.
  intros Hs Hnd. unfold Heap.markParagraph.
  rewrite (bind_run _ _ _ _ _ (loadNode_stored h t Hs)).
  destruct t as [l ty a mk tx [[pc cs]|]];
    cbn [objOf o_content fmap option_fmap option_map fst].
  2:{ exists h, (LT l ty a mk tx None). split; [done|]. split; [done|].
      by apply updated_refl. }
  pose proof Hs as Hs0. apply stored_unfold in Hs as (_ & _ & Hpc & Hcs).
  pose proof (NoDup_content _ _ _ _ _ _ _ Hnd) as Hnc.
  unfold Heap.findTitleParts.
  rewrite bind_assoc, (bind_run _ _ _ _ _ (loadNodes_run _ _ _ Hpc)).
  rewrite (bind_run _ _ _ _ _ (findTitleNodes_stored h cs false Hcs)).
  destruct (link_titles_spec url cs (titleMask (map erase cs) false) h Hcs
              (NoDup_children _ _ Hnc))
    as (h1 & cs1 & Hrun1 & He1 & Hr1 & Hs1 & Hn1 & Hl1 & Hu1).
  rewrite (bind_run _ _ _ _ _ Hrun1).
  pose proof (forest_updatedArr h pc cs h1 cs1 Hpc Hcs Hnc Hr1 Hs1 Hn1 Hl1 Hu1)
    as Harr1.
  pose proof Harr1 as (Hpc1 & _ & Hnc1 & _).
  destruct (appendOrUpdateTimestamp_spec now pc cs1 h1 Hpc1 Hs1 Hnc1)
    as (h2 & cs2 & Hrun2 & He2 & Harr2).
  rewrite Hrun2.
  exists h2, (LT l ty a mk tx (Some (pc, cs2))).
  split; [done|]. split.
  - rewrite (markParagraph_linkTitles url now _ (map erase cs)) by done.
    cbn [erase]. unfold setContent. cbn [type attrs marks text].
    by rewrite He2, He1.
  - apply updated_parent; [done | done |].
    eapply updatedArr_trans; [exact Hcs | exact Hpc | exact Harr1 | exact Harr2].
Qed.

Lemma contentRef_stored h l ty a mk tx lc ts :
  stored h (LT l ty a mk tx (Some (lc, ts))) ->
  contentRef l h = (Ret lc, h).
Proof.
  intros Hs. unfold contentRef.
  by rewrite (bind_run _ _ _ _ _ (loadNode_stored h _ Hs)).
Qed.

Lemma withContent_stored ty t :
  withContent ty (erase t) = true ->
  exists l ty' a mk tx lc ts, t = LT l ty' a mk tx (Some (lc, ts)).
Proof.
  unfold withContent. intros H. apply andb_true_iff in H as [_ H].
  destruct t as [l ty' a mk tx [[lc ts]|]]; [|done]. by eexists _,_,_,_,_,_,_.
Qed.

(** The loop over the content array of a node. *)
Lemma forEachWithContent_spec {St} ty (cb : loc -> St -> M St)
    (f : ADFNode -> ADFNode) (g : ADFNode -> St -> St) h arr ts s :
  (forall t h s,
     t ∈ ts -> stored h t -> NoDup (locs t) ->
     withContent ty (erase t) = true ->
     exists h' t',
       cb (root t) s h = (Ret (g (erase t) s), h') /\
       erase t' = f (erase t) /\ updated h t h' t') ->
  h !! arr = Some (ONodes (map root ts)) ->
  Forall (stored h) ts ->
  NoDup (arr :: concat (map locs ts)) ->
  exists h' ts',
    Heap.forEachWithContent arr ty cb s h
    = (Ret (fold_left (fun s n => if withContent ty n then g n s else s)
                      (map erase ts) s), h')
    /\ map erase ts' = updateWithContent ty f (map erase ts)
    /\ updatedArr h arr ts h' ts'.
Proof.
  intros Hcb Harr Hs Hnd. unfold Heap.forEachWithContent.
  rewrite (bind_run _ _ _ _ _ (loadNodes_run _ _ _ Harr)).
  destruct (forEachNodes_spec ty cb f g ts Hcb h s Hs (NoDup_children _ _ Hnd))
    as (h' & ts' & Hrun & He & Hr & Hs' & Hn' & Hl & Hu).
  exists h', ts'. split; [done|]. split; [done|].
  by apply forest_updatedArr.
Qed.

Lemma markListItem_spec storyId url now t h found :
  stored h t -> NoDup (locs t) ->
  withContent (js "listItem") (erase t) = true ->
  exists h' t',
    Heap.markListItem storyId url now (root t) found h
    = (Ret (if isStory storyId (erase t) then true else found), h') /\
    erase t' = markListItem storyId url now (erase t) /\ updated h t h' t'.
Proof.
  intros Hs Hnd Hv.
  destruct (withContent_stored _ _ Hv) as (l & ty & a & mk & tx & lc & cs & ->).
  unfold Heap.markListItem. cbn [root].
  rewrite (bind_run _ _ _ _ _ (contentRef_stored _ _ _ _ _ _ _ _ Hs)).
  pose proof Hs as Hs0. apply stored_unfold in Hs as (_ & _ & Hlc & Hcs).
  rewrite (bind_run _ _ _ _ _ (extractStoryId_stored h lc cs Hlc Hcs)).
  unfold markListItem, isStory. cbn [erase contentOf content].
  destruct (bool_decide (extractStoryId (map erase cs) = Some storyId)).
  - destruct (forEachWithContent_spec (js "paragraph")
                (fun paragraph (_ : unit) => Heap.markParagraph url now paragraph)
                (markParagraph url now) (fun _ _ => tt) h lc cs tt)
      as (h' & cs' & Hrun & He & Harr); auto.
    { intros t h0 [] _ Hst Hnt _.
      destruct (markParagraph_spec url now t h0 Hst Hnt) as (h' & t' & ? & ? & ?).
      by exists h', t'. }
    { by apply NoDup_content in Hnd. }
    rewrite (bind_run _ _ _ _ _ Hrun).
    exists h', (LT l ty a mk tx (Some (lc, cs'))).
    split; [done|]. split.
    + cbn [erase]. unfold setContent. cbn [type attrs marks text].
      by rewrite He.
    + by apply updated_parent.
  - exists h, (LT l ty a mk tx (Some (lc, cs))).
    split; [done|]. split; [done|]. by apply updated_refl.
Qed.

Lemma markBulletList_spec storyId url now t h found :
  stored h t -> NoDup (locs t) ->
  withContent (js "bulletList") (erase t) = true ->
  exists h' t',
    Heap.markBulletList storyId url now (root t) found h
    = (Ret (foundInList storyId (erase t) found), h') /\
    erase t' = markBulletList storyId url now (erase t) /\ updated h t h' t'.
Proof.
  intros Hs Hnd Hv.
  destruct (withContent_stored _ _ Hv) as (l & ty & a & mk & tx & lc & cs & ->).
  unfold Heap.markBulletList. cbn [root].
  rewrite (bind_run _ _ _ _ _ (contentRef_stored _ _ _ _ _ _ _ _ Hs)).
  pose proof Hs as Hs0. apply stored_unfold in Hs as (_ & _ & Hlc & Hcs).
  destruct (forEachWithContent_spec (js "listItem")
              (Heap.markListItem storyId url now)
              (markListItem storyId url now)
              (fun li s => if isStory storyId li then true else s)
              h lc cs found)
    as (h' & cs' & Hrun & He & Harr); auto.
  { intros t h0 s _ Hst Hnt Hvt. by apply markListItem_spec. }
  { by apply NoDup_content in Hnd. }
  rewrite Hrun.
  exists h', (LT l ty a mk tx (Some (lc, cs'))).
  split; [done|]. split.
  - unfold markBulletList. cbn [erase contentOf content].
    unfold setContent. cbn [type attrs marks text]. by rewrite He.
  - by apply updated_parent.
Qed.

(** The flag is the disjunction that [storyFound] computes. *)
Lemma foundInList_existsb storyId bl found :
  foundInList storyId bl found
  = found || existsb (fun li => isType li (js "listItem") && hasContent li
                                && isStory storyId li) (contentOf bl).
Proof.
  unfold foundInList. revert found.
  induction (contentOf bl) as [|li c IH]; intros found; cbn [fold_left existsb].
  - by rewrite orb_false_r.
  - rewrite IH. unfold withContent.
    destruct (isType li (js "listItem") && hasContent li); cbn [andb orb].
    + destruct (isStory storyId li); cbn [orb]; [|done].
      by rewrite orb_true_r.
    + done.
Qed.

Lemma found_storyFound storyId S found :
  fold_left (fun s n => if withContent (js "bulletList") n
                        then foundInList storyId n s else s) S found
  = found || storyFound storyId S.
Proof.
  revert found. induction S as [|bl S IH]; intros found;
    cbn [fold_left storyFound existsb].
  - by rewrite orb_false_r.
  - rewrite IH. unfold withContent. fold (storyFound storyId S).
    destruct (isType bl (js "bulletList") && hasContent bl); cbn [andb orb].
    + rewrite foundInList_existsb. by rewrite orb_assoc.
    + done.
Qed.

(** *** The whole mutator *)

Lemma structuredClone_spec fuel h arr ts :
  h !! arr = Some (ONodes (map root ts)) -> Forall (stored h) ts ->
  depths (map erase ts) <= fuel ->
  exists arr' ts' hx,
    structuredClone fuel arr h = (Ret arr', h ++ hx) /\
    map erase ts' = map erase ts /\
    (h ++ hx) !! arr' = Some (ONodes (map root ts')) /\
    Forall (stored (h ++ hx)) ts' /\
    NoDup (arr' :: concat (map locs ts')) /\
    (forall x, x ∈ arr' :: concat (map locs ts') -> length h <= x).
Proof.
  intros Harr Hs Hd. unfold structuredClone.
  rewrite (bind_run _ _ _ _ _ (loadNodes_run _ _ _ Harr)).
  destruct (traverse_clone fuel ts) with (h := h)
    as (ts' & hx & Hrun & He & Hs' & Hnd & Hfresh); auto.
  { apply Forall_forall. intros t _ h0 Hst Hdt. by apply cloneNode_spec. }
  rewrite (bind_run _ _ _ _ _ Hrun), alloc_run.
  exists (length (h ++ hx)), ts', (hx ++ [ONodes (map root ts')]).
  rewrite app_assoc.
  split; [done|]. split; [done|]. split; [apply lookup_snoc|].
  split; [|split].
  - eapply Forall_impl; [|exact Hs']. intros t Ht. by apply stored_ext.
  - apply list.NoDup_cons. split; [|done].
    intros Hx. apply (Forall_stored_lt _ _ _ Hs') in Hx. lia.
  - intros x. rewrite elem_of_cons. intros [->|Hx]; [|by apply Hfresh].
    rewrite length_app. lia.
Qed.

(** The heap-level mutator computes the function on trees, writes to new
    objects only, and leaves the input as it was. *)
Lemma mutator_refines fuel now h arr S storyId issueKey issueUrl :
  represents h arr S -> depths S <= fuel ->
  exists out h',
    Heap.addCompletionMarkerToShellStory fuel now arr storyId issueKey issueUrl h
    = (out, h') /\
    length h <= length h' /\
    (forall x, x < length h -> h' !! x = h !! x) /\
    represents h' arr S /\
    match addCompletionMarkerToShellStory now S storyId issueKey issueUrl with
    | Ok S' =>
        exists arr' ts',
          out = Ret arr' /\ holds h' arr' ts' /\ map erase ts' = S' /\
          forall x, x ∈ arr' :: concat (map locs ts') -> length h <= x
    | Throw msg => out = Thrown msg
    end.
Proof.
  intros (ts & (Harr & Hs & Hnd) & <-) Hd.
  destruct (structuredClone_spec fuel h arr ts Harr Hs Hd)
    as (arr1 & ts1 & hx & Hrun1 & He1 & Harr1 & Hs1 & Hnd1 & Hfresh1).
  unfold Heap.addCompletionMarkerToShellStory.
  rewrite (bind_run _ _ _ _ _ Hrun1).
  destruct (forEachWithContent_spec (js "bulletList")
              (Heap.markBulletList storyId issueUrl now)
              (markBulletList storyId issueUrl now)
              (foundInList storyId) (h ++ hx) arr1 ts1 false)
    as (h2 & ts2 & Hrun2 & He2 & Harr2 & Hs2 & Hnd2 & Hl2 & Hu2); auto.
  { intros t h0 s _ Hst Hnt Hvt. by apply markBulletList_spec. }
  rewrite (bind_run _ _ _ _ _ Hrun2).
  rewrite found_storyFound, He1. cbn [orb].
  assert (Hold : forall x, x < length h -> h2 !! x = h !! x).
  { intros x Hx. destruct Hu2 as [_ Hu2]. rewrite Hu2.
    - by apply lookup_app_l.
    - rewrite length_app. lia.
    - intros Hin. apply Hfresh1 in Hin. lia. }
  assert (Hlen : length h <= length h2).
  { destruct Hu2 as [Hu2 _]. rewrite length_app in Hu2. lia. }
  assert (Hrep : represents h2 arr (map erase ts)).
  { exists ts. split; [|done]. split; [|split; [|done]].
    - rewrite Hold; [done | by eapply lookup_lt_Some].
    - eapply Forall_impl; [|exact Hs]. intros t Ht.
      apply (stored_frame h); [done|]. intros x Hx. apply Hold.
      by eapply stored_lt. }
  unfold addCompletionMarkerToShellStory.
  destruct (storyFound storyId (map erase ts)).
  - exists (Ret arr1), h2. repeat split; auto.
    exists arr1, ts2. split; [done|]. split; [by repeat split|].
    split; [by rewrite He2, He1|].
    intros x Hx. destruct (Hl2 x Hx) as [Hx'|Hx'].
    + by apply Hfresh1.
    + rewrite length_app in Hx'. lia.
  - exists (Thrown (msgNotFound storyId)), h2. repeat split; auto.
Qed.

Lemma storyFound_visitedItems storyId S :
  storyFound storyId S = existsb (isStory storyId) (visitedItems S).
Proof.
  unfold visitedItems. induction S as [|bl S IH]; [done|].
  cbn [storyFound existsb List.filter]. fold (storyFound storyId S).
  unfold withContent at 2.
  destruct (isType bl (js "bulletList") && hasContent bl); cbn [andb orb];
    [|done].
  cbn [flat_map]. rewrite existsb_app, <- IH. f_equal.
  induction (contentOf bl) as [|li c IHc]; [done|].
  cbn [existsb List.filter]. unfold withContent at 1.
  destruct (isType li (js "listItem") && hasContent li); cbn [andb orb existsb];
    by rewrite IHc.
Qed.

Lemma storyFound_false storyId S :
  (forall li, li ∈ visitedItems S ->
              extractStoryId (contentOf li) <> Some storyId) ->
  storyFound storyId S = false.
Proof.
  intros H. rewrite storyFound_visitedItems.
  apply not_true_is_false. intros Hex.
  apply existsb_exists in Hex as (li & Hli & Hs).
  apply list_elem_of_In in Hli. apply (H li Hli).
  unfold isStory in Hs. by apply bool_decide_eq_true in Hs.
Qed.

(** Checking that an explicit heap holds an explicit layout. *)
Ltac stored_tac :=
  apply stored_unfold;
  split; [reflexivity|];
  split; [first [exact I | reflexivity]|];
  first [ exact I
        | split; [reflexivity | forall_stored_tac] ]
with forall_stored_tac :=
  first [ apply Forall_nil
        | apply Forall_cons; [stored_tac | forall_stored_tac] ].

Lemma smallHeap_represents : represents smallHeap 10 smallSection.
Proof.
  exists smallLayout. split; [|reflexivity].
  split; [reflexivity|]. split; [forall_stored_tac|].
  apply (bool_decide_unpack _). vm_compute. exact I.
Defined.

(** C3: the mutator does not alias its input. On a heap where the array
    [arr] represents the section [S], the run of
    [addCompletionMarkerToShellStory] ends (it returns or throws) and every
    object that existed before the call is as it was, so that [arr] still
    represents [S]; and the array it returns is a new object that represents
    the marked section with objects that did not exist before the call. *)
Theorem mutator_does_not_alias_its_input
    (fuel : nat) (now : jsstring) (h : heap) (arr : loc)
    (S : list ADFNode) (storyId issueKey issueUrl : jsstring) :
  represents h arr S -> depths S <= fuel ->
  exists out h',
    Heap.addCompletionMarkerToShellStory fuel now arr storyId issueKey issueUrl h
    = (out, h') /\
    out <> Stuck /\
    (forall x, x < length h -> h' !! x = h !! x) /\
    represents h' arr S /\
    (forall arr',
       out = Ret arr' ->
       exists ts' S',
         addCompletionMarkerToShellStory now S storyId issueKey issueUrl = Ok S' /\
         holds h' arr' ts' /\ map erase ts' = S' /\
         forall x, x ∈ arr' :: concat (map locs ts') -> length h <= x).
Proof.
  intros Hrep Hd.
  destruct (mutator_refines fuel now h arr S storyId issueKey issueUrl Hrep Hd)
    as (out & h' & Hrun & _ & Hold & Hrep' & Hres).
  exists out, h'. split; [done|].
  destruct (addCompletionMarkerToShellStory now S storyId issueKey issueUrl)
    as [S'|msg].
  - destruct Hres as (arr' & ts' & -> & Hholds & He & Hfresh).
    repeat split; auto. intros arr'' [= <-]. by exists ts', S'.
  - subst out. repeat split; auto. intros arr' [=].
Qed.

Lemma mutator_does_not_alias_its_input_witness :
  exists out h',
    Heap.addCompletionMarkerToShellStory 4 sampleNow 10
      (js "st001") sampleKey sampleUrl smallHeap = (out, h') /\
    out <> Stuck /\
    (forall x, x < length smallHeap -> h' !! x = smallHeap !! x) /\
    represents h' 10 smallSection /\
    (forall arr',
       out = Ret arr' ->
       exists ts' S',
         addCompletionMarkerToShellStory sampleNow smallSection
           (js "st001") sampleKey sampleUrl = Ok S' /\
         holds h' arr' ts' /\ map erase ts' = S' /\
         forall x, x ∈ arr' :: concat (map locs ts') ->
                   length smallHeap <= x).
Proof.
  apply (mutator_does_not_alias_its_input 4 sampleNow smallHeap 10
           smallSection (js "st001") sampleKey sampleUrl).
  - exact smallHeap_represents.
  - vm_compute. lia.
Defined.

(** C7: when no list item of the section has the identifier [storyId], the
    mutator throws the error [Story <storyId> not found in Shell Stories
    section], and the input is as it was: every object that existed before
    the call is unchanged and the input array still represents the
    section. *)
Theorem missing_story_throws_and_leaves_input
    (fuel : nat) (now : jsstring) (h : heap) (arr : loc)
    (S : list ADFNode) (storyId issueKey issueUrl : jsstring) :
  represents h arr S -> depths S <= fuel ->
  (forall li, li ∈ visitedItems S ->
              extractStoryId (contentOf li) <> Some storyId) ->
  addCompletionMarkerToShellStory now S storyId issueKey issueUrl
  = Throw (js "Story " ++ storyId ++ js " not found in Shell Stories section")
  /\
  exists h',
    Heap.addCompletionMarkerToShellStory fuel now arr storyId issueKey issueUrl h
    = (Thrown (js "Story " ++ storyId
               ++ js " not found in Shell Stories section"), h') /\
    (forall x, x < length h -> h' !! x = h !! x) /\
    represents h' arr S.
Proof.
  intros Hrep Hd Hmissing.
  destruct (mutator_refines fuel now h arr S storyId issueKey issueUrl Hrep Hd)
    as (out & h' & Hrun & _ & Hold & Hrep' & Hres).
  unfold addCompletionMarkerToShellStory in *.
  rewrite (storyFound_false storyId S Hmissing) in *. subst out.
  split; [done|]. by exists h'.
Qed.

Lemma missing_story_throws_and_leaves_input_witness :
  addCompletionMarkerToShellStory sampleNow smallSection
    (js "nonexistent-id") sampleKey sampleUrl
  = Throw (js "Story nonexistent-id not found in Shell Stories section")
  /\
  exists h',
    Heap.addCompletionMarkerToShellStory 4 sampleNow 10
      (js "nonexistent-id") sampleKey sampleUrl smallHeap
    = (Thrown (js "Story nonexistent-id not found in Shell Stories section"),
       h') /\
    (forall x, x < length smallHeap -> h' !! x = smallHeap !! x) /\
    represents h' 10 smallSection.
Proof.
  apply (missing_story_throws_and_leaves_input 4 sampleNow smallHeap 10
           smallSection (js "nonexistent-id") sampleKey sampleUrl).
  - exact smallHeap_represents.
  - vm_compute. lia.
  - intros li Hli. apply list_elem_of_In in Hli. vm_compute in Hli.
    destruct Hli as [<-|[]]. vm_compute. discriminate.
Defined.

End HeapFacts.

(* ===================================================================== *)
(** * Further properties of the section functions *)
(* ===================================================================== *)

Section MoreSectionFacts.
Variable toLowerCase : jsstring -> jsstring.

Lemma count_app (a b : list ADFNode) label :
  countADFSectionsByHeading toLowerCase (a ++ b) label
  = countADFSectionsByHeading toLowerCase a label
    + countADFSectionsByHeading toLowerCase b label.
Proof.
  unfold countADFSectionsByHeading. by rewrite list.filter_app, length_app.
Qed.

Lemma count_zero content label :
  countADFSectionsByHeading toLowerCase content label = 0 <->
  Forall (fun n => isMatchingHeading toLowerCase label n = false) content.
Proof.
  unfold countADFSectionsByHeading.
  induction content as [|n content IH]; simpl.
  - split; [constructor|done].
  - rewrite filter_cons. rewrite Forall_cons_iff.
    destruct (isMatchingHeading toLowerCase label n) eqn:E.
    + rewrite decide_True by done. simpl. split; [lia|intros [? _]; done].
    + rewrite decide_False by done. rewrite IH. tauto.
Qed.

(** The count is split by the extraction. *)
Lemma count_extract content label :
  let E := extractADFSection toLowerCase content label in
  countADFSectionsByHeading toLowerCase content label
  = countADFSectionsByHeading toLowerCase (section E) label
    + countADFSectionsByHeading toLowerCase (remainingContent E) label.
Proof.
  intros E.
  destruct (extractADFSection_splits toLowerCase content label)
    as (i & j & Hsec & Hrem & Hij).
  fold E in Hsec, Hrem.
  rewrite Hsec, Hrem, count_app.
  rewrite <- (take_drop i content) at 1. rewrite count_app.
  rewrite <- (take_drop (j - i) (drop i content)) at 1. rewrite count_app.
  rewrite drop_drop. replace (i + (j - i)) with j by lia. lia.
Qed.

(** A section that is found starts with its heading. *)
Lemma section_head content label :
  let E := extractADFSection toLowerCase content label in
  match findSectionStart toLowerCase content 0 label with
  | None => section E = []
  | Some _ =>
      exists h rest, section E = h :: rest /\
                     isMatchingHeading toLowerCase label h = true
  end.
Proof.
  intros E. subst E. unfold extractADFSection.
  destruct (findSectionStart toLowerCase content 0 label) as [[k L]|] eqn:Hs;
    simpl; [|done].
  apply findSectionStart_some in Hs
    as (pre & h & post & -> & -> & _ & Hh & _).
  destruct (findSectionEnd_spec (drop (S (0 + length pre)) (pre ++ h :: post))
              (S (0 + length pre)) L) as (mid & rest & _ & He & _).
  rewrite He. unfold slice. simpl. rewrite drop_app_length.
  replace (S (length pre + length mid) - length pre) with (S (length mid))
    by lia.
  cbn [take]. eauto.
Qed.

Lemma count_zero_section content label :
  countADFSectionsByHeading toLowerCase content label = 0 <->
  section (extractADFSection toLowerCase content label) = [].
Proof.
  rewrite count_zero, <- findSectionStart_none with (i := 0).
  pose proof (section_head content label) as H. simpl in H.
  destruct (findSectionStart toLowerCase content 0 label) as [[k L]|].
  - destruct H as (h & rest & -> & _). split; done.
  - split; done.
Qed.

Lemma count_section_pos content label :
  countADFSectionsByHeading toLowerCase content label <> 0 ->
  countADFSectionsByHeading toLowerCase
    (section (extractADFSection toLowerCase content label)) label <> 0.
Proof.
  intros Hc Hz. apply Hc. apply count_zero_section.
  pose proof (section_head content label) as H. simpl in H.
  destruct (findSectionStart toLowerCase content 0 label) as [[k L]|];
    [|done].
  destruct H as (h & rest & Hsec & Hh).
  rewrite Hsec in Hz. apply count_zero in Hz.
  apply Forall_cons_iff in Hz as [Hz _]. congruence.
Qed.

(** The heading test reads the label only through [toLowerCase]. *)
Lemma isMatchingHeading_lower l1 l2 n :
  toLowerCase l1 = toLowerCase l2 ->
  isMatchingHeading toLowerCase l1 n = isMatchingHeading toLowerCase l2 n.
Proof.
  intros Hl. unfold isMatchingHeading, hasMatchingText. by rewrite Hl.
Qed.

Lemma findSectionStart_lower l1 l2 nodes i :
  toLowerCase l1 = toLowerCase l2 ->
  findSectionStart toLowerCase nodes i l1
  = findSectionStart toLowerCase nodes i l2.
Proof.
  intros Hl. revert i. induction nodes as [|n nodes IH]; intros i; simpl.
  - done.
  - by rewrite (isMatchingHeading_lower l1 l2 n Hl), IH.
Qed.

Lemma extractADFSection_lower l1 l2 content :
  toLowerCase l1 = toLowerCase l2 ->
  extractADFSection toLowerCase content l1
  = extractADFSection toLowerCase content l2.
Proof.
  intros Hl. unfold extractADFSection.
  by rewrite (findSectionStart_lower l1 l2 content 0 Hl).
Qed.

Lemma count_lower l1 l2 content :
  toLowerCase l1 = toLowerCase l2 ->
  countADFSectionsByHeading toLowerCase content l1
  = countADFSectionsByHeading toLowerCase content l2.
Proof.
  intros Hl. unfold countADFSectionsByHeading.
  induction content as [|n content IH]; [done|].
  rewrite !filter_cons, (isMatchingHeading_lower l1 l2 n Hl).
  destruct (decide (isMatchingHeading toLowerCase l2 n = true));
    simpl; by rewrite IH.
Qed.

End MoreSectionFacts.

(** X1: removing a section gives what extracting it leaves:
    [removeADFSectionByHeading] returns the [remainingContent] of
    [extractADFSection], for every content and label. *)
Theorem remove_is_the_remainder_of_extract
    (toLowerCase : jsstring -> jsstring)
    (content : list ADFNode) (headingText : jsstring) :
  removeADFSectionByHeading toLowerCase content headingText
  = remainingContent (extractADFSection toLowerCase content headingText).
Proof. apply removeADFSectionByHeading_remaining. Qed.

(** X2: the matching headings that [countADFSectionsByHeading] counts are
    split between the extracted section and the remaining content, and the
    count is zero exactly when the extracted section is empty. *)
Theorem count_is_split_by_extraction
    (toLowerCase : jsstring -> jsstring)
    (content : list ADFNode) (headingText : jsstring) :
  let E := extractADFSection toLowerCase content headingText in
  countADFSectionsByHeading toLowerCase content headingText
  = countADFSectionsByHeading toLowerCase (section E) headingText
    + countADFSectionsByHeading toLowerCase (remainingContent E) headingText
  /\ (countADFSectionsByHeading toLowerCase content headingText = 0 <->
      section E = []).
Proof.
  split; [apply count_extract | apply count_zero_section].
Qed.

(** X3: the guard of [setupFigmaScreens]: when the count for a label is at
    most one, extracting the section for a label with the same lower-case
    form leaves no matching heading in the remaining content, and removing
    the section a second time changes nothing. *)
Theorem single_section_is_removed_entirely
    (toLowerCase : jsstring -> jsstring)
    (content : list ADFNode) (countLabel extractLabel : jsstring) :
  toLowerCase countLabel = toLowerCase extractLabel ->
  countADFSectionsByHeading toLowerCase content countLabel <= 1 ->
  let remaining :=
    remainingContent (extractADFSection toLowerCase content extractLabel) in
  countADFSectionsByHeading toLowerCase remaining countLabel = 0 /\
  removeADFSectionByHeading toLowerCase remaining extractLabel = remaining.
Proof.
  intros Hl Hle remaining.
  assert (Hz : countADFSectionsByHeading toLowerCase remaining extractLabel = 0).
  { rewrite (count_lower toLowerCase _ _ content Hl) in Hle.
    pose proof (count_extract toLowerCase content extractLabel) as Hs.
    simpl in Hs. fold remaining in Hs.
    destruct (decide (countADFSectionsByHeading toLowerCase content
                        extractLabel = 0)) as [H0|H0]; [lia|].
    pose proof (count_section_pos toLowerCase content extractLabel H0). lia. }
  split.
  - by rewrite (count_lower toLowerCase _ _ remaining Hl).
  - rewrite removeADFSectionByHeading_remaining.
    apply count_zero in Hz.
    by rewrite (extractADFSection_none toLowerCase remaining extractLabel Hz).
Qed.

Lemma single_section_is_removed_entirely_witness :
  let remaining :=
    remainingContent (extractADFSection asciiLower sampleDoc
                        (js "Shell Stories")) in
  countADFSectionsByHeading asciiLower remaining (js "shell stories") = 0 /\
  removeADFSectionByHeading asciiLower remaining (js "Shell Stories")
  = remaining.
Proof.
  apply (single_section_is_removed_entirely asciiLower sampleDoc
           (js "shell stories") (js "Shell Stories")).
  - reflexivity.
  - vm_compute. lia.
Defined.

(* ===================================================================== *)
(** * Facts about strings *)
(* ===================================================================== *)

(** ** Strings *)

Lemma startsWith_spec s p :
  startsWith s p = true <-> exists b, s = p ++ b.
Proof.
  revert p. induction s as [|d s IH]; intros [|c p]; cbn [startsWith].
  - split; [by exists []|done].
  - split; [done|]. by intros (b & Hb).
  - split; [by exists (d :: s)|done].
  - rewrite andb_true_iff, N.eqb_eq, IH. split.
    + intros [-> (b & ->)]. by exists b.
    + intros (b & Hb). injection Hb as -> ->. eauto.
Qed.

Lemma includes_spec s sub :
  includes s sub = true <-> exists a b, s = a ++ sub ++ b.
Proof.
  induction s as [|d s IH].
  - cbn [includes]. rewrite orb_false_r, startsWith_spec. split.
    + intros (b & Hb). by exists [], b.
    + intros (a & b & Hab). destruct a; [by exists b|done].
  - cbn [includes]. rewrite orb_true_iff, startsWith_spec, IH. split.
    + intros [(b & Hb)|(a & b & Hab)].
      * by exists [], b.
      * exists (d :: a), b. by rewrite Hab.
    + intros (a & b & Hab). destruct a as [|e a].
      * left. by exists b.
      * right. injection Hab as -> ->. by exists a, b.
Qed.

Lemma includes_trans a b c :
  includes a b = true -> includes b c = true -> includes a c = true.
Proof.
  rewrite !includes_spec. intros (x & y & ->) (u & v & ->).
  exists (x ++ u), (v ++ y). by rewrite <- !app_assoc.
Qed.

Lemma includes_refl a : includes a a = true.
Proof. apply includes_spec. exists [], []. by rewrite app_nil_r. Qed.

Lemma includes_wrap a s b : includes (a ++ s ++ b) s = true.
Proof. apply includes_spec. by exists a, b. Qed.

Lemma split_nonempty c s : split c s <> [].
Proof.
  induction s as [|d s IH]; simpl; [done|].
  destruct (d =? c)%N; [done|]. by destruct (split c s).
Qed.

Lemma split_no_sep c s : Forall (fun p => c ∉ p) (split c s).
Proof.
  induction s as [|d s IH]; simpl.
  - constructor; [apply not_elem_of_nil|constructor].
  - destruct (d =? c)%N eqn:E.
    + constructor; [apply not_elem_of_nil|done].
    + destruct (split c s) as [|p ps]; [constructor; [|done]|].
      * apply not_elem_of_cons. split; [|apply not_elem_of_nil].
        intros ->. by rewrite N.eqb_refl in E.
      * apply Forall_cons_iff in IH as [Hp Hps].
        constructor; [|done].
        apply not_elem_of_cons. split; [|done].
        intros ->. by rewrite N.eqb_refl in E.
Qed.

Lemma joinWith_cons sep p q rest :
  joinWith sep (p :: q :: rest) = p ++ sep ++ joinWith sep (q :: rest).
Proof. done. Qed.

Lemma split_app_no_sep c p s :
  c ∉ p ->
  split c (p ++ s) =
  match split c s with
  | [] => [p]
  | q :: qs => (p ++ q) :: qs
  end.
Proof.
  intros Hp. induction p as [|d p IH]; simpl.
  - destruct (split c s) eqn:E; [by destruct (split_nonempty c s)|done].
  - destruct (d =? c)%N eqn:E.
    + apply N.eqb_eq in E as ->. exfalso. apply Hp. left.
    + rewrite IH by (intros ?; apply Hp; by right).
      by destruct (split c s).
Qed.

Lemma split_joinWith c parts :
  parts <> [] -> Forall (fun p => c ∉ p) parts ->
  split c (joinWith [c] parts) = parts.
Proof.
  induction parts as [|p parts IH]; [done|]. intros _ Hall.
  apply Forall_cons_iff in Hall as [Hp Hall].
  destruct parts as [|q parts].
  - simpl. rewrite <- (app_nil_r p) at 1. rewrite split_app_no_sep by done.
    simpl. by rewrite app_nil_r.
  - rewrite joinWith_cons, split_app_no_sep by done.
    cbn [app split]. rewrite N.eqb_refl.
    rewrite IH by done. by rewrite app_nil_r.
Qed.

Lemma joinWith_split c s : joinWith [c] (split c s) = s.
Proof.
  induction s as [|d s IH]; cbn [split]; [done|].
  destruct (d =? c)%N eqn:E.
  - apply N.eqb_eq in E as ->.
    destruct (split c s) as [|q qs] eqn:Es; [by destruct (split_nonempty c s)|].
    rewrite joinWith_cons. cbn [app]. by rewrite IH.
  - destruct (split c s) as [|q qs] eqn:Es; [by destruct (split_nonempty c s)|].
    destruct qs as [|r qs].
    + cbn [joinWith] in *. by rewrite IH.
    + rewrite joinWith_cons. rewrite joinWith_cons in IH.
      cbn [app]. by rewrite <- IH.
Qed.

(** ** White space *)

Lemma trimStart_spec s :
  exists w, s = w ++ trimStart s /\ Forall (fun c => isWhiteSpace c = true) w /\
            match trimStart s with
            | c :: _ => isWhiteSpace c = false
            | [] => True
            end.
Proof.
  induction s as [|c s IH]; simpl.
  - by exists [].
  - destruct (isWhiteSpace c) eqn:E.
    + destruct IH as (w & Hs & Hw & Hh). exists (c :: w).
      split; [by rewrite Hs at 1|]. split; [by constructor|done].
    + exists []. by rewrite E.
Qed.

Lemma trimStart_id s :
  match s with c :: _ => isWhiteSpace c = false | [] => True end ->
  trimStart s = s.
Proof. destruct s as [|c s]; simpl; [done|]. by intros ->. Qed.

Lemma trimStart_white w s :
  Forall (fun c => isWhiteSpace c = true) w -> trimStart (w ++ s) = trimStart s.
Proof.
  induction 1 as [|c w Hc _ IH]; simpl; [done|]. by rewrite Hc.
Qed.

Lemma trimEnd_spec s :
  exists w, s = trimEnd s ++ w /\ Forall (fun c => isWhiteSpace c = true) w /\
            match rev (trimEnd s) with
            | c :: _ => isWhiteSpace c = false
            | [] => True
            end.
Proof.
  unfold trimEnd. destruct (trimStart_spec (rev s)) as (w & Hs & Hw & Hh).
  exists (rev w). split.
  - rewrite <- rev_app_distr, <- Hs. by rewrite rev_involutive.
  - split; [by apply Forall_rev|]. by rewrite rev_involutive.
Qed.

Lemma trimEnd_white s w :
  Forall (fun c => isWhiteSpace c = true) w -> trimEnd (s ++ w) = trimEnd s.
Proof.
  intros Hw. unfold trimEnd. rewrite rev_app_distr.
  rewrite trimStart_white; [done|by apply Forall_rev].
Qed.

Lemma trimEnd_id s :
  match rev s with c :: _ => isWhiteSpace c = false | [] => True end ->
  trimEnd s = s.
Proof.
  intros H. unfold trimEnd. rewrite trimStart_id by done.
  apply rev_involutive.
Qed.

(** A string without white space at either end. *)
Lemma trim_ends s :
  match trim s with c :: _ => isWhiteSpace c = false | [] => True end /\
  match rev (trim s) with c :: _ => isWhiteSpace c = false | [] => True end.
Proof.
  unfold trim.
  destruct (trimStart_spec s) as (w & _ & _ & Hh).
  destruct (trimEnd_spec (trimStart s)) as (w' & Hs' & Hw' & Hl).
  split; [|done].
  destruct (trimEnd (trimStart s)) as [|c r] eqn:E; [done|].
  rewrite Hs' in Hh. done.
Qed.

Lemma trim_id s :
  match s with c :: _ => isWhiteSpace c = false | [] => True end ->
  match rev s with c :: _ => isWhiteSpace c = false | [] => True end ->
  trim s = s.
Proof.
  intros H1 H2. unfold trim. rewrite (trimStart_id s H1). by apply trimEnd_id.
Qed.

Lemma trim_idem s : trim (trim s) = trim s.
Proof. destruct (trim_ends s). by apply trim_id. Qed.

Lemma trim_sub s : exists a b, s = a ++ trim s ++ b.
Proof.
  unfold trim.
  destruct (trimStart_spec s) as (w & Hs & _).
  destruct (trimEnd_spec (trimStart s)) as (w' & Hs' & _).
  exists w, w'. by rewrite <- Hs', <- Hs.
Qed.

(** * The structural errors of the parser *)

(** ** White space and the text around the glyph *)

Lemma blank_app a b : blank (a ++ b) = blank a && blank b.
Proof. apply forallb_app. Qed.

Lemma blank_white w :
  Forall (fun c => isWhiteSpace c = true) w -> blank w = true.
Proof.
  intros H. apply forallb_forall. intros c Hc.
  by eapply Forall_forall in H.
Qed.

Lemma blank_trim s : blank (trim s) = blank s.
Proof.
  unfold trim.
  destruct (trimStart_spec s) as (w & Hs & Hw & _).
  destruct (trimEnd_spec (trimStart s)) as (w' & Hs' & Hw' & _).
  rewrite Hs at 2. rewrite Hs' at 2.
  rewrite !blank_app, (blank_white w Hw), (blank_white w' Hw').
  by rewrite andb_true_r.
Qed.

Lemma blank_nil s : blank s = true -> trim s = [].
Proof.
  intros H. unfold trim.
  assert (trimStart s = []) as ->; [|done].
  induction s as [|c s IH]; simpl in *; [done|].
  apply andb_true_iff in H as [-> H]. auto.
Qed.

Lemma truthy_trim s : truthy (trim s) = negb (blank s).
Proof.
  destruct (blank s) eqn:E.
  - by rewrite blank_nil.
  - rewrite <- blank_trim in E. by destruct (trim s).
Qed.

Lemma split_hd c s :
  hd [] (split c s) = takeWhile (fun d => negb (d =? c)%N) s.
Proof.
  induction s as [|d s IH]; simpl; [done|].
  destruct (d =? c)%N; simpl; [done|].
  rewrite <- IH. by destruct (split c s).
Qed.

Lemma split_second c s :
  nth 1 (split c s) [] =
  takeWhile (fun d => negb (d =? c)%N)
    (tl (dropWhile (fun d => negb (d =? c)%N) s)).
Proof.
  induction s as [|d s IH]; simpl; [done|].
  destruct (d =? c)%N eqn:E; simpl.
  - rewrite <- split_hd. by destruct (split c s).
  - rewrite <- IH. pose proof (split_nonempty c s).
    by destruct (split c s).
Qed.

(** ** The three checks on a record, in the words of its first paragraph *)

Lemma cut_or_none (p : ADFNode -> bool) nodes :
  (Forall (fun n => p n = false) nodes /\
   dropWhile (fun n => negb (p n)) nodes = [])
  \/
  (exists pre s post,
     cutAtFirst p nodes pre s post /\
     dropWhile (fun n => negb (p n)) nodes = s :: post).
Proof.
  induction nodes as [|n nodes IH]; simpl.
  - left. by split.
  - destruct (p n) eqn:Hn; simpl.
    + right. exists [], n, nodes. by repeat split.
    + destruct IH as [[Hall Hd]|(pre & s & post & (-> & Hpre & Hs) & Hd)].
      * left. split; [by constructor | done].
      * right. exists (n :: pre), s, post. repeat split; auto.
Qed.

Lemma cut_unique (p : ADFNode -> bool) nodes pre s post pre' s' post' :
  cutAtFirst p nodes pre s post -> cutAtFirst p nodes pre' s' post' ->
  pre = pre' /\ s = s' /\ post = post'.
Proof.
  intros (-> & Hp & Hs) (Heq & Hp' & Hs'). revert pre' Heq Hp'.
  induction pre as [|x pre IH]; intros [|x' pre'] Heq Hp'; simpl in Heq.
  - by injection Heq as -> ->.
  - injection Heq as ? ?; subst. inversion Hp'; congruence.
  - injection Heq as ? ?; subst. inversion Hp; congruence.
  - injection Heq as -> Heq. inversion Hp; inversion Hp'; subst.
    destruct (IH ltac:(done) pre' Heq) as (-> & -> & ->); auto.
Qed.

Lemma cut_none (p : ADFNode -> bool) nodes pre s post :
  Forall (fun n => p n = false) nodes -> ~ cutAtFirst p nodes pre s post.
Proof.
  intros Hall (-> & _ & Hs). apply Forall_app in Hall as [_ Hall].
  inversion Hall; congruence.
Qed.

(** The title that the scan of [extractTitleInfo] has when it stops at the
    separator node. *)
Lemma titleLoop_title pre s post fid ttl url :
  Forall (fun n => isSepNode n = false) pre -> isSepNode s = true ->
  scannedTitle (titleLoop (pre ++ s :: post) fid ttl url)
  = ttl ++
    concat (map (fun n => trim (textOrEmpty n) ++ js " ")
              (List.filter isPlainText
                 (if fid then pre
                  else dropWhile (fun n => negb (isCodeText n)) pre)))
    ++ trim (beforeSep s).
Proof.
  intros Hpre Hs. revert fid ttl url.
  induction Hpre as [|n pre Hn _ IH]; intros fid ttl url.
  - cbn [app titleLoop]. unfold isSepNode, isCodeText in Hs.
    destruct (isType s (js "text") && hasMarkType s (js "code")); [done|].
    simpl in Hs. rewrite Hs. cbn [scannedTitle].
    rewrite split_hd. fold (beforeSep s).
    assert (List.filter isPlainText
              (if fid then []
               else dropWhile (fun n => negb (isCodeText n)) []) = []) as ->
      by by destruct fid.
    cbn [map concat app].
    destruct (beforeSep s) as [|c r]; [|done].
    by rewrite app_nil_r.
  - cbn [app titleLoop].
    destruct (isType n (js "text") && hasMarkType n (js "code")) eqn:Hcode.
    + assert (isCodeText n = true) as Hc by done.
      assert (isPlainText n = false) as Hp.
      { unfold isPlainText. apply andb_true_iff in Hcode as [-> ->]. done. }
      rewrite IH. destruct fid; cbn [dropWhile]; rewrite ?Hc;
        cbn [negb List.filter]; by rewrite Hp.
    + assert (isCodeText n = false) as Hc by done.
      unfold isSepNode in Hn. rewrite Hc in Hn. simpl in Hn. rewrite Hn.
      destruct fid; cbn [andb].
      * destruct (isType n (js "text")) eqn:Hty.
        -- assert (isPlainText n = true) as Hp.
           { unfold isPlainText. rewrite Hty. simpl in Hcode.
             by rewrite Hcode. }
           rewrite IH. cbn [List.filter]. rewrite Hp.
           cbn [map concat]. by rewrite <- !app_assoc.
        -- assert (isPlainText n = false) as Hp.
           { unfold isPlainText. by rewrite Hty. }
           rewrite IH. cbn [List.filter]. by rewrite Hp.
      * rewrite IH. cbn [dropWhile]. by rewrite Hc.
Qed.

Lemma titleNodesOf_no_marker pre :
  existsb isCodeText pre = false -> titleNodesOf pre = [].
Proof.
  unfold titleNodesOf. induction pre as [|n pre IH]; simpl; [done|].
  intros H. apply orb_false_iff in H as [-> H]. simpl. auto.
Qed.

Lemma writtenTitle_truthy pre s :
  truthy (writtenTitle pre s) = true <->
  titleNodesOf pre <> [] \/ blank (beforeSep s) = false.
Proof.
  unfold writtenTitle. destruct (titleNodesOf pre) as [|n l]; cbn [map concat app].
  - rewrite truthy_trim. destruct (blank (beforeSep s)); simpl.
    + split; [done | by intros [|]].
    + split; [by right | done].
  - split; [by left|]. intros _.
    destruct (trim (textOrEmpty n)); done.
Qed.

(** [extractTitleInfo] finds the title that the paragraph has. *)
Lemma extractTitleInfo_hasTitle c :
  match extractTitleInfo c with
  | Some (ttl, _) => hasTitle (firstParagraphNodes c) ttl
  | None => forall ttl, ~ hasTitle (firstParagraphNodes c) ttl
  end.
Proof.
  rewrite extractTitleInfo_firstParagraph.
  set (nodes := firstParagraphNodes c). cbv zeta.
  destruct (titleLoop_found nodes false [] None)
    as [[Hall Hs]|(pre & s & post & Hsplit & Hpre & Hs & Hf & Hid)].
  - rewrite Hs, andb_false_r. cbn [andb].
    intros ttl (pre & s & post & Hcut & _). by eapply cut_none.
  - assert (cutAtFirst isSepNode nodes pre s post) as Hcut by done.
    rewrite Hf, Hid, andb_true_r. cbn [orb].
    pose proof (titleLoop_title pre s post false [] None Hpre Hs) as Httl.
    rewrite <- Hsplit in Httl. cbn [app] in Httl.
    fold (titleNodesOf pre) in Httl. fold (writtenTitle pre s) in Httl.
    rewrite Httl.
    destruct (existsb isCodeText pre) eqn:Hc; cbn [andb].
    + destruct (truthy (writtenTitle pre s)) eqn:Ht.
      * exists pre, s, post. repeat split; try done.
        by apply writtenTitle_truthy.
      * intros ttl (pre' & s' & post' & Hcut' & _ & Hw & _).
        destruct (cut_unique _ _ _ _ _ _ _ _ Hcut Hcut') as (<- & <- & _).
        apply writtenTitle_truthy in Hw. congruence.
    + intros ttl (pre' & s' & post' & Hcut' & Hc' & _).
      destruct (cut_unique _ _ _ _ _ _ _ _ Hcut Hcut') as (<- & _).
      congruence.
Qed.

(** The description that the scan of [extractDescription] collects is white
    space only exactly when every node from the first glyph on adds white
    space only. *)
Lemma descriptionLoop_blank nodes fsep desc :
  blank (descriptionLoop nodes fsep desc)
  = blank desc &&
    forallb (fun n => blank (descriptionPiece n))
      (if fsep then nodes
       else dropWhile (fun n => negb (holdsSep n)) nodes).
Proof.
  revert fsep desc. induction nodes as [|n nodes IH]; intros fsep desc.
  - cbn [descriptionLoop]. destruct fsep; cbn [dropWhile forallb];
      by rewrite andb_true_r.
  - cbn [descriptionLoop].
    destruct (isType n (js "text")) eqn:Hty.
    + destruct (textIncludesSep n) eqn:Hsep.
      * assert (holdsSep n = true) as Hh by (unfold holdsSep; by rewrite Hty).
        assert (descriptionPiece n = afterSep n) as Hp
          by (unfold descriptionPiece; by rewrite Hh).
        rewrite IH. rewrite split_second. fold (afterSep n).
        assert (blank (if truthy (afterSep n)
                       then desc ++ trim (afterSep n) else desc)
                = blank desc && blank (afterSep n)) as ->.
        { destruct (afterSep n) as [|c r] eqn:E; cbn [truthy].
          - by rewrite andb_true_r.
          - by rewrite blank_app, blank_trim. }
        destruct fsep; cbn [dropWhile]; rewrite ?Hh; cbn [negb forallb];
          by rewrite Hp, andb_assoc.
      * assert (holdsSep n = false) as Hh
          by (unfold holdsSep; by rewrite Hty, Hsep).
        destruct fsep; cbn [andb].
        -- destruct (hasMarkType n (js "em")) eqn:Hem; cbn [negb].
           ++ assert (descriptionPiece n = []) as Hp
                by (unfold descriptionPiece; by rewrite Hh, Hty, Hem).
              rewrite IH. cbn [forallb]. by rewrite Hp.
           ++ assert (descriptionPiece n = textOrEmpty n) as Hp
                by (unfold descriptionPiece; by rewrite Hh, Hty, Hem).
              rewrite IH. cbn [forallb]. rewrite Hp.
              rewrite !blank_app, blank_trim.
              change (blank (js " ")) with true. cbn [andb].
              by rewrite andb_assoc.
        -- rewrite IH. cbn [dropWhile]. by rewrite Hh.
    + assert (holdsSep n = false) as Hh by (unfold holdsSep; by rewrite Hty).
      assert (descriptionPiece n = []) as Hp.
      { unfold descriptionPiece. by rewrite Hh, Hty. }
      destruct fsep; cbn [andb].
      * cbn [forallb]. rewrite Hp.
        destruct (isType n (js "hardBreak")); rewrite IH; [|done].
        rewrite blank_app. change (blank [10%N]) with true.
        by rewrite andb_true_r.
      * rewrite IH. cbn [dropWhile]. by rewrite Hh.
Qed.

(** [extractDescription] is not empty exactly when the paragraph has a
    description. *)
Lemma extractDescription_hasDescription c :
  truthy (extractDescription c) = true <->
  hasDescription (firstParagraphNodes c).
Proof.
  rewrite extractDescription_firstParagraph, truthy_trim,
    descriptionLoop_blank.
  set (nodes := firstParagraphNodes c). cbn [blank forallb andb].
  destruct (cut_or_none holdsSep nodes)
    as [[Hall ->]|(pre & s & post & Hcut & ->)].
  - cbn [forallb negb]. split; [done|].
    intros (pre & s & post & Hcut & _). by eapply cut_none in Hcut.
  - rewrite negb_true_iff, <- not_true_iff_false, forallb_forall.
    split.
    + intros H. exists pre, s, post. split; [done|].
      apply Exists_exists.
      destruct (Exists_dec (fun n => blank (descriptionPiece n) = false)
                  (s :: post)) as [He|Hne].
      { intros n. destruct (blank (descriptionPiece n)); [by right | by left]. }
      { by apply Exists_exists in He. }
      exfalso. apply H. intros n Hn.
      destruct (blank (descriptionPiece n)) eqn:E; [done|].
      exfalso. apply Hne. apply Exists_exists. eauto.
    + intros (pre' & s' & post' & Hcut' & He) H.
      destruct (cut_unique _ _ _ _ _ _ _ _ Hcut Hcut') as (<- & <- & <-).
      apply Exists_exists in He as (n & Hn & Hb).
      specialize (H n Hn). congruence.
Qed.

Lemma extractStoryId_hasId c :
  match extractStoryId c with
  | Some t => hasId (firstParagraphNodes c) t
  | None => Forall (fun n => isIdNode n = false) (firstParagraphNodes c)
  end.
Proof.
  destruct (extractStoryId c) as [t|] eqn:E.
  - rewrite extractStoryId_firstParagraph in E.
    apply scanStoryId_some in E as (pre & n & post & ? & ? & ? & ?).
    by exists pre, n, post.
  - by apply extractStoryId_none_iff.
Qed.

Lemma hasId_unique nodes t t' : hasId nodes t -> hasId nodes t' -> t = t'.
Proof.
  intros (pre & n & post & Hcut & Ht) (pre' & n' & post' & Hcut' & Ht').
  destruct (cut_unique _ _ _ _ _ _ _ _ Hcut Hcut') as (_ & <- & _).
  congruence.
Qed.

(** The error of a visited item is its defect; an item without error is
    well formed, with the identifier and the title that the parser reads. *)
Lemma itemError_defect li :
  let nodes := firstParagraphNodes (contentOf li) in
  match itemError li with
  | Some msg => defect nodes msg
  | None =>
      exists t ttl url,
        wellFormed nodes t ttl /\
        extractStoryId (contentOf li) = Some t /\
        extractTitleInfo (contentOf li) = Some (ttl, url)
  end.
Proof.
  intros nodes. unfold itemError.
  pose proof (extractStoryId_hasId (contentOf li)) as Hid.
  pose proof (extractTitleInfo_hasTitle (contentOf li)) as Httl.
  pose proof (extractDescription_hasDescription (contentOf li)) as Hd.
  destruct (extractStoryId (contentOf li)) as [t|]; [|by constructor].
  destruct (extractTitleInfo (contentOf li)) as [[ttl url]|];
    [|by constructor].
  destruct (truthy (extractDescription (contentOf li))).
  - exists t, ttl, url. repeat split; try done. by apply Hd.
  - apply (missingDescription _ t ttl); try done.
    intros H. by apply Hd in H.
Qed.

(** A paragraph with a defect is not well formed. *)
Lemma defect_not_wellFormed nodes msg t ttl :
  defect nodes msg -> ~ wellFormed nodes t ttl.
Proof.
  intros Hdef (Hid & Httl & Hd). destruct Hdef as [Hall|t' _ Hno|t' ttl' _ _ Hno].
  - destruct Hid as (pre & n & post & Hcut & _). by eapply cut_none in Hcut.
  - by apply (Hno ttl).
  - done.
Qed.

(** C6, as stated, fails in both directions: a list item without a content
    array has no identifier and is skipped without an error; and an item
    with an identifier, the separator after it and a description is refused
    because no title stands between them. *)
Lemma parser_skips_and_refuses_outside_the_three_cases :
  let bare := mkNode (js "listItem") None None None None in
  let untitled := listItem [paragraph [ markedText (js "st001") [code];
                                        textNode ([SEP] ++ js " desc") ]] in
  (extractStoryId (contentOf bare) = None /\
   parseShellStoriesFromAdf asciiLower noMarkdown [bulletList [bare]] = Ok [])
  /\
  (extractStoryId (contentOf untitled) = Some (js "st001") /\
   separatorAfterMarker (firstParagraphNodes (contentOf untitled)) /\
   extractDescription (contentOf untitled) = js "desc" /\
   parseShellStoriesFromAdf asciiLower noMarkdown [bulletList [untitled]]
   = Throw (msgMissingTitle (js "st001"))).
Proof.
  repeat split; try reflexivity.
  exists [markedText (js "st001") [code]], (textNode ([SEP] ++ js " desc")), [].
  repeat split; try reflexivity. by repeat constructor.
Qed.

(** C6, as amended: the parser visits the list items that have a content
    array, in the top-level bullet lists that have one, in document order
    (the others are skipped). It throws exactly when one of the visited items
    has a defect, and then throws the error of the first such item,
    returning no record. The defects are those of the inline nodes of the
    item's first paragraph ([defect]):
    - the missing-identifier error, when no code-marked text node has a text
      of the form [st<digits>];
    - otherwise the error naming the identifier for a missing title or
      separator, when no text node without a code mark holds the glyph, or no
      code-marked text node stands before the first such node (the separator
      node), or nothing is written as the title: no text node without a code
      mark stands between the first code-marked text node and the separator
      node, and the text before the glyph in the separator node is white
      space only;
    - otherwise the error naming the identifier for a missing description,
      when no text node holds the glyph or, from the first one on, the text
      after the glyph of every text node that holds it and the text of every
      other text node without an [em] mark are white space only.
    When no visited item has a defect, there is one record for each visited
    item, in order, with the item's identifier, and with the item's written
    title, trimmed, as its title (the title is tested before it is trimmed,
    so that of a record can be empty). No paragraph has a defect and is well
    formed. *)
Theorem parser_fails_fast
    (toLowerCase : jsstring -> jsstring)
    (convertAdfNodesToMarkdown : list ADFNode -> jsstring)
    (S : list ADFNode) :
  let nodesOf li := firstParagraphNodes (contentOf li) in
  match parseShellStoriesFromAdf toLowerCase convertAdfNodesToMarkdown S with
  | Throw msg =>
      exists pre li post,
        visitedItems S = pre ++ li :: post /\
        Forall (fun x => exists t ttl, wellFormed (nodesOf x) t ttl) pre /\
        defect (nodesOf li) msg
  | Ok stories =>
      Forall2 (fun li r => wellFormed (nodesOf li) (id r) (title r))
              (visitedItems S) stories
  end
  /\
  forall nodes msg t ttl, ~ (defect nodes msg /\ wellFormed nodes t ttl).
Proof.
  intros nodesOf. split.
  2:{ intros nodes msg t ttl [Hd Hw].
      by apply (defect_not_wellFormed nodes msg t ttl). }
  rewrite parse_visitedItems.
  pose proof (parse_items_spec toLowerCase convertAdfNodesToMarkdown
                (visitedItems S) [] (visitedItems_withContent S)) as H.
  match goal with |- match ?x with _ => _ end =>
    destruct x as [stories|msg] end.
  - destruct H as (rs & -> & Hrs). cbn [app].
    eapply Forall2_impl; [|exact Hrs].
    intros li r (He & Hid & (url & Httl & _) & _). cbv beta in *.
    pose proof (itemError_defect li) as Hw. rewrite He in Hw.
    destruct Hw as (t & ttl & url' & Hw & Hid' & Httl').
    assert (t = id r) as -> by congruence.
    assert (ttl = title r) as -> by congruence.
    done.
  - destruct H as (pre & li & post & Hsplit & Hpre & He).
    exists pre, li, post. split; [done|]. split.
    + eapply Forall_impl; [|exact Hpre]. intros x Hx. cbv beta in Hx.
      pose proof (itemError_defect x) as Hw. rewrite Hx in Hw.
      destruct Hw as (t & ttl & _ & Hw & _). by exists t, ttl.
    + pose proof (itemError_defect li) as Hw. by rewrite He in Hw.
Qed.

(** A title of white space only counts as written: the item passes the check
    on the title, and its record has the empty string as title. *)
Lemma white_space_title_is_accepted :
  let item := listItem [paragraph [ markedText (js "st001") [code];
                                    textNode (js " ");
                                    textNode ([SEP] ++ js " desc") ]] in
  exists r,
    parseShellStoriesFromAdf asciiLower noMarkdown [bulletList [item]]
    = Ok [r] /\
    id r = js "st001" /\ title r = [] /\ description r = js "desc".
Proof. eexists. repeat split; reflexivity. Qed.

(** The separator node is the first text node without a code mark that holds
    the glyph: when it stands before every code-marked text node, the item
    is refused, whatever follows. *)
Lemma glyph_before_the_marker_is_refused :
  let item := listItem [paragraph [ textNode (js "see a " ++ [SEP] ++ js " b ");
                                    markedText (js "st001") [code];
                                    textNode (js " Login ");
                                    textNode ([SEP] ++ js " desc") ]] in
  parseShellStoriesFromAdf asciiLower noMarkdown [bulletList [item]]
  = Throw (msgMissingTitle (js "st001")).
Proof. reflexivity. Qed.

(* ===================================================================== *)
(** * Properties of the Markdown renderer *)
(* ===================================================================== *)

(** ** Marks *)

Lemma applyMark_includes r m : includes (applyMark r m) r = true.
Proof.
  unfold applyMark.
  repeat (match goal with |- context [streq ?a ?b] => destruct (streq a b) end);
    try apply includes_wrap.
  apply includes_refl.
Qed.

Lemma applyMarksToText_includes t ms :
  includes (applyMarksToText t ms) t = true.
Proof.
  destruct ms as [ms|]; simpl; [|apply includes_refl].
  revert t. induction ms as [|m ms IH]; intros t; simpl.
  - apply includes_refl.
  - eapply includes_trans; [apply IH|apply applyMark_includes].
Qed.

Lemma includes_concat (parts : list jsstring) p :
  p ∈ parts -> includes (concat parts) p = true.
Proof.
  intros Hp. apply list_elem_of_split in Hp as (l1 & l2 & ->).
  rewrite concat_app. simpl. apply includes_wrap.
Qed.

(** X4: the Markdown of a paragraph holds the text of each of its text
    nodes as it is: marks only wrap the text, and nothing is escaped or
    dropped. *)
Theorem paragraph_markdown_contains_its_texts (p n : ADFNode) (i : nat) :
  contentOf p !! i = Some n -> isType n (js "text") = true ->
  includes (convertParagraphToMarkdown p) (textOrEmpty n) = true.
Proof.
  intros Hn%list_elem_of_lookup_2 Ht.
  unfold convertParagraphToMarkdown, contentOf in *.
  destruct (content p) as [c|]; [|by apply elem_of_nil in Hn].
  unfold convertInlineNodesToMarkdown.
  eapply includes_trans.
  - apply includes_concat. apply list_elem_of_fmap. exists n. split; [done|exact Hn].
  - unfold convertInlineNodeToMarkdown. rewrite Ht.
    apply applyMarksToText_includes.
Qed.

Lemma paragraph_markdown_contains_its_texts_witness :
  includes (convertParagraphToMarkdown loginParagraph) (js "Login Story")
  = true.
Proof.
  apply (paragraph_markdown_contains_its_texts loginParagraph
           (markedText (js "Login Story") [strong]) 2); reflexivity.
Defined.

(** ** Plain text *)

Lemma collapseFrom_shape b s :
  let r := collapseFrom b s in
  (forall c, c ∈ r -> isWhiteSpace c = true -> c = 32%N) /\
  (b = true -> match r with c :: _ => isWhiteSpace c = false | [] => True end) /\
  includes r [32%N; 32%N] = false.
Proof.
  revert b. induction s as [|c s IH]; intros b; cbn [collapseFrom].
  - split; [by intros c ?%elem_of_nil|]. split; done.
  - destruct (isWhiteSpace c) eqn:Ec.
    + destruct b.
      * apply IH.
      * destruct (IH true) as (H1 & H2 & H3). specialize (H2 eq_refl).
        split; [|split; [done|]].
        -- intros d [->|Hd]%elem_of_cons; [done|]. by apply H1.
        -- cbn [includes]. rewrite H3, orb_false_r.
           cbn [startsWith]. destruct (collapseFrom true s) as [|d r]; [done|].
           cbn [startsWith]. destruct (N.eqb_spec 32 d) as [<-|]; [|done].
           done.
    + destruct (IH false) as (H1 & _ & H3).
      split; [|split; [done|]].
      * intros d [->|Hd]%elem_of_cons; [congruence|]. by apply H1.
      * cbn [includes]. rewrite H3, orb_false_r.
        cbn [startsWith]. destruct (N.eqb_spec 32 c) as [<-|]; [done|done].
Qed.

(** X5: the plain text that [extractPlainTextFromAdf] returns is
    normalised: it has no white space at either end, its only white-space
    unit is the space, and it has no two spaces in a row. *)
Theorem plain_text_is_normalised (nodes : list ADFNode) :
  let r := extractPlainTextFromAdf nodes in
  trim r = r /\
  (forall c, c ∈ r -> isWhiteSpace c = true -> c = 32%N) /\
  includes r (js "  ") = false.
Proof.
  intros r. unfold extractPlainTextFromAdf in r.
  set (s := joinWith (js " ") (map extractPlainTextFromAdfNode nodes)) in r.
  destruct (collapseFrom_shape false s) as (H1 & _ & H3).
  fold (collapseWhiteSpace s) in H1, H3.
  destruct (trim_sub (collapseWhiteSpace s)) as (a & b & Hab). fold r in Hab.
  split; [apply trim_idem|]. split.
  - intros c Hc. apply H1. rewrite Hab, !elem_of_app. auto.
  - change (js "  ") with [32%N; 32%N].
    destruct (includes r [32%N; 32%N]) eqn:E; [|done].
    assert (Hin : includes (collapseWhiteSpace s) [32%N; 32%N] = true).
    { eapply includes_trans; [|exact E]. rewrite Hab. apply includes_wrap. }
    congruence.
Qed.

(** ** Block quotes *)

(** X6: a block quote is rendered as nothing at all or as lines that each
    start with the quote prefix and are not blank after it. *)
Theorem blockquote_lines_are_quoted (node : ADFNode) :
  let out := convertBlockquoteToMarkdown convertAdfNodeToMarkdown node in
  out = [] \/
  Forall (fun line => startsWith line (js "> ") = true /\
                      truthy (trim (drop 2 line)) = true)
         (split 10%N out).
Proof.
  intros out. subst out. unfold convertBlockquoteToMarkdown.
  destruct (content node) as [c|]; [|by left].
  set (x := concat (map convertAdfNodeToMarkdown c)).
  set (lines := List.filter (fun line => truthy (trim line)) (split 10%N x)).
  destruct lines as [|l ls] eqn:El; [by left|]. right.
  rewrite <- El.
  assert (Hno : Forall (fun p => 10%N ∉ p)
                  (map (fun line => js "> " ++ line) lines)).
  { apply Forall_map. subst lines.
    apply Forall_forall. intros line Hin.
    apply filter_In in Hin as [Hin _].
    pose proof (split_no_sep 10%N x) as Hs.
    rewrite Forall_forall in Hs. specialize (Hs line Hin).
    simpl. apply not_elem_of_cons. split; [done|].
    apply not_elem_of_cons. split; [done|]. done. }
  rewrite split_joinWith; [|by rewrite El|exact Hno].
  apply Forall_map. subst lines.
  apply Forall_forall. intros line Hin.
  apply filter_In in Hin as [_ Ht]. simpl.
  split; [|exact Ht]. apply startsWith_spec. by exists line.
Qed.

(** ** The raw Markdown of a story *)

Lemma convertAdfNodesToMarkdown_app a b :
  convertAdfNodesToMarkdown (a ++ b)
  = convertAdfNodesToMarkdown a ++ convertAdfNodesToMarkdown b.
Proof. unfold convertAdfNodesToMarkdown. by rewrite map_app, concat_app. Qed.

Lemma convertAdfNodeToMarkdown_listItem item :
  isType item (js "listItem") = true ->
  convertAdfNodeToMarkdown item = convertAdfNodesToMarkdown (contentOf item).
Proof.
  intros Ht. apply isType_type in Ht.
  destruct item as [ty a mk tx ct]. simpl in Ht. subst ty.
  unfold contentOf. destruct ct as [c|]; reflexivity.
Qed.

(** X7: the raw Markdown that the parser stores for a story is the
    rendering of the children of the list item: the item itself is of no
    kind that the renderer knows, so that it adds no bullet of its own. *)
Theorem raw_markdown_is_the_content_of_the_item
    (toLowerCase : jsstring -> jsstring) (item : ADFNode)
    (r : ParsedShellStoryADF) :
  parseShellStoryFromListItem toLowerCase convertAdfNodesToMarkdown item
  = Ok (Some r) ->
  rawShellStoryMarkdown r = convertAdfNodesToMarkdown (contentOf item).
Proof.
  unfold parseShellStoryFromListItem.
  destruct (isType item (js "listItem")) eqn:Ht; simpl; [|done].
  destruct (hasContent item); simpl; [|done].
  destruct (extractStoryId (contentOf item)); [|done].
  destruct (extractTitleInfo (contentOf item)); [|done].
  destruct (truthy (extractDescription (contentOf item))); simpl; [|done].
  destruct (extractScreens (contentOf item)); simpl; [|done].
  destruct (extractDependencies toLowerCase (contentOf item)); simpl; [|done].
  intros [= <-]. simpl.
  unfold convertAdfNodesToMarkdown at 1. simpl. rewrite app_nil_r.
  by apply convertAdfNodeToMarkdown_listItem.
Qed.

Lemma raw_markdown_is_the_content_of_the_item_witness :
  exists r,
    parseShellStoryFromListItem asciiLower convertAdfNodesToMarkdown loginItem
    = Ok (Some r) /\
    rawShellStoryMarkdown r = convertAdfNodesToMarkdown (contentOf loginItem).
Proof.
  eexists. split; [reflexivity|].
  apply (raw_markdown_is_the_content_of_the_item asciiLower loginItem).
  reflexivity.
Defined.

(** X8: rendering commutes with the extraction of a section: the Markdown
    of the document is the Markdown of the remaining content with the
    Markdown of the section inserted at one place. *)
Theorem markdown_of_the_document_is_that_of_its_parts
    (toLowerCase : jsstring -> jsstring)
    (content : list ADFNode) (headingText : jsstring) :
  let E := extractADFSection toLowerCase content headingText in
  exists before after,
    convertAdfNodesToMarkdown (remainingContent E) = before ++ after /\
    convertAdfNodesToMarkdown content
    = before ++ convertAdfNodesToMarkdown (section E) ++ after.
Proof.
  intros E.
  destruct (extractADFSection_splits toLowerCase content headingText)
    as (i & j & Hsec & Hrem & Hij).
  fold E in Hsec, Hrem.
  exists (convertAdfNodesToMarkdown (take i content)),
         (convertAdfNodesToMarkdown (drop j content)).
  rewrite Hsec, Hrem, <- !convertAdfNodesToMarkdown_app. split; [done|].
  f_equal.
  rewrite <- (take_drop i content) at 1. f_equal.
  rewrite <- (take_drop (j - i) (drop i content)) at 1. f_equal.
  rewrite drop_drop. f_equal. lia.
Qed.

(** ** The fallback document *)

(** X9: [createFallbackAdf] always returns a document that [validateAdf]
    accepts, with at least one paragraph; a paragraph is empty or holds one
    text node whose text is not empty and has no white space at its ends. *)
Theorem fallback_document_is_valid (text : jsstring) :
  validateAdf (Some (createFallbackAdf text)) = true /\
  exists ps,
    doc_content (createFallbackAdf text) = Some ps /\ ps <> [] /\
    Forall (fun p =>
              isType p (js "paragraph") = true /\
              (content p = Some [] \/
               exists t, content p = Some [textNode t] /\
                         t <> [] /\ trim t = t)) ps.
Proof.
  unfold createFallbackAdf.
  set (paragraphs := List.filter (fun p => truthy (trim p)) (splitBlank text)).
  assert (Hps : Forall (fun p => truthy (trim p) = true) paragraphs).
  { apply Forall_forall. intros p Hp. by apply filter_In in Hp as [_ Hp]. }
  destruct paragraphs as [|p ps].
  - split; [done|]. eexists. split; [done|]. split; [done|].
    constructor; [|constructor]. split; [done|by left].
  - split; [done|]. eexists. split; [done|]. split; [done|].
    apply Forall_map. eapply Forall_impl; [|exact Hps].
    intros q Hq. simpl. split; [done|]. right. exists (trim q).
    split; [done|]. split; [|apply trim_idem].
    intros Hn. simpl in Hq. by rewrite Hn in Hq.
Qed.

Lemma splitBlankFrom_no_line_feed cur s :
  10%N ∉ s -> splitBlankFrom 0 cur s = [cur ++ s].
Proof.
  revert cur. induction s as [|c s IH]; intros cur Hs.
  - by rewrite app_nil_r.
  - cbn [splitBlankFrom]. apply not_elem_of_cons in Hs as [Hc Hs].
    destruct (N.eqb_spec c 10) as [->|_]; [done|].
    rewrite IH by done. by rewrite <- app_assoc.
Qed.

(** X27: a text without a line feed that is not blank gives a fallback
    document of one paragraph that holds the text without the white space
    at its ends, and this document is rendered as that text followed by a
    blank line. *)
Theorem one_line_gives_one_paragraph (text : jsstring) :
  10%N ∉ text -> trim text <> [] ->
  createFallbackAdf text
  = mkDoc 1 (js "doc") (Some [paragraph [textNode (trim text)]]) /\
  convertAdfToMarkdown (createFallbackAdf text) = trim text ++ [10%N; 10%N].
Proof.
  intros Hlf Hne.
  assert (Hdoc : createFallbackAdf text
            = mkDoc 1 (js "doc") (Some [paragraph [textNode (trim text)]])).
  { unfold createFallbackAdf, splitBlank.
    rewrite splitBlankFrom_no_line_feed by done. cbn [app List.filter].
    destruct (trim text) eqn:E; [done|]. cbn [truthy map]. by rewrite E. }
  split; [done|]. rewrite Hdoc.
  unfold convertAdfToMarkdown, convertAdfNodesToMarkdown.
  change (default [] (doc_content _))
    with [paragraph [textNode (trim text)]].
  cbn [map concat].
  change (convertAdfNodeToMarkdown (paragraph [textNode (trim text)]))
    with ((trim text ++ []) ++ [10%N; 10%N]).
  by rewrite !app_nil_r.
Qed.

Lemma one_line_gives_one_paragraph_witness :
  createFallbackAdf (js "  Could not convert  ")
  = mkDoc 1 (js "doc")
      (Some [paragraph [textNode (trim (js "  Could not convert  "))]]) /\
  convertAdfToMarkdown (createFallbackAdf (js "  Could not convert  "))
  = trim (js "  Could not convert  ") ++ [10%N; 10%N].
Proof.
  apply (one_line_gives_one_paragraph (js "  Could not convert  ")).
  - by apply (bool_decide_unpack _).
  - vm_compute. discriminate.
Defined.

(* ===================================================================== *)
(** * Further properties of the parser *)
(* ===================================================================== *)

Lemma foldRes_inv {A St} (I : St -> Prop) (cb : A -> St -> Res St) l s :
  I s ->
  (forall x s, x ∈ l -> I s ->
     match cb x s with Ok s' => I s' | Throw _ => True end) ->
  match foldRes cb l s with Ok s' => I s' | Throw _ => True end.
Proof.
  revert s. induction l as [|x l IH]; intros s Hs Hcb; simpl; [done|].
  pose proof (Hcb x s ltac:(left) Hs) as Hx.
  destruct (cb x s) as [s1|]; simpl; [|done].
  apply IH; [done|]. intros y s2 Hy. apply Hcb. by right.
Qed.

Lemma forEachWithContent_inv {St} (I : St -> Prop) source ty
    (cb : ADFNode -> St -> Res St) s :
  I s ->
  (forall n s, n ∈ source -> withContent ty n = true -> I s ->
     match cb n s with Ok s' => I s' | Throw _ => True end) ->
  match forEachWithContent source ty cb s with
  | Ok s' => I s' | Throw _ => True end.
Proof.
  intros Hs Hcb. rewrite forEachWithContent_foldRes.
  apply foldRes_inv; [done|].
  intros n s1 Hn. apply list_elem_of_In, filter_In in Hn as [Hn Hw].
  apply Hcb; [by apply list_elem_of_In|done].
Qed.

(** The invariant of a walk over the nested paragraphs. *)
Lemma forEachNestedParagraph_inv {St} (I : St -> Prop) c
    (cb : ADFNode -> St -> St) s :
  I s ->
  (forall p s, nestedParagraph c p -> I s -> I (cb p s)) ->
  match forEachNestedParagraph c cb s with
  | Ok s' => I s' | Throw _ => True end.
Proof.
  intros Hs Hcb. unfold forEachNestedParagraph.
  apply forEachWithContent_inv; [done|]. intros bl s1 Hbl Hwb Hs1.
  apply forEachWithContent_inv; [done|]. intros li s2 Hli Hwl Hs2.
  apply forEachWithContent_inv; [done|]. intros p s3 Hp Hwp Hs3.
  apply Hcb; [|done]. by exists bl, li.
Qed.

Lemma not_elem_of_trim (c : N) s : c ∉ s -> c ∉ trim s.
Proof.
  intros Hc Ht. apply Hc. destruct (trim_sub s) as (a & b & ->).
  rewrite !elem_of_app. auto.
Qed.

Section MoreParserFacts.
Variable toLowerCase : jsstring -> jsstring.

Lemma dependenciesOfParagraph_clean p ids :
  Forall cleanToken ids ->
  Forall cleanToken (dependenciesOfParagraph toLowerCase p ids).
Proof.
  intros Hids. unfold dependenciesOfParagraph.
  match goal with |- context [if ?b then _ else _] => destruct b end; [|done].
  match goal with |- context [if ?b then _ else _] => destruct b end; [done|].
  set (depsText := trim _).
  pose proof (split_no_sep 44%N depsText) as Hs.
  revert ids Hids. induction Hs as [|dep deps Hdep _ IH]; intros ids Hids;
    simpl; [done|].
  apply IH. destruct (truthy (trim dep)) eqn:Et; [|done].
  apply Forall_app. split; [done|]. constructor; [|constructor].
  split; [by destruct (trim dep)|]. split; [apply trim_idem|].
  by apply not_elem_of_trim.
Qed.

End MoreParserFacts.

Lemma screensOfParagraph_targets c p urls :
  nestedParagraph c p ->
  Forall (screenLink c) urls ->
  Forall (screenLink c) (screensOfParagraph p urls).
Proof.
  intros Hp Hu. unfold screensOfParagraph.
  match goal with |- context [if ?b then _ else _] => destruct b end; [|done].
  assert (Hin : forall n, n ∈ contentOf p -> n ∈ contentOf p) by done.
  revert urls Hu Hin. generalize (contentOf p) at 1 3.
  intros l. induction l as [|n l IH]; intros urls Hu Hin; simpl; [done|].
  apply IH; [|intros m Hm; apply Hin; by right].
  destruct (isType n (js "text")) eqn:Ht; simpl; [|done].
  destruct (hasMarkType n (js "link")); [|done].
  destruct (getMarkAttribute n (js "link") (js "href")) as [u|] eqn:Hg; [|done].
  destruct (truthy u) eqn:Etu; [|done].
  apply Forall_app. split; [done|]. constructor; [|constructor].
  split; [by destruct u|]. exists p, n.
  split; [done|]. split; [apply Hin; by left|done].
Qed.

Lemma extractStoryId_matches c t :
  extractStoryId c = Some t -> matches_st_digits t = true.
Proof.
  rewrite extractStoryId_firstParagraph.
  intros (pre & n & post & _ & _ & Hn & Ht)%scanStoryId_some.
  unfold isIdNode in Hn. rewrite Ht in Hn.
  by apply andb_true_iff in Hn as [_ Hn].
Qed.

Lemma extractTitleInfo_trimmed c ttl url :
  extractTitleInfo c = Some (ttl, url) -> trim ttl = ttl.
Proof.
  rewrite extractTitleInfo_firstParagraph. simpl.
  destruct (_ && _ && _); [|done]. intros [= <- _]. apply trim_idem.
Qed.

Lemma extractDescription_trimmed c :
  trim (extractDescription c) = extractDescription c.
Proof. rewrite extractDescription_firstParagraph. apply trim_idem. Qed.

(** X10: every story that the parser returns has an identifier of the form
    [st] and digits, a title without white space at its ends, and a
    description that is not empty and has no white space at its ends. *)
Theorem parsed_story_is_well_formed
    (toLowerCase : jsstring -> jsstring)
    (convertAdfNodesToMarkdown : list ADFNode -> jsstring)
    (item : ADFNode) (r : ParsedShellStoryADF) :
  parseShellStoryFromListItem toLowerCase convertAdfNodesToMarkdown item
  = Ok (Some r) ->
  matches_st_digits (id r) = true /\
  trim (title r) = title r /\
  description r <> [] /\ trim (description r) = description r.
Proof.
  unfold parseShellStoryFromListItem.
  destruct (negb _ || negb _); [done|].
  destruct (extractStoryId (contentOf item)) as [t|] eqn:Hid; [|done].
  destruct (extractTitleInfo (contentOf item)) as [[ttl url]|] eqn:Ht; [|done].
  destruct (truthy (extractDescription (contentOf item))) eqn:Hd; simpl; [|done].
  destruct (extractScreens (contentOf item)); simpl; [|done].
  destruct (extractDependencies toLowerCase (contentOf item)); simpl; [|done].
  intros [= <-]. simpl.
  split; [by eapply extractStoryId_matches|].
  split; [by eapply extractTitleInfo_trimmed|].
  split; [intros Hn; by rewrite Hn in Hd|].
  apply extractDescription_trimmed.
Qed.

Lemma parsed_story_is_well_formed_witness :
  exists r,
    parseShellStoryFromListItem asciiLower noMarkdown loginItem = Ok (Some r) /\
    (matches_st_digits (id r) = true /\
     trim (title r) = title r /\
     description r <> [] /\ trim (description r) = description r).
Proof.
  eexists. split; [reflexivity|].
  apply (parsed_story_is_well_formed asciiLower noMarkdown loginItem).
  reflexivity.
Defined.

(** X11: [extractDependencies] does not throw, and every dependency id that
    it returns is not empty, has no white space at its ends and holds no
    comma. *)
Theorem dependencies_are_clean_tokens
    (toLowerCase : jsstring -> jsstring) (itemContent : list ADFNode) :
  exists deps,
    extractDependencies toLowerCase itemContent = Ok deps /\
    Forall cleanToken deps.
Proof.
  unfold extractDependencies.
  pose proof (forEachNestedParagraph_inv (Forall cleanToken) itemContent
                (dependenciesOfParagraph toLowerCase) []) as H.
  destruct (forEachNestedParagraph_total itemContent
              (dependenciesOfParagraph toLowerCase) []) as (deps & Hd).
  rewrite Hd in H. exists deps. split; [done|].
  apply H; [constructor|].
  intros. by apply dependenciesOfParagraph_clean.
Qed.

(** X12: [extractScreens] does not throw, and every URL that it returns is
    the non-empty [href] of a link mark on a text node of a paragraph of a
    list item of a bullet list of the story's list item. *)
Theorem screens_are_link_targets (itemContent : list ADFNode) :
  exists urls,
    extractScreens itemContent = Ok urls /\
    Forall (screenLink itemContent) urls.
Proof.
  unfold extractScreens.
  pose proof (forEachNestedParagraph_inv (Forall (screenLink itemContent))
                itemContent
                screensOfParagraph []) as H.
  destruct (forEachNestedParagraph_total itemContent screensOfParagraph [])
    as (urls & Hd).
  rewrite Hd in H. exists urls. split; [done|].
  apply H; [constructor|].
  intros p s Hp Hs. by apply screensOfParagraph_targets.
Qed.

(** ** The parser on sections put end to end *)

Section Compose.
Variable toLowerCase : jsstring -> jsstring.
Variable convertAdfNodesToMarkdown : list ADFNode -> jsstring.
Abbreviation parseItem :=
  (parseShellStoryFromListItem toLowerCase convertAdfNodesToMarkdown).
Abbreviation parse :=
  (parseShellStoriesFromAdf toLowerCase convertAdfNodesToMarkdown).
Abbreviation step :=
  (fun li stories =>
     letr story := parseItem li in
     match story with
     | Some st => Ok (stories ++ [st])
     | None => Ok stories
     end).

Lemma foldRes_step_acc items acc :
  foldRes step items acc
  = letr rs := foldRes step items [] in Ok (acc ++ rs).
Proof.
  revert acc. induction items as [|li items IH]; intros acc; simpl.
  - by rewrite app_nil_r.
  - destruct (parseItem li) as [[r|]|]; simpl; [| |done].
    + rewrite (IH (acc ++ [r])), (IH [r]).
      destruct (foldRes step items []); simpl; [|done].
      by rewrite <- app_assoc.
    + apply IH.
Qed.

Lemma visitedItems_app S1 S2 :
  visitedItems (S1 ++ S2) = visitedItems S1 ++ visitedItems S2.
Proof. unfold visitedItems. by rewrite List.filter_app, flat_map_app. Qed.

End Compose.

(** X30: the parser reads the top-level nodes one after the other: the
    stories of two sections put end to end are the stories of the first
    followed by those of the second, and the first error, in this order, is
    the one that is thrown. *)
Theorem parser_reads_the_lists_one_after_the_other
    (toLowerCase : jsstring -> jsstring)
    (convertAdfNodesToMarkdown : list ADFNode -> jsstring)
    (S1 S2 : list ADFNode) :
  parseShellStoriesFromAdf toLowerCase convertAdfNodesToMarkdown (S1 ++ S2)
  = match parseShellStoriesFromAdf toLowerCase convertAdfNodesToMarkdown S1
    with
    | Throw msg => Throw msg
    | Ok stories1 =>
        match parseShellStoriesFromAdf toLowerCase convertAdfNodesToMarkdown
                S2 with
        | Throw msg => Throw msg
        | Ok stories2 => Ok (stories1 ++ stories2)
        end
    end.
Proof.
  rewrite !parse_visitedItems, visitedItems_app, foldRes_app.
  destruct (foldRes _ (visitedItems S1) []) as [stories1|]; simpl; [|done].
  rewrite foldRes_step_acc.
  by destruct (foldRes _ (visitedItems S2) []).
Qed.

(* ===================================================================== *)
(** * Further properties of the mutator: reading a marked section back *)
(* ===================================================================== *)

(** ** What a link mark changes *)

Lemma addLinkToNode_type url n : type (addLinkToNode url n) = type n.
Proof.
  unfold addLinkToNode. destruct (negb _); [done|].
  by destruct (existsb _ _).
Qed.

Lemma addLinkToNode_text url n : text (addLinkToNode url n) = text n.
Proof.
  unfold addLinkToNode. destruct (negb _); [done|].
  by destruct (existsb _ _).
Qed.

Lemma addLinkToNode_isType url n ty :
  isType (addLinkToNode url n) ty = isType n ty.
Proof. unfold isType. by rewrite addLinkToNode_type. Qed.

Lemma addLinkToNode_hasMarkType url n m :
  streq (js "link") m = false ->
  hasMarkType (addLinkToNode url n) m = hasMarkType n m.
Proof.
  intros Hm. unfold addLinkToNode. destruct (negb _); [done|].
  unfold hasMarkType.
  destruct (existsb isLinkMark _) eqn:E; simpl.
  - by destruct (marks n).
  - destruct (marks n) as [ms|]; simpl.
    + rewrite existsb_app. simpl. rewrite Hm. by rewrite !orb_false_r.
    + by rewrite Hm.
Qed.

Lemma addLinkToNode_sep url n :
  textIncludesSep (addLinkToNode url n) = textIncludesSep n.
Proof. unfold textIncludesSep. by rewrite addLinkToNode_text. Qed.

Lemma addLinkToNode_textOrEmpty url n :
  textOrEmpty (addLinkToNode url n) = textOrEmpty n.
Proof. unfold textOrEmpty. by rewrite addLinkToNode_text. Qed.

Lemma addLinkToNode_isEmText url n :
  isEmText (addLinkToNode url n) = isEmText n.
Proof.
  unfold isEmText.
  by rewrite addLinkToNode_isType, addLinkToNode_hasMarkType.
Qed.

(** A text node without a link mark gets one, with the URL. *)
Lemma addLinkToNode_link url n :
  isType n (js "text") = true -> hasMarkType n (js "link") = false ->
  hasMarkType (addLinkToNode url n) (js "link") = true /\
  getMarkAttribute (addLinkToNode url n) (js "link") (js "href") = Some url.
Proof.
  intros Ht Hl. unfold addLinkToNode. rewrite Ht. simpl.
  unfold hasMarkType, getMarkAttribute in *.
  assert (Hex : existsb isLinkMark
                  match marks n with Some ms => ms | None => [] end = false).
  { destruct (marks n) as [ms|]; [|done]. exact Hl. }
  rewrite Hex. simpl.
  set (ms := match marks n with Some ms => ms | None => [] end) in *.
  split.
  - rewrite existsb_app. simpl. apply orb_true_r.
  - clearbody ms. induction ms as [|m ms IH]; simpl; [done|].
    simpl in Hex. apply orb_false_iff in Hex as [Hm Hex].
    unfold isLinkMark in Hm. rewrite Hm. by apply IH.
Qed.

(** ** The loops of the parser on a paragraph with its title linked *)

Lemma applyMask_length {A} (f : A -> A) mask l :
  length (applyMask f mask l) = length l.
Proof.
  revert mask. induction l as [|x l IH]; intros [|b mask]; simpl; auto.
Qed.

Lemma scanStoryId_linked url mask c :
  scanStoryId (applyMask (addLinkToNode url) mask c) = scanStoryId c.
Proof.
  revert mask. induction c as [|n c IH]; intros [|b mask]; try done.
  cbn [applyMask scanStoryId].
  destruct b.
  - rewrite addLinkToNode_isType, addLinkToNode_hasMarkType,
      addLinkToNode_text by done.
    by rewrite IH.
  - by rewrite IH.
Qed.

Lemma descriptionLoop_linked url mask c fsep desc :
  descriptionLoop (applyMask (addLinkToNode url) mask c) fsep desc
  = descriptionLoop c fsep desc.
Proof.
  revert mask fsep desc.
  induction c as [|n c IH]; intros [|b mask] fsep desc; try done.
  cbn [applyMask descriptionLoop].
  destruct b.
  - rewrite !addLinkToNode_isType, addLinkToNode_sep,
      addLinkToNode_textOrEmpty, addLinkToNode_hasMarkType by done.
    by rewrite !IH.
  - by rewrite !IH.
Qed.

Lemma isEmText_linked url mask c :
  Forall (fun n => isEmText n = false) c ->
  Forall (fun n => isEmText n = false) (applyMask (addLinkToNode url) mask c).
Proof.
  intros H. revert mask. induction H as [|n c Hn Hc IH]; intros [|b mask];
    simpl; try by constructor.
  constructor; [|apply IH]. destruct b; [|done].
  by rewrite addLinkToNode_isEmText.
Qed.

Lemma titleLoop_unlinked c fid ttl u :
  Forall (fun n => hasMarkType n (js "link") = false) c ->
  scannedUrl (titleLoop c fid ttl u) = u.
Proof.
  intros H. revert fid ttl. induction H as [|n c Hn _ IH]; intros fid ttl;
    [done|].
  cbn [titleLoop].
  destruct (isType n (js "text") && hasMarkType n (js "code")); [apply IH|].
  destruct (isType n (js "text") && textIncludesSep n); [done|].
  destruct (fid && isType n (js "text")); [|apply IH].
  rewrite Hn. apply IH.
Qed.

Lemma titleLoop_url c fid ttl u u' :
  foundId (titleLoop c fid ttl u) = foundId (titleLoop c fid ttl u') /\
  foundSeparator (titleLoop c fid ttl u)
  = foundSeparator (titleLoop c fid ttl u') /\
  scannedTitle (titleLoop c fid ttl u) = scannedTitle (titleLoop c fid ttl u').
Proof.
  revert fid ttl u u'. induction c as [|n c IH]; intros fid ttl u u'; [done|].
  cbn [titleLoop].
  destruct (isType n (js "text") && hasMarkType n (js "code")); [apply IH|].
  destruct (isType n (js "text") && textIncludesSep n); [done|].
  destruct (fid && isType n (js "text")); apply IH.
Qed.

Lemma titleLoop_linked url c fid ttl u :
  Forall (fun n => hasMarkType n (js "link") = false) c ->
  titleLoop (applyMask (addLinkToNode url) (titleMask c fid) c) fid ttl u
  = let r := titleLoop c fid ttl u in
    mkTitleScan (foundId r) (foundSeparator r) (scannedTitle r)
      (if existsb (fun b => b) (titleMask c fid) then Some url else u).
Proof.
  intros H. revert fid ttl u.
  induction H as [|n c Hn Hc IH]; intros fid ttl u; [done|].
  cbn [titleMask titleLoop].
  destruct (isType n (js "text") && hasMarkType n (js "code")) eqn:E1.
  - cbn [applyMask titleLoop existsb]. rewrite E1. by rewrite IH.
  - destruct (isType n (js "text") && textIncludesSep n) eqn:E2.
    + cbn [applyMask titleLoop existsb]. by rewrite E1, E2.
    + destruct (fid && isType n (js "text")) eqn:E3.
      * cbn [applyMask titleLoop existsb].
        apply andb_true_iff in E3 as [-> Ht].
        rewrite !addLinkToNode_isType, addLinkToNode_hasMarkType,
          addLinkToNode_sep, addLinkToNode_textOrEmpty by done.
        rewrite E1, E2, Ht. simpl.
        destruct (addLinkToNode_link url n Ht Hn) as [-> ->].
        rewrite IH. simpl. rewrite Hn.
        destruct (titleLoop_url c true (ttl ++ trim (textOrEmpty n) ++ js " ")
                    (Some url) u) as (-> & -> & ->).
        by destruct (existsb _ _).
      * cbn [applyMask titleLoop existsb]. rewrite E1, E2, E3.
        rewrite IH. simpl. done.
Qed.

(** ** The loops of the parser on a paragraph with the stamp appended *)

Lemma scanStoryId_app l l' t :
  scanStoryId l = Some t -> scanStoryId (l ++ l') = Some t.
Proof.
  induction l as [|n l IH]; [done|]. cbn [app scanStoryId].
  destruct (isType n (js "text") && hasMarkType n (js "code")); [|done].
  destruct (text n) as [x|]; [|done]. by destruct (matches_st_digits x).
Qed.

Lemma titleLoop_app_found l l' fid ttl u :
  foundSeparator (titleLoop l fid ttl u) = true ->
  titleLoop (l ++ l') fid ttl u = titleLoop l fid ttl u.
Proof.
  revert fid ttl u. induction l as [|n l IH]; intros fid ttl u; [done|].
  cbn [app titleLoop].
  destruct (isType n (js "text") && hasMarkType n (js "code")); [apply IH|].
  destruct (isType n (js "text") && textIncludesSep n); [done|].
  destruct (fid && isType n (js "text")); apply IH.
Qed.

Lemma trim_app_white s w :
  Forall (fun c => isWhiteSpace c = true) w -> trim (s ++ w) = trim s.
Proof.
  intros Hw. unfold trim.
  destruct (trimStart_spec s) as (w0 & Hs & Hw0 & Hh).
  destruct (trimStart s) as [|c t] eqn:Et.
  - rewrite app_nil_r in Hs. subst s.
    assert (Hall : Forall (fun c => isWhiteSpace c = true) (w0 ++ w))
      by (by apply Forall_app).
    rewrite <- (app_nil_r (w0 ++ w)).
    by rewrite (trimStart_white (w0 ++ w) [] Hall).
  - rewrite Hs at 1. rewrite <- app_assoc, (trimStart_white w0 _ Hw0).
    rewrite (trimStart_id ((c :: t) ++ w)) by done.
    by apply trimEnd_white.
Qed.

Lemma descriptionLoop_stamp now l fsep desc :
  includes (stampText now) [SEP] = false ->
  trim (descriptionLoop
          (l ++ [textNode (js " "); markedText (stampText now) [em]])
          fsep desc)
  = trim (descriptionLoop l fsep desc).
Proof.
  intros Hnow. revert fsep desc. induction l as [|n l IH]; intros fsep desc.
  - cbn [app].
    assert (Hstamp : forall b d,
      descriptionLoop [markedText (stampText now) [em]] b d = d).
    { intros b d. cbn [descriptionLoop].
      change (isType (markedText (stampText now) [em]) (js "text")) with true.
      unfold textIncludesSep. cbn [text markedText]. rewrite Hnow.
      change (hasMarkType (markedText (stampText now) [em]) (js "em"))
        with true.
      by rewrite andb_false_r. }
    destruct fsep.
    + change (descriptionLoop (textNode (js " ") :: ?l) true desc)
        with (descriptionLoop l true (desc ++ js " " ++ trim (js " "))).
      rewrite Hstamp.
      change (trim (js " ")) with (@nil N). rewrite app_nil_r.
      apply trim_app_white. by repeat constructor.
    + change (descriptionLoop (textNode (js " ") :: ?l) false desc)
        with (descriptionLoop l false desc).
      by rewrite Hstamp.
  - cbn [app descriptionLoop].
    destruct (isType n (js "text")).
    + destruct (textIncludesSep n); [apply IH|].
      destruct (fsep && negb (hasMarkType n (js "em"))); apply IH.
    + destruct (fsep && isType n (js "hardBreak")); apply IH.
Qed.

(** ** The first paragraph of a marked list item *)

Lemma markParagraph_type url now p :
  type (markParagraph url now p) = type p.
Proof. unfold markParagraph. by destruct (content p). Qed.

Lemma findParagraph_marked url now c :
  findParagraph (updateWithContent (js "paragraph") (markParagraph url now) c)
  = (fun p => if hasContent p then markParagraph url now p else p)
    <$> findParagraph c.
Proof.
  unfold findParagraph, updateWithContent.
  induction c as [|n c IH]; [done|]. cbn [map find].
  destruct (isType n (js "paragraph")) eqn:Ht; cbn [andb].
  - destruct (hasContent n) eqn:Hc.
    + unfold isType in *. rewrite markParagraph_type, Ht. simpl.
      by rewrite Hc.
    + rewrite Ht. simpl. by rewrite Hc.
  - rewrite Ht. apply IH.
Qed.

Lemma firstParagraphNodes_marked url now c t :
  extractStoryId c = Some t ->
  firstParagraphNodes
    (updateWithContent (js "paragraph") (markParagraph url now) c)
  = appendOrUpdateTimestamp now (linkTitles url (firstParagraphNodes c)).
Proof.
  unfold extractStoryId, firstParagraphNodes.
  rewrite findParagraph_marked.
  destruct (findParagraph c) as [p|]; [|done]. simpl.
  destruct (content p) as [pc|] eqn:Hc; [|done]. intros _.
  unfold hasContent, contentOf. rewrite Hc.
  rewrite (markParagraph_linkTitles url now p pc Hc). done.
Qed.

(** ** The nested lists of a marked list item *)

Lemma paragraph_is_no_bulletList n :
  isType n (js "paragraph") = true -> isType n (js "bulletList") = false.
Proof.
  intros H%isType_type. unfold isType. rewrite H. done.
Qed.

Lemma forEachWithContent_marked {St} url now c
    (cb : ADFNode -> St -> Res St) s :
  forEachWithContent
    (updateWithContent (js "paragraph") (markParagraph url now) c)
    (js "bulletList") cb s
  = forEachWithContent c (js "bulletList") cb s.
Proof.
  unfold updateWithContent. revert s.
  induction c as [|n c IH]; intros s; [done|]. cbn [map forEachWithContent].
  destruct (isType n (js "paragraph") && hasContent n) eqn:E.
  - apply andb_true_iff in E as [Ht Hc].
    assert (isType (markParagraph url now n) (js "bulletList") = false) as ->.
    { unfold isType. rewrite markParagraph_type.
      by apply paragraph_is_no_bulletList. }
    rewrite (paragraph_is_no_bulletList n Ht). cbn [andb]. apply IH.
  - destruct (isType n (js "bulletList") && hasContent n); [|apply IH].
    destruct (cb n s); simpl; [apply IH|done].
Qed.

Lemma appendOrUpdateTimestamp_append now c :
  Forall (fun n => isEmText n = false) c ->
  appendOrUpdateTimestamp now c
  = c ++ [textNode (js " "); markedText (stampText now) [em]].
Proof.
  intros H. apply findIndex_none in H. unfold appendOrUpdateTimestamp.
  by rewrite H.
Qed.

Lemma marked_item_is_read_back
    (toLowerCase : jsstring -> jsstring)
    (convertAdfNodesToMarkdown : list ADFNode -> jsstring)
    (url now : jsstring) (li : ADFNode) (r : ParsedShellStoryADF) :
  parseShellStoryFromListItem toLowerCase convertAdfNodesToMarkdown li
  = Ok (Some r) ->
  includes (stampText now) [SEP] = false ->
  neverMarked (firstParagraphNodes (contentOf li)) ->
  exists r',
    parseShellStoryFromListItem toLowerCase convertAdfNodesToMarkdown
      (markListItem (id r) url now li) = Ok (Some r') /\
    id r' = id r /\ title r' = title r /\ description r' = description r /\
    screens r' = screens r /\ dependencies r' = dependencies r /\
    jiraUrl r = None /\
    jiraUrl r' =
      if hasTitleNode (firstParagraphNodes (contentOf li))
      then Some url else None.
Proof.
  intros Hparse Hnow Hclean. unfold neverMarked in Hclean.
  unfold hasTitleNode.
  assert (Hem : Forall (fun n => isEmText n = false)
                       (firstParagraphNodes (contentOf li)))
    by (eapply Forall_impl; [|exact Hclean]; by intros n [? ?]).
  assert (Hlink : Forall (fun n => hasMarkType n (js "link") = false)
                         (firstParagraphNodes (contentOf li)))
    by (eapply Forall_impl; [|exact Hclean]; by intros n [? ?]).
  clear Hclean.
  unfold parseShellStoryFromListItem in Hparse.
  destruct (isType li (js "listItem")) eqn:Hty; [|done].
  destruct (hasContent li) eqn:Hc; [|done]. cbn [negb orb] in Hparse.
  set (c := contentOf li) in *.
  destruct (extractStoryId c) as [sid|] eqn:Hid; [|done].
  destruct (extractTitleInfo c) as [[ttl u]|] eqn:Htitle; [|done].
  destruct (truthy (extractDescription c)) eqn:Hdesc; [|done].
  cbn [negb] in Hparse.
  destruct (extractScreens c) as [scr|] eqn:Hscr; [|done].
  destruct (extractDependencies toLowerCase c) as [deps|] eqn:Hdeps; [|done].
  simpl in Hparse. injection Hparse as <-. cbn [id title description screens
    dependencies jiraUrl].
  set (c' := updateWithContent (js "paragraph") (markParagraph url now) c).
  assert (Hli' : markListItem sid url now li = setContent li c').
  { unfold markListItem, isStory. fold c. rewrite Hid.
    by rewrite bool_decide_true. }
  rewrite Hli'.
  set (nodes := firstParagraphNodes c) in *.
  assert (Hnodes' : firstParagraphNodes c'
            = linkTitles url nodes
              ++ [textNode (js " "); markedText (stampText now) [em]]).
  { unfold c'. rewrite (firstParagraphNodes_marked url now c sid Hid).
    apply appendOrUpdateTimestamp_append. by apply isEmText_linked. }
  (* the identifier *)
  assert (Hid' : extractStoryId c' = Some sid).
  { rewrite extractStoryId_firstParagraph, Hnodes'.
    apply scanStoryId_app. unfold linkTitles. rewrite scanStoryId_linked.
    unfold nodes. by rewrite <- extractStoryId_firstParagraph. }
  (* the title *)
  rewrite extractTitleInfo_firstParagraph in Htitle. fold nodes in Htitle.
  cbv zeta in Htitle.
  destruct (foundId (titleLoop nodes false [] None)
            && foundSeparator (titleLoop nodes false [] None)
            && truthy (scannedTitle (titleLoop nodes false [] None)))
    eqn:Hfound; [|done].
  injection Htitle as <- <-.
  pose proof (titleLoop_linked url nodes false [] None Hlink) as Hlinked.
  cbv zeta in Hlinked. fold (linkTitles url nodes) in Hlinked.
  assert (Htitle' : extractTitleInfo c'
    = Some (trim (scannedTitle (titleLoop nodes false [] None)),
            if existsb (fun b => b) (titleMask nodes false)
            then Some url else None)).
  { rewrite extractTitleInfo_firstParagraph, Hnodes'. cbv zeta.
    rewrite titleLoop_app_found.
    - rewrite Hlinked. cbn [foundId foundSeparator scannedTitle scannedUrl].
      by rewrite Hfound.
    - rewrite Hlinked. cbn [foundSeparator].
      apply andb_true_iff in Hfound as [Hf _].
      by apply andb_true_iff in Hf as [_ Hf]. }
  (* the description *)
  assert (Hdesc' : extractDescription c' = extractDescription c).
  { rewrite !extractDescription_firstParagraph, Hnodes'.
    rewrite descriptionLoop_stamp by done.
    unfold linkTitles. by rewrite descriptionLoop_linked. }
  (* the nested lists *)
  assert (Hscr' : extractScreens c' = Ok scr).
  { rewrite <- Hscr. unfold extractScreens, forEachNestedParagraph, c'.
    apply forEachWithContent_marked. }
  assert (Hdeps' : extractDependencies toLowerCase c' = Ok deps).
  { rewrite <- Hdeps. unfold extractDependencies, forEachNestedParagraph, c'.
    apply forEachWithContent_marked. }
  eexists. split.
  - unfold parseShellStoryFromListItem.
    assert (isType (setContent li c') (js "listItem") = true) as -> by done.
    assert (hasContent (setContent li c') = true) as -> by done.
    cbn [negb orb].
    assert (contentOf (setContent li c') = c') as -> by done.
    rewrite Hid', Htitle', Hdesc', Hdesc. cbn [negb].
    rewrite Hscr', Hdeps'. simpl. reflexivity.
  - cbn [id title description screens dependencies jiraUrl fst snd].
    repeat split; try done.
    by rewrite (titleLoop_unlinked nodes false [] None Hlink).
Qed.

(** ** The visited items of a marked section *)

Lemma filter_map_same {A} (p : A -> bool) (g : A -> A) l :
  (forall x, p (g x) = p x) ->
  List.filter p (map g l) = map g (List.filter p l).
Proof.
  intros Hp. induction l as [|x l IH]; simpl; [done|].
  rewrite Hp. destruct (p x); simpl; by rewrite IH.
Qed.

Lemma map_filter_ext {A B} (p : A -> bool) (g h : A -> B) l :
  (forall x, p x = true -> g x = h x) ->
  map g (List.filter p l) = map h (List.filter p l).
Proof.
  intros Hg. induction l as [|x l IH]; simpl; [done|].
  destruct (p x) eqn:E; simpl; [|done]. by rewrite Hg, IH.
Qed.

Lemma withContent_setContent ty n c :
  withContent ty (setContent n c) = isType n ty.
Proof. unfold withContent, isType. simpl. apply andb_true_r. Qed.

Lemma withContent_markListItem storyId url now li :
  withContent (js "listItem") (markListItem storyId url now li)
  = withContent (js "listItem") li.
Proof.
  unfold markListItem. destruct (isStory storyId li) eqn:E; [|done].
  rewrite withContent_setContent. unfold withContent.
  unfold isStory in E. apply bool_decide_eq_true in E.
  unfold hasContent, contentOf in *.
  destruct (content li); [by rewrite andb_true_r|done].
Qed.

Lemma items_of_marked_bulletList storyId url now bl :
  withContent (js "bulletList") bl = true ->
  List.filter (withContent (js "listItem"))
    (contentOf (if isType bl (js "bulletList") && hasContent bl
                then markBulletList storyId url now bl else bl))
  = map (markListItem storyId url now)
        (List.filter (withContent (js "listItem")) (contentOf bl)).
Proof.
  intros E. unfold withContent in E. rewrite E.
  unfold markBulletList. cbn [contentOf setContent content].
  unfold updateWithContent.
  rewrite filter_map_same.
  2:{ intros li. fold (withContent (js "listItem") li).
      destruct (withContent (js "listItem") li) eqn:E'; [|done].
      by rewrite withContent_markListItem. }
  apply map_filter_ext. intros li Hli.
  unfold withContent in Hli. by rewrite Hli.
Qed.

Lemma visitedItems_marked now S storyId url :
  visitedItems
    (updateWithContent (js "bulletList") (markBulletList storyId url now) S)
  = map (markListItem storyId url now) (visitedItems S).
Proof.
  unfold visitedItems, updateWithContent.
  rewrite filter_map_same.
  2:{ intros bl. fold (withContent (js "bulletList") bl).
      destruct (withContent (js "bulletList") bl) eqn:E; [|done].
      unfold markBulletList. rewrite withContent_setContent.
      unfold withContent in E. by apply andb_true_iff in E as [-> _]. }
  assert (Hall : Forall (fun bl => withContent (js "bulletList") bl = true)
                   (List.filter (withContent (js "bulletList")) S)).
  { apply Forall_forall. intros bl Hbl. by apply filter_In in Hbl as [_ ?]. }
  induction Hall as [|bl l Hbl _ IH]; [done|].
  cbn [map flat_map]. rewrite map_app, <- IH. f_equal.
  by apply items_of_marked_bulletList.
Qed.

(** ** The parser, item by item *)

Section RoundTrip.
Variable toLowerCase : jsstring -> jsstring.
Variable convertAdfNodesToMarkdown : list ADFNode -> jsstring.
Abbreviation parseItem :=
  (parseShellStoryFromListItem toLowerCase convertAdfNodesToMarkdown).
Abbreviation parse :=
  (parseShellStoriesFromAdf toLowerCase convertAdfNodesToMarkdown).
Abbreviation step :=
  (fun li stories =>
     letr story := parseItem li in
     match story with
     | Some st => Ok (stories ++ [st])
     | None => Ok stories
     end).

Lemma parseItem_some li :
  withContent (js "listItem") li = true -> parseItem li <> Ok None.
Proof.
  intros Hv. pose proof (parseItem_visited toLowerCase
                           convertAdfNodesToMarkdown li Hv) as H.
  destruct (itemError li); [by rewrite H|].
  destruct H as (r & -> & _). done.
Qed.

Lemma foldRes_items items acc stories :
  (forall li, li ∈ items -> withContent (js "listItem") li = true) ->
  foldRes step items acc = Ok stories ->
  exists rs, stories = acc ++ rs /\
             Forall2 (fun li r => parseItem li = Ok (Some r)) items rs.
Proof.
  revert acc. induction items as [|li items IH]; intros acc Hv; simpl.
  - intros [= <-]. exists []. by rewrite app_nil_r.
  - pose proof (parseItem_some li (Hv li ltac:(left))) as Hs.
    destruct (parseItem li) as [[r|]|] eqn:Hp; [|done|done]. simpl.
    intros (rs & -> & Hrs)%IH; [|intros x Hx; apply Hv; by right].
    exists (r :: rs). split; [by rewrite <- app_assoc|by constructor].
Qed.

Lemma foldRes_items_back items acc rs :
  Forall2 (fun li r => parseItem li = Ok (Some r)) items rs ->
  foldRes step items acc = Ok (acc ++ rs).
Proof.
  intros H. revert acc. induction H as [|li r items rs Hp _ IH]; intros acc;
    simpl.
  - by rewrite app_nil_r.
  - rewrite Hp. simpl. rewrite IH. by rewrite <- app_assoc.
Qed.


Lemma parseItem_id li r :
  parseItem li = Ok (Some r) -> extractStoryId (contentOf li) = Some (id r).
Proof.
  unfold parseShellStoryFromListItem.
  destruct (negb _ || negb _); [done|].
  destruct (extractStoryId (contentOf li)) as [t|]; [|done].
  destruct (extractTitleInfo (contentOf li)); [|done].
  destruct (negb _); [done|].
  destruct (extractScreens _); [|done].
  destruct (extractDependencies _ _); [|done].
  simpl. by intros [= <-].
Qed.

Lemma items_read_back now storyId url items stories :
  includes (stampText now) [SEP] = false ->
  (forall li, li ∈ items -> isStory storyId li = true ->
     neverMarked (firstParagraphNodes (contentOf li))) ->
  Forall2 (fun li r => parseItem li = Ok (Some r)) items stories ->
  exists stories',
    Forall2 (fun li r => parseItem li = Ok (Some r))
            (map (markListItem storyId url now) items) stories' /\
    Forall2 (fun x r' => readBack storyId url x.1 x.2 r')
            (zip items stories) stories'.
Proof.
  intros Hnow Hclean H.
  induction H as [|li r items stories Hp _ IH].
  - exists []. split; constructor.
  - destruct IH as (stories' & H1 & H2);
      [intros x Hx; apply Hclean; by right|].
    pose proof (parseItem_id li r Hp) as Hid.
    destruct (decide (id r = storyId)) as [Heq|Hne].
    + assert (Hst : isStory storyId li = true).
      { unfold isStory. rewrite Hid, Heq. by apply bool_decide_eq_true. }
      destruct (marked_item_is_read_back toLowerCase
                  convertAdfNodesToMarkdown url now li r Hp Hnow
                  (Hclean li ltac:(left) Hst))
        as (r' & Hp' & Hi & Ht & Hd & Hs & Hdp & _ & Hu).
      rewrite Heq in Hp'.
      exists (r' :: stories'). split; constructor; try done.
      unfold readBack. simpl. rewrite bool_decide_true by done. done.
    + assert (Hst : markListItem storyId url now li = li).
      { unfold markListItem, isStory. rewrite Hid.
        rewrite bool_decide_false; [done|]. by intros [= ?]. }
      exists (r :: stories'). split; constructor; try done.
      * by rewrite Hst.
      * unfold readBack. simpl. by rewrite bool_decide_false.
Qed.

End RoundTrip.

(** X22: reading a marked section back. When the section parses, the
    timestamp holds no separator glyph, and the first paragraph of every
    list item of the story was never marked (no italic text node, no link),
    the marked section parses again, to one story for each story of before,
    in the same order: a story with another identifier is the same, and a
    marked story has the same identifier, title, description, screens and
    dependencies; its URL is the issue URL when its paragraph has a title
    node, and it has no URL otherwise. *)
Theorem marked_section_is_read_back
    (toLowerCase : jsstring -> jsstring)
    (convertAdfNodesToMarkdown : list ADFNode -> jsstring)
    (now : jsstring) (S S' : list ADFNode)
    (storyId issueKey issueUrl : jsstring)
    (stories : list ParsedShellStoryADF) :
  parseShellStoriesFromAdf toLowerCase convertAdfNodesToMarkdown S
  = Ok stories ->
  addCompletionMarkerToShellStory now S storyId issueKey issueUrl = Ok S' ->
  includes (stampText now) [SEP] = false ->
  (forall li, li ∈ visitedItems S -> isStory storyId li = true ->
     neverMarked (firstParagraphNodes (contentOf li))) ->
  exists stories',
    parseShellStoriesFromAdf toLowerCase convertAdfNodesToMarkdown S'
    = Ok stories' /\
    Forall2 (fun x r' => readBack storyId issueUrl x.1 x.2 r')
            (zip (visitedItems S) stories) stories'.
Proof.
  intros Hparse Hmark Hnow Hclean.
  unfold addCompletionMarkerToShellStory in Hmark.
  destruct (storyFound storyId S); [|done]. injection Hmark as <-.
  rewrite parse_visitedItems in Hparse.
  apply foldRes_items in Hparse as (rs & -> & Hrs);
    [|apply visitedItems_withContent].
  destruct (items_read_back toLowerCase convertAdfNodesToMarkdown now storyId
              issueUrl (visitedItems S) rs Hnow Hclean Hrs)
    as (stories' & H1 & H2).
  exists stories'. split; [|done].
  rewrite parse_visitedItems, visitedItems_marked.
  by rewrite (foldRes_items_back toLowerCase convertAdfNodesToMarkdown _ []
                stories' H1).
Qed.

Lemma marked_section_is_read_back_witness :
  exists S' stories,
    addCompletionMarkerToShellStory sampleNow [bulletList [loginItem]]
      (js "st001") sampleKey sampleUrl = Ok S' /\
    parseShellStoriesFromAdf asciiLower noMarkdown [bulletList [loginItem]]
    = Ok stories /\
    exists stories',
      parseShellStoriesFromAdf asciiLower noMarkdown S' = Ok stories' /\
      Forall2 (fun x r' => readBack (js "st001") sampleUrl x.1 x.2 r')
              (zip (visitedItems [bulletList [loginItem]]) stories) stories'.
Proof.
  eexists _, _. split; [reflexivity|]. split; [reflexivity|].
  apply (marked_section_is_read_back asciiLower noMarkdown sampleNow
           [bulletList [loginItem]] _ (js "st001") sampleKey sampleUrl).
  - reflexivity.
  - reflexivity.
  - reflexivity.
  - intros li Hli _. apply list_elem_of_In in Hli. simpl in Hli.
    destruct Hli as [<-|[]]. vm_compute. repeat constructor.
Defined.

(** X23: a story that was never marked is read as unwritten; after the
    marking of its list item it is read as written exactly when its
    paragraph has a text node between the identifier and the text node of
    the separator (the only nodes that receive the link) and the URL is not
    empty. A title that stands in the text node of the separator gets no
    link. *)
Theorem marked_story_is_written_iff_it_has_a_title_node
    (toLowerCase : jsstring -> jsstring)
    (convertAdfNodesToMarkdown : list ADFNode -> jsstring)
    (url now : jsstring) (li : ADFNode) (r : ParsedShellStoryADF) :
  parseShellStoryFromListItem toLowerCase convertAdfNodesToMarkdown li
  = Ok (Some r) ->
  includes (stampText now) [SEP] = false ->
  neverMarked (firstParagraphNodes (contentOf li)) ->
  unwritten r = true /\
  exists r',
    parseShellStoryFromListItem toLowerCase convertAdfNodesToMarkdown
      (markListItem (id r) url now li) = Ok (Some r') /\
    unwritten r'
    = negb (hasTitleNode (firstParagraphNodes (contentOf li)) && truthy url).
Proof.
  intros Hp Hnow Hclean.
  destruct (marked_item_is_read_back toLowerCase convertAdfNodesToMarkdown
              url now li r Hp Hnow Hclean)
    as (r' & Hp' & _ & _ & _ & _ & _ & Hu & Hu').
  split; [unfold unwritten; by rewrite Hu|].
  exists r'. split; [done|]. unfold unwritten. rewrite Hu'.
  destruct (hasTitleNode _); [|done]. simpl. done.
Qed.

Lemma marked_story_is_written_iff_it_has_a_title_node_witness :
  let bare := listItem [paragraph [ markedText (js "st001") [code];
                                    textNode (js " Login " ++ [SEP] ++ js " desc") ]] in
  exists r,
    parseShellStoryFromListItem asciiLower noMarkdown bare = Ok (Some r) /\
    unwritten r = true /\
    exists r',
      parseShellStoryFromListItem asciiLower noMarkdown
        (markListItem (id r) sampleUrl sampleNow bare) = Ok (Some r') /\
      unwritten r'
      = negb (hasTitleNode (firstParagraphNodes (contentOf bare))
              && truthy sampleUrl).
Proof.
  intros bare. eexists. split; [reflexivity|].
  apply (marked_story_is_written_iff_it_has_a_title_node asciiLower noMarkdown
           sampleUrl sampleNow bare).
  - reflexivity.
  - reflexivity.
  - vm_compute. repeat constructor.
Defined.

(** X20: what [appendOrUpdateTimestamp] does to the content of a
    paragraph: when no text node is in italics, a plain space and the
    timestamp in italics are appended; otherwise the text of the first text
    node in italics is replaced by the timestamp and nothing else
    changes. *)
Theorem timestamp_is_appended_or_first_emphasis_is_overwritten
    (now : jsstring) (c : list ADFNode) :
  (Forall (fun n => isEmText n = false) c /\
   appendOrUpdateTimestamp now c
   = c ++ [textNode (js " "); markedText (stampText now) [em]])
  \/
  (exists i n,
     c !! i = Some n /\ isEmText n = true /\
     Forall (fun m => isEmText m = false) (take i c) /\
     appendOrUpdateTimestamp now c = <[i := setText n (stampText now)]> c).
Proof. apply appendOrUpdateTimestamp_cases. Qed.

(** X21: the frame of the mutator. The result has the top-level nodes of
    the input, in number and type; a node that is not a bullet list with a
    content is the same; a bullet list keeps the number and the types of its
    items, and an item that is not a list item with a content and the
    identifier of the story is the same. *)
Theorem marking_touches_only_the_story
    (now : jsstring) (S S' : list ADFNode)
    (storyId issueKey issueUrl : jsstring) :
  addCompletionMarkerToShellStory now S storyId issueKey issueUrl = Ok S' ->
  length S' = length S /\
  forall i n n',
    S !! i = Some n -> S' !! i = Some n' ->
    type n' = type n /\
    (withContent (js "bulletList") n = false -> n' = n) /\
    length (contentOf n') = length (contentOf n) /\
    forall k li li',
      contentOf n !! k = Some li -> contentOf n' !! k = Some li' ->
      type li' = type li /\
      (withContent (js "listItem") li && isStory storyId li = false ->
       li' = li).
Proof.
  unfold addCompletionMarkerToShellStory.
  destruct (storyFound storyId S); [|done]. intros [= <-].
  unfold updateWithContent. split; [by rewrite length_map|].
  intros i n n' Hn Hn'. rewrite list_lookup_fmap, Hn in Hn'.
  injection Hn' as <-. fold (withContent (js "bulletList") n).
  destruct (withContent (js "bulletList") n) eqn:E.
  - unfold markBulletList, updateWithContent.
    cbn [type setContent contentOf content].
    split; [done|]. split; [done|]. split; [by rewrite length_map|].
    intros k li li' Hli Hli'. rewrite list_lookup_fmap in Hli'.
    fold (contentOf n) in Hli'. rewrite Hli in Hli'. injection Hli' as <-.
    fold (withContent (js "listItem") li).
    destruct (withContent (js "listItem") li) eqn:El.
    + unfold markListItem. destruct (isStory storyId li); [|done].
      split; [done|]. done.
    + done.
  - split; [done|]. split; [done|]. split; [done|].
    intros k li li' Hli Hli'.
    rewrite Hli in Hli'. by injection Hli' as <-.
Qed.

Lemma marking_touches_only_the_story_witness :
  exists S',
    addCompletionMarkerToShellStory sampleNow unknownDoc (js "st001")
      sampleKey sampleUrl = Ok S' /\
    length S' = length unknownDoc /\
    forall i n n',
      unknownDoc !! i = Some n -> S' !! i = Some n' ->
      type n' = type n /\
      (withContent (js "bulletList") n = false -> n' = n) /\
      length (contentOf n') = length (contentOf n) /\
      forall k li li',
        contentOf n !! k = Some li -> contentOf n' !! k = Some li' ->
        type li' = type li /\
        (withContent (js "listItem") li && isStory (js "st001") li = false ->
         li' = li).
Proof.
  eexists. split; [reflexivity|].
  apply (marking_touches_only_the_story sampleNow unknownDoc _ (js "st001")
           sampleKey sampleUrl).
  reflexivity.
Defined.

(** ** Which stories can be marked *)

(** X28: for a section that parses, [addCompletionMarkerToShellStory]
    succeeds exactly for the identifiers of the parsed stories: in the
    workflow, where the story to mark comes from the parse of the same
    section, the error of the missing story cannot occur. *)
Theorem parsed_stories_are_the_ones_that_can_be_marked
    (toLowerCase : jsstring -> jsstring)
    (convertAdfNodesToMarkdown : list ADFNode -> jsstring)
    (now : jsstring) (S : list ADFNode)
    (storyId issueKey issueUrl : jsstring)
    (stories : list ParsedShellStoryADF) :
  parseShellStoriesFromAdf toLowerCase convertAdfNodesToMarkdown S
  = Ok stories ->
  ((exists S', addCompletionMarkerToShellStory now S storyId issueKey issueUrl
               = Ok S')
   <-> storyId ∈ map id stories).
Proof.
  intros Hparse. rewrite parse_visitedItems in Hparse.
  apply foldRes_items in Hparse as (rs & -> & Hrs);
    [|apply visitedItems_withContent].
  cbn [app]. unfold addCompletionMarkerToShellStory.
  rewrite HeapFacts.storyFound_visitedItems.
  assert (Hiff : existsb (isStory storyId) (visitedItems S) = true
                 <-> storyId ∈ map id rs).
  { induction Hrs as [|li r items rs Hp _ IH]; simpl.
    - split; [done|]. by intros ?%elem_of_nil.
    - rewrite orb_true_iff, IH, elem_of_cons.
      apply parseItem_id in Hp. unfold isStory. rewrite Hp.
      rewrite bool_decide_eq_true. split.
      + intros [[= ->]|?]; auto.
      + intros [->|?]; auto. }
  destruct (existsb (isStory storyId) (visitedItems S)).
  - split; [intros _; by apply Hiff|by eexists].
  - split; [by intros (S' & ?)|]. intros Hin. by apply Hiff in Hin.
Qed.

Lemma parsed_stories_are_the_ones_that_can_be_marked_witness :
  (exists S', addCompletionMarkerToShellStory sampleNow
                [bulletList [loginItem]] (js "st001") sampleKey sampleUrl
              = Ok S')
  <-> js "st001" ∈ map id [mkStory (js "st001") (js "Login Story")
                             (js "User can log in") None [] [] []].
Proof.
  apply (parsed_stories_are_the_ones_that_can_be_marked asciiLower noMarkdown
           sampleNow [bulletList [loginItem]] (js "st001") sampleKey sampleUrl).
  reflexivity.
Defined.

(** ** Marking twice *)

Lemma setMarks_same n ms : marks n = Some ms -> setMarks n ms = n.
Proof. destruct n. simpl. by intros ->. Qed.

Lemma setText_same n t : text n = Some t -> setText n t = n.
Proof. destruct n. simpl. by intros ->. Qed.

Lemma addLinkToNode_idem url n :
  addLinkToNode url (addLinkToNode url n) = addLinkToNode url n.
Proof.
  destruct n as [ty a mk tx ct]. unfold addLinkToNode, isType.
  cbn [type marks].
  destruct (streq ty (js "text")) eqn:Ht; cbn [negb];
    [|cbn [type]; by rewrite Ht].
  set (ms := match mk with Some ms => ms | None => [] end).
  destruct (existsb isLinkMark ms) eqn:E; cbn [setMarks type marks].
  - by rewrite Ht, E.
  - rewrite Ht. cbn [negb]. rewrite existsb_app. cbn [existsb].
    assert (isLinkMark (linkMark url) = true) as -> by done.
    by rewrite orb_true_r.
Qed.

Lemma titleMask_linked url mask c b :
  titleMask (applyMask (addLinkToNode url) mask c) b = titleMask c b.
Proof.
  revert mask b. induction c as [|n c IH]; intros [|m mask] b; try done.
  cbn [applyMask titleMask]. destruct m.
  - rewrite !addLinkToNode_isType, addLinkToNode_hasMarkType,
      addLinkToNode_sep by done.
    by rewrite !IH.
  - by rewrite !IH.
Qed.

Lemma titleMask_app_sep c extra b :
  existsb isSepNode c = true -> titleMask (c ++ extra) b = titleMask c b.
Proof.
  revert b. induction c as [|n c IH]; intros b; [done|].
  cbn [existsb app titleMask]. unfold isSepNode at 1, isCodeText.
  destruct (isType n (js "text") && hasMarkType n (js "code")) eqn:E1;
    cbn [negb andb orb].
  - intros H. by rewrite IH.
  - destruct (isType n (js "text")) eqn:Ht; cbn [andb].
    + destruct (textIncludesSep n); [done|]. cbn [orb].
      intros H. destruct (b && true); by rewrite IH.
    + cbn [orb]. intros H. rewrite andb_false_r. by rewrite IH.
Qed.

Lemma titleMask_no_code c :
  existsb isCodeText c = false ->
  Forall (fun b => b = false) (titleMask c false).
Proof.
  induction c as [|n c IH]; [constructor|].
  cbn [existsb titleMask]. unfold isCodeText at 1.
  destruct (isType n (js "text") && hasMarkType n (js "code")); [done|].
  cbn [orb]. intros H.
  destruct (isType n (js "text") && textIncludesSep n); [constructor|].
  cbn [andb]. constructor; [done|by apply IH].
Qed.

Lemma applyMask_false {A} (f : A -> A) mask l :
  Forall (fun b => b = false) mask -> applyMask f mask l = l.
Proof.
  intros H. revert l. induction H as [|b mask -> _ IH]; intros [|x l];
    try done.
  cbn [applyMask]. by rewrite IH.
Qed.

Lemma applyMask_idem url mask c :
  applyMask (addLinkToNode url) mask (applyMask (addLinkToNode url) mask c)
  = applyMask (addLinkToNode url) mask c.
Proof.
  revert mask. induction c as [|n c IH]; intros [|b mask]; try done.
  cbn [applyMask]. rewrite IH. destruct b; [|done].
  by rewrite addLinkToNode_idem.
Qed.

Lemma applyMask_app {A} (f : A -> A) mask l extra :
  length mask <= length l ->
  applyMask f mask (l ++ extra) = applyMask f mask l ++ extra.
Proof.
  revert mask. induction l as [|x l IH]; intros [|b mask] Hlen.
  - by destruct extra.
  - simpl in Hlen. lia.
  - done.
  - cbn [app applyMask]. rewrite IH; [done|]. simpl in Hlen. lia.
Qed.

Lemma titleMask_length c b : length (titleMask c b) <= length c.
Proof.
  revert b. induction c as [|n c IH]; intros b; [done|].
  cbn [titleMask].
  destruct (_ && _); [simpl; specialize (IH true); lia|].
  destruct (_ && _); [simpl; lia|].
  destruct (_ && _); simpl; specialize (IH b); lia.
Qed.

Lemma existsb_isCodeText_linked url mask c :
  existsb isCodeText (applyMask (addLinkToNode url) mask c)
  = existsb isCodeText c.
Proof.
  revert mask. induction c as [|n c IH]; intros [|b mask]; try done.
  cbn [applyMask existsb]. rewrite IH. destruct b; [|done].
  unfold isCodeText.
  by rewrite addLinkToNode_isType, addLinkToNode_hasMarkType.
Qed.

Lemma existsb_isSepNode_linked url mask c :
  existsb isSepNode (applyMask (addLinkToNode url) mask c)
  = existsb isSepNode c.
Proof.
  revert mask. induction c as [|n c IH]; intros [|b mask]; try done.
  cbn [applyMask existsb]. rewrite IH. destruct b; [|done].
  unfold isSepNode, isCodeText.
  by rewrite !addLinkToNode_isType, addLinkToNode_hasMarkType,
    addLinkToNode_sep.
Qed.

(** Linking the titles of a stamped paragraph again changes nothing. *)
Lemma linkTitles_stamped url now c :
  stableParagraph c ->
  let c1 := linkTitles url c
            ++ [textNode (js " "); markedText (stampText now) [em]] in
  linkTitles url c1 = c1.
Proof.
  intros [Hem Hshape] c1. subst c1. unfold linkTitles.
  set (lt := applyMask (addLinkToNode url) (titleMask c false) c).
  destruct Hshape as [Hsep|Hcode].
  - assert (Hsep' : existsb isSepNode lt = true).
    { subst lt. by rewrite existsb_isSepNode_linked. }
    rewrite (titleMask_app_sep lt _ false Hsep').
    subst lt. rewrite titleMask_linked.
    rewrite applyMask_app.
    + by rewrite applyMask_idem.
    + rewrite applyMask_length. apply titleMask_length.
  - assert (Hlt : lt = c).
    { subst lt. apply applyMask_false. by apply titleMask_no_code. }
    rewrite Hlt. apply applyMask_false. apply titleMask_no_code.
    rewrite existsb_app, Hcode. done.
Qed.

Lemma findIndex_app_none {A} (p : A -> bool) l l' :
  Forall (fun x => p x = false) l ->
  findIndex p (l ++ l') = (fun i => length l + i) <$> findIndex p l'.
Proof.
  induction 1 as [|x l Hx _ IH]; simpl.
  - by destruct (findIndex p l').
  - rewrite Hx, IH. by destruct (findIndex p l').
Qed.

Lemma appendOrUpdateTimestamp_stamped now c :
  Forall (fun n => isEmText n = false) c ->
  let c1 := c ++ [textNode (js " "); markedText (stampText now) [em]] in
  appendOrUpdateTimestamp now c1 = c1.
Proof.
  intros Hem c1. subst c1. unfold appendOrUpdateTimestamp.
  rewrite (findIndex_app_none isEmText c _ Hem).
  change (findIndex isEmText
            [textNode (js " "); markedText (stampText now) [em]])
    with (Some 1). cbn [fmap option_fmap option_map].
  rewrite alter_app_r. f_equal.
Qed.

Lemma markParagraph_twice url now p :
  (forall c, content p = Some c -> stableParagraph c) ->
  markParagraph url now (markParagraph url now p) = markParagraph url now p.
Proof.
  intros Hst. destruct (content p) as [c|] eqn:Hc.
  - specialize (Hst c eq_refl). pose proof Hst as [Hem _].
    rewrite (markParagraph_linkTitles url now p c Hc).
    rewrite (appendOrUpdateTimestamp_append now (linkTitles url c))
      by (by apply isEmText_linked).
    set (c1 := linkTitles url c ++ _).
    rewrite (markParagraph_linkTitles url now (setContent p c1) c1 eq_refl).
    pose proof (linkTitles_stamped url now c Hst) as H1.
    pose proof (appendOrUpdateTimestamp_stamped now (linkTitles url c)
                  (isEmText_linked url _ c Hem)) as H2.
    cbv zeta in H1, H2. fold (linkTitles url c) in H2. fold c1 in H1, H2.
    rewrite H1, H2. reflexivity.
  - unfold markParagraph. rewrite Hc. by rewrite Hc.
Qed.

Lemma findParagraph_some c p :
  findParagraph c = Some p -> p ∈ c /\ isType p (js "paragraph") = true.
Proof.
  unfold findParagraph. intros H. apply find_some in H as [Hin Ht].
  split; [by apply list_elem_of_In|done].
Qed.

Lemma extractStoryId_marked url now c t :
  extractStoryId c = Some t ->
  Forall (fun n => isEmText n = false) (firstParagraphNodes c) ->
  extractStoryId
    (updateWithContent (js "paragraph") (markParagraph url now) c) = Some t.
Proof.
  intros Hid Hem.
  rewrite extractStoryId_firstParagraph.
  rewrite (firstParagraphNodes_marked url now c t Hid).
  rewrite appendOrUpdateTimestamp_append by (by apply isEmText_linked).
  apply scanStoryId_app. unfold linkTitles. rewrite scanStoryId_linked.
  by rewrite <- extractStoryId_firstParagraph.
Qed.

Lemma stableItem_first li :
  stableItem li ->
  Forall (fun n => isEmText n = false) (firstParagraphNodes (contentOf li)).
Proof.
  intros Hst. unfold firstParagraphNodes.
  destruct (findParagraph (contentOf li)) as [p|] eqn:Hp; [|constructor].
  apply findParagraph_some in Hp as [Hin Ht].
  unfold contentOf at 1. destruct (content p) as [c|] eqn:Hc; [|constructor].
  by destruct (Hst p c Hin Ht Hc).
Qed.

Lemma markListItem_isStory storyId url now li :
  isStory storyId li = true -> stableItem li ->
  isStory storyId (markListItem storyId url now li) = true.
Proof.
  intros Hs Hst. unfold markListItem. rewrite Hs.
  unfold isStory in *. apply bool_decide_eq_true in Hs.
  apply bool_decide_eq_true. cbn [contentOf setContent content].
  apply extractStoryId_marked; [done|]. by apply stableItem_first.
Qed.

Lemma setContent_setContent n c c' :
  setContent (setContent n c) c' = setContent n c'.
Proof. done. Qed.

Lemma contentOf_setContent n c : contentOf (setContent n c) = c.
Proof. done. Qed.

Lemma map_idem {A} (g : A -> A) l :
  (forall x, x ∈ l -> g (g x) = g x) -> map g (map g l) = map g l.
Proof.
  intros H. rewrite map_map. apply map_ext_in. intros x Hx.
  apply H. by apply list_elem_of_In.
Qed.

Lemma markListItem_twice storyId url now li :
  (isStory storyId li = true -> stableItem li) ->
  markListItem storyId url now (markListItem storyId url now li)
  = markListItem storyId url now li.
Proof.
  intros Hst. destruct (isStory storyId li) eqn:Hs.
  - specialize (Hst eq_refl).
    pose proof (markListItem_isStory storyId url now li Hs Hst) as Hs'.
    unfold markListItem at 1. rewrite Hs'.
    unfold markListItem. rewrite Hs.
    rewrite setContent_setContent, contentOf_setContent. f_equal.
    unfold updateWithContent. apply map_idem. intros p Hp.
    destruct (isType p (js "paragraph") && hasContent p) eqn:E; [|by rewrite E].
    apply andb_true_iff in E as [Ht Hc].
    assert (isType (markParagraph url now p) (js "paragraph") = true) as ->.
    { unfold isType. by rewrite markParagraph_type. }
    assert (hasContent (markParagraph url now p) = true) as ->.
    { unfold markParagraph, hasContent in *. by destruct (content p). }
    cbn [andb]. apply markParagraph_twice. intros c Hcp.
    by apply (Hst p c).
  - unfold markListItem. rewrite Hs. by rewrite Hs.
Qed.

Lemma markBulletList_twice storyId url now bl :
  (forall li, li ∈ contentOf bl -> withContent (js "listItem") li = true ->
              isStory storyId li = true -> stableItem li) ->
  markBulletList storyId url now (markBulletList storyId url now bl)
  = markBulletList storyId url now bl.
Proof.
  intros Hst. unfold markBulletList.
  rewrite setContent_setContent, contentOf_setContent. f_equal.
  unfold updateWithContent. apply map_idem. intros li Hli.
  fold (withContent (js "listItem") li).
  destruct (withContent (js "listItem") li) eqn:El.
  - fold (withContent (js "listItem") (markListItem storyId url now li)).
    rewrite withContent_markListItem, El.
    apply markListItem_twice. by apply Hst.
  - fold (withContent (js "listItem") li). by rewrite El.
Qed.

(** X29: marking twice is marking once, for the same reading of the
    clock, when every paragraph of the list items of the story has no text
    node in italics and has the text node of a separator or no code-marked
    text node: the second marking of the marked section succeeds and
    returns the marked section as it is. *)
Theorem marking_twice_is_marking_once
    (now : jsstring) (S S1 : list ADFNode)
    (storyId issueKey issueUrl : jsstring) :
  addCompletionMarkerToShellStory now S storyId issueKey issueUrl = Ok S1 ->
  (forall li, li ∈ visitedItems S -> isStory storyId li = true ->
              stableItem li) ->
  addCompletionMarkerToShellStory now S1 storyId issueKey issueUrl = Ok S1.
Proof.
  unfold addCompletionMarkerToShellStory. intros Hmark Hst.
  destruct (storyFound storyId S) eqn:Hfound; [|done].
  injection Hmark as <-.
  set (S1 := updateWithContent (js "bulletList")
               (markBulletList storyId issueUrl now) S).
  assert (Hfound1 : storyFound storyId S1 = true).
  { rewrite HeapFacts.storyFound_visitedItems in *. unfold S1.
    rewrite visitedItems_marked.
    apply existsb_exists in Hfound as (li & Hli & Hs).
    apply existsb_exists. exists (markListItem storyId issueUrl now li).
    split; [by apply in_map|].
    apply markListItem_isStory; [done|].
    apply Hst; [by apply list_elem_of_In|done]. }
  rewrite Hfound1. f_equal.
  unfold S1, updateWithContent. apply map_idem. intros bl Hbl.
  fold (withContent (js "bulletList") bl).
  destruct (withContent (js "bulletList") bl) eqn:E.
  - fold (withContent (js "bulletList")
            (markBulletList storyId issueUrl now bl)).
    assert (withContent (js "bulletList")
              (markBulletList storyId issueUrl now bl) = true) as ->.
    { unfold markBulletList. rewrite withContent_setContent.
      unfold withContent in E. by apply andb_true_iff in E as [-> _]. }
    apply markBulletList_twice. intros li Hli El Hs. apply Hst; [|done].
    unfold visitedItems. apply list_elem_of_In, in_flat_map.
    exists bl. split.
    + apply filter_In. split; [by apply list_elem_of_In|done].
    + apply filter_In. split; [by apply list_elem_of_In|done].
  - fold (withContent (js "bulletList") bl). by rewrite E.
Qed.

Lemma marking_twice_is_marking_once_witness :
  exists S1,
    addCompletionMarkerToShellStory sampleNow [bulletList [loginItem]]
      (js "st001") sampleKey sampleUrl = Ok S1 /\
    addCompletionMarkerToShellStory sampleNow S1 (js "st001") sampleKey
      sampleUrl = Ok S1.
Proof.
  eexists. split; [reflexivity|].
  apply (marking_twice_is_marking_once sampleNow [bulletList [loginItem]] _
           (js "st001") sampleKey sampleUrl).
  - reflexivity.
  - intros li Hli _. apply list_elem_of_In in Hli. simpl in Hli.
    destruct Hli as [<-|[]].
    intros p c Hp _ Hc. apply list_elem_of_In in Hp. simpl in Hp.
    destruct Hp as [<-|[]]. injection Hc as <-.
    split; [repeat constructor|]. left. reflexivity.
Defined.

(* ===================================================================== *)
(** * Properties of the write-next-story workflow *)
(* ===================================================================== *)

(** ** The next story *)

(** X13: [findNextUnwrittenStory] returns the first story, in the order of
    the list, that has no Jira URL or an empty one, and returns nothing
    exactly when every story has a non-empty URL. *)
Theorem next_unwritten_story_is_the_first
    (shellStories : list ParsedShellStoryADF) :
  match findNextUnwrittenStory shellStories with
  | Some s =>
      exists pre post,
        shellStories = pre ++ s :: post /\
        Forall (fun x => unwritten x = false) pre /\ unwritten s = true
  | None => Forall (fun x => unwritten x = false) shellStories
  end.
Proof.
  unfold findNextUnwrittenStory.
  induction shellStories as [|x l IH]; simpl; [constructor|].
  destruct (unwritten x) eqn:Ex.
  - exists [], l. by repeat split.
  - destruct (find unwritten l) as [s|].
    + destruct IH as (pre & post & -> & Hpre & Hs).
      exists (x :: pre), post. repeat split; [by constructor|done].
    + by constructor.
Qed.

(** ** Validation *)

Lemma findStory_some all d s :
  findStory all d = Some s -> s ∈ all /\ id s = d.
Proof.
  unfold findStory. intros H. apply find_some in H as [Hin Hid].
  split; [by apply list_elem_of_In|by apply streq_true].
Qed.

Section Validation.
Variable allStories : list ParsedShellStoryADF.
Variable story : ParsedShellStoryADF.


Lemma weight_visit_gen (l : list ParsedShellStoryADF) visited d s :
  s ∈ l -> id s = d -> d ∉ visited ->
  length (dependencies s)
  + sum_list_with (fun s => length (dependencies s))
      (List.filter (fun s => negb (bool_decide (id s ∈ d :: visited))) l)
  <= sum_list_with (fun s => length (dependencies s))
      (List.filter (fun s => negb (bool_decide (id s ∈ visited))) l).
Proof.
  intros Hin Hid Hd.
  assert (Hmono : forall l : list ParsedShellStoryADF,
    sum_list_with (fun s => length (dependencies s))
      (List.filter (fun s => negb (bool_decide (id s ∈ d :: visited))) l)
    <= sum_list_with (fun s => length (dependencies s))
      (List.filter (fun s => negb (bool_decide (id s ∈ visited))) l)).
  { clear. intros l. induction l as [|x l IH]; simpl; [done|].
    destruct (bool_decide_reflect (id x ∈ visited)) as [Hx|Hx]; simpl.
    - rewrite bool_decide_true by (by right). simpl. done.
    - destruct (bool_decide (id x ∈ d :: visited)); simpl; lia. }
  induction l as [|x l IH]; [by apply elem_of_nil in Hin|].
  apply elem_of_cons in Hin as [<-|Hin].
  - simpl. rewrite Hid.
    rewrite (bool_decide_true (d ∈ d :: visited)) by (by left).
    rewrite (bool_decide_false (d ∈ visited)) by done. simpl.
    specialize (Hmono l). lia.
  - specialize (IH Hin). simpl.
    destruct (bool_decide_reflect (id x ∈ visited)) as [Hx|Hx]; simpl.
    + rewrite bool_decide_true by (by right). simpl. done.
    + destruct (bool_decide (id x ∈ d :: visited)); simpl; lia.
Qed.

Lemma weight_visit visited d s :
  findStory allStories d = Some s -> d ∉ visited ->
  length (dependencies s) + weight allStories (d :: visited) <= weight allStories visited.
Proof.
  intros [Hin Hid]%findStory_some Hd. by apply weight_visit_gen.
Qed.

Lemma validateLoop_terminates fuel visited toCheck :
  length toCheck + weight allStories visited < fuel ->
  exists v, validateLoop fuel allStories visited toCheck = Some v.
Proof.
  revert visited toCheck.
  induction fuel as [|fuel IH]; intros visited toCheck Hlt; [lia|].
  simpl. destruct toCheck as [|d rest]; [by eexists|].
  simpl in Hlt.
  destruct (bool_decide_reflect (d ∈ visited)) as [Hd|Hd].
  - apply IH. lia.
  - destruct (findStory allStories d) as [s|] eqn:Hs; [|by eexists].
    destruct (unwritten s); [by eexists|].
    apply IH. rewrite length_app.
    pose proof (weight_visit visited d s Hs Hd). lia.
Qed.

Lemma weight_nil :
  weight allStories [] = sum_list_with (fun s => length (dependencies s)) allStories.
Proof.
  unfold weight. f_equal.
  induction allStories as [|x l IH]; [done|]. cbn [List.filter].
  rewrite bool_decide_false by apply not_elem_of_nil. cbn [negb].
  by rewrite IH.
Qed.


Lemma validateLoop_spec fuel visited toCheck v :
  loopInv allStories story visited toCheck ->
  validateLoop fuel allStories visited toCheck = Some v ->
  validationSpec allStories story v.
Proof.
  revert visited toCheck.
  induction fuel as [|fuel IH]; intros visited toCheck Hinv; [done|].
  simpl. destruct toCheck as [|d rest].
  - intros [= <-]. simpl. destruct Hinv as (_ & Hvis & Hclosed & Hroot).
    assert (Hall : forall d, required allStories story d -> d ∈ visited).
    { induction 1 as [d Hd|d s e _ IHd Hs He].
      - destruct (Hroot d Hd) as [?|?%elem_of_nil]; done.
      - destruct (Hclosed d s e IHd Hs He) as [?|?%elem_of_nil]; done. }
    intros d Hd. by apply Hvis, Hall.
  - destruct Hinv as (Hq & Hvis & Hclosed & Hroot).
    destruct (bool_decide_reflect (d ∈ visited)) as [Hd|Hd].
    + apply IH. split; [|split; [done|split]].
      * intros e He. apply Hq. by right.
      * intros e s f He Hs Hf.
        destruct (Hclosed e s f He Hs Hf) as [?|[->|?]%elem_of_cons]; auto.
      * intros e He.
        destruct (Hroot e He) as [?|[->|?]%elem_of_cons]; auto.
    + assert (Hreq : required allStories story d) by (apply Hq; by left).
      destruct (findStory allStories d) as [s|] eqn:Hs;
        [|intros [= <-]; by split].
      destruct (unwritten s) eqn:Hu;
        [intros [= <-]; split; [done|by exists s]|].
      apply IH. split; [|split; [|split]].
      * intros e [He|He]%elem_of_app; [apply Hq; by right|].
        by eapply required_next.
      * intros e [->|He]%elem_of_cons; [|by apply Hvis].
        split; [done|by exists s].
      * intros e s' f [->|He]%elem_of_cons Hs' Hf.
        -- rewrite Hs in Hs'. injection Hs' as <-.
           right. apply elem_of_app. by right.
        -- destruct (Hclosed e s' f He Hs' Hf) as [?|[->|?]%elem_of_cons].
           ++ left. by right.
           ++ left. by left.
           ++ right. apply elem_of_app. by left.
      * intros e He.
        destruct (Hroot e He) as [?|[->|?]%elem_of_cons].
        -- left. by right.
        -- left. by left.
        -- right. apply elem_of_app. by left.
Qed.

End Validation.

Lemma validateDependencies_spec story allStories fuel v :
  validateDependencies fuel story allStories = Some v ->
  validationSpec allStories story v.
Proof.
  intros Hv. eapply validateLoop_spec; [|exact Hv].
  split; [by constructor|]. split; [by intros d ?%elem_of_nil|].
  split; [by intros d s e ?%elem_of_nil|]. intros d Hd. by right.
Qed.

(** X14: the loop of [validateDependencies] ends, also when the
    dependencies form a cycle: one turn for each dependency entry of the
    story and of all the stories, and one more, suffice. It validates
    exactly when every id that can be reached through dependencies names a
    story that is written. *)
Theorem validation_terminates_and_decides
    (story : ParsedShellStoryADF) (allStories : list ParsedShellStoryADF)
    (fuel : nat) :
  validationTurns story allStories < fuel ->
  exists v,
    validateDependencies fuel story allStories = Some v /\
    (v = Validated <->
     forall d, required allStories story d -> satisfied allStories d).
Proof.
  intros Hfuel. unfold validateDependencies.
  destruct (validateLoop_terminates allStories fuel [] (dependencies story))
    as (v & Hv).
  { rewrite weight_nil. exact Hfuel. }
  exists v. split; [done|].
  assert (Hspec : validationSpec allStories story v)
    by (by apply (validateDependencies_spec story allStories fuel)).
  split.
  - intros ->. exact Hspec.
  - intros Hall. destruct v as [|[d|d]]; [done| |]; simpl in Hspec.
    + destruct Hspec as (Hr & Hn). destruct (Hall d Hr) as (s & Hs & _).
      congruence.
    + destruct Hspec as (Hr & s & Hs & Hu).
      destruct (Hall d Hr) as (s' & Hs' & Hu'). congruence.
Qed.

Lemma validation_terminates_and_decides_witness :
  exists v,
    validateDependencies 6 cyclicStory sampleStories = Some v /\
    (v = Validated <->
     forall d, required sampleStories cyclicStory d ->
               satisfied sampleStories d).
Proof.
  apply (validation_terminates_and_decides cyclicStory sampleStories 6).
  vm_compute. lia.
Defined.

(** X15: what [validateDependencies] reports is right: a validated story
    has all the reachable dependencies written; a dependency reported as
    not found is reachable and names no story; a dependency reported as not
    yet written is reachable and names a story without a URL. *)
Theorem validation_result_is_right
    (story : ParsedShellStoryADF) (allStories : list ParsedShellStoryADF)
    (fuel : nat) (v : Validation) :
  validateDependencies fuel story allStories = Some v ->
  validationSpec allStories story v.
Proof. apply validateDependencies_spec. Qed.

Lemma validation_result_is_right_witness :
  validationSpec sampleStories cyclicStory
    (Rejected (DependencyNotYetWritten (js "st003"))).
Proof.
  apply (validation_result_is_right cyclicStory sampleStories 4).
  reflexivity.
Defined.

(** X16: after a successful validation, the dependency stories that
    [generateStoryContent] collects for the prompt are, in order, one story
    for each dependency of the story, and all of them are written. *)
Theorem validated_story_has_all_its_dependency_stories
    (story : ParsedShellStoryADF) (allStories : list ParsedShellStoryADF)
    (fuel : nat) :
  validateDependencies fuel story allStories = Some Validated ->
  map id (dependencyStories story allStories) = dependencies story /\
  Forall (fun s => unwritten s = false) (dependencyStories story allStories).
Proof.
  intros Hv%validateDependencies_spec. simpl in Hv.
  assert (Hd : forall d, d ∈ dependencies story -> satisfied allStories d).
  { intros d Hd. apply Hv. by constructor. }
  unfold dependencyStories. clear Hv.
  induction (dependencies story) as [|d ds IH]; simpl; [done|].
  destruct (Hd d ltac:(left)) as (s & Hs & Hu). rewrite Hs. simpl.
  destruct IH as [IH1 IH2]; [intros e He; apply Hd; by right|].
  apply findStory_some in Hs as [_ Hid].
  split; [by rewrite Hid, IH1|by constructor].
Qed.

Lemma validated_story_has_all_its_dependency_stories_witness :
  map id (dependencyStories secondStory sampleStories)
  = dependencies secondStory /\
  Forall (fun s => unwritten s = false)
         (dependencyStories secondStory sampleStories).
Proof.
  apply (validated_story_has_all_its_dependency_stories secondStory
           sampleStories 3).
  reflexivity.
Defined.

(** ** Issue keys *)

Lemma takeWhile_app {A} (p : A -> bool) l x r :
  forallb p l = true -> p x = false -> takeWhile p (l ++ x :: r) = l.
Proof.
  intros Hl Hx. induction l as [|y l IH]; simpl in *; [by rewrite Hx|].
  apply andb_true_iff in Hl as [-> Hl]. by rewrite IH.
Qed.

Lemma dropWhile_app {A} (p : A -> bool) l x r :
  forallb p l = true -> p x = false -> dropWhile p (l ++ x :: r) = x :: r.
Proof.
  intros Hl Hx. induction l as [|y l IH]; simpl in *; [by rewrite Hx|].
  apply andb_true_iff in Hl as [-> Hl]. by rewrite IH.
Qed.

Lemma takeWhile_all {A} (p : A -> bool) l :
  forallb p l = true -> takeWhile p l = l.
Proof.
  induction l as [|y l IH]; simpl; [done|].
  intros [-> Hl]%andb_true_iff. by rewrite IH.
Qed.

Lemma takeWhile_forallb {A} (p : A -> bool) l :
  forallb p (takeWhile p l) = true.
Proof.
  induction l as [|y l IH]; simpl; [done|].
  destruct (p y) eqn:E; simpl; [by rewrite E|done].
Qed.

Lemma takeWhile_dropWhile {A} (p : A -> bool) l :
  takeWhile p l ++ dropWhile p l = l.
Proof.
  induction l as [|y l IH]; simpl; [done|].
  destruct (p y); simpl; [by rewrite IH|done].
Qed.

Lemma keyMatchAt_key key :
  isIssueKey key -> keyMatchAt (js "browse/" ++ key) = Some key.
Proof.
  intros (letters & digits & -> & Hl & Hd & Hul & Hdd).
  unfold keyMatchAt.
  replace (startsWith (js "browse/" ++ letters ++ [45%N] ++ digits)
             (js "browse/")) with true
    by (symmetry; apply startsWith_spec; by eexists).
  replace (drop (length (js "browse/"))
             (js "browse/" ++ letters ++ [45%N] ++ digits))
    with (letters ++ 45%N :: digits) by done.
  rewrite takeWhile_app, dropWhile_app by done.
  rewrite takeWhile_all by done.
  destruct letters; [done|]. by destruct digits.
Qed.

Lemma keyMatch_here s key : keyMatchAt s = Some key -> keyMatch s = Some key.
Proof. intros H. destruct s; cbn [keyMatch]; by rewrite H. Qed.

Lemma keyMatch_skip c s : keyMatchAt (c :: s) = None -> keyMatch (c :: s) = keyMatch s.
Proof. intros H. cbn [keyMatch]. by rewrite H. Qed.

(** X17: the URL that [updateEpicWithCompletion] writes for an issue key
    made of capital letters, a hyphen and digits is read back to the same
    key by the pattern of [createJiraIssue]. *)
Theorem completion_url_gives_back_the_key (key : jsstring) :
  isIssueKey key -> keyMatch (completionUrl key) = Some key.
Proof.
  intros Hk. unfold completionUrl.
  change (js "https://bitovi.atlassian.net/browse/")
    with (js "https://bitovi.atlassian.net/" ++ js "browse/").
  rewrite <- app_assoc.
  pose proof (keyMatch_here _ _ (keyMatchAt_key key Hk)) as Hrest.
  cbn [js list_ascii_of_string map N_of_ascii N_of_digits app] in *.
  repeat (rewrite keyMatch_skip by reflexivity).
  exact Hrest.
Qed.

Lemma completion_url_gives_back_the_key_witness :
  keyMatch (completionUrl sampleKey) = Some sampleKey.
Proof.
  apply (completion_url_gives_back_the_key sampleKey).
  exists (js "PROJ"), (js "123"). by repeat split.
Defined.

Lemma keyMatchAt_some s key :
  keyMatchAt s = Some key ->
  isIssueKey key /\ exists b, s = js "browse/" ++ key ++ b.
Proof.
  unfold keyMatchAt.
  destruct (startsWith s (js "browse/")) eqn:Hs; [|done].
  apply startsWith_spec in Hs as (r & ->).
  replace (drop (length (js "browse/")) (js "browse/" ++ r)) with r by done.
  pose proof (takeWhile_dropWhile isUpper r) as Hr.
  destruct (takeWhile isUpper r) as [|l ls] eqn:Hl; [done|].
  destruct (dropWhile isUpper r) as [|c r'] eqn:Hd; [done|].
  destruct (N.eq_dec c 45%N) as [->|Hne].
  - pose proof (takeWhile_dropWhile isDigit r') as Hr'.
    destruct (takeWhile isDigit r') as [|d ds] eqn:Hdg; [done|].
    intros [= <-]. split.
    + exists (l :: ls), (d :: ds). repeat split; [done|done| |].
      * rewrite <- Hl. apply takeWhile_forallb.
      * rewrite <- Hdg. apply takeWhile_forallb.
    + exists (dropWhile isDigit r'). rewrite <- Hr. rewrite <- Hr' at 1.
      f_equal. simpl. by rewrite <- app_assoc.
  - destruct c as [|p]; [done|].
    do 7 (destruct p as [p|p|]; try done).
Qed.

Lemma keyMatch_some url key :
  keyMatch url = Some key ->
  isIssueKey key /\ includes url (js "browse/" ++ key) = true.
Proof.
  induction url as [|c url IH]; cbn [keyMatch].
  - destruct (keyMatchAt []) eqn:E; [|done]. intros [= <-].
    apply keyMatchAt_some in E as [_ (b & Hb)]. done.
  - destruct (keyMatchAt (c :: url)) as [k|] eqn:E.
    + intros [= <-]. apply keyMatchAt_some in E as [Hk (b & Hb)].
      split; [done|]. rewrite Hb. apply includes_spec.
      exists [], b. by rewrite <- app_assoc.
    + intros [Hk Hi]%IH. split; [done|].
      cbn [includes]. rewrite Hi. apply orb_true_r.
Qed.

(** X18: a key that the pattern of [createJiraIssue] extracts from a URL
    is made of capital letters, a hyphen and digits, and stands in the URL
    right after [browse/]. *)
Theorem extracted_key_is_an_issue_key (jiraUrl key : jsstring) :
  keyMatch jiraUrl = Some key ->
  isIssueKey key /\ includes jiraUrl (js "browse/" ++ key) = true.
Proof. apply keyMatch_some. Qed.

Lemma extracted_key_is_an_issue_key_witness :
  isIssueKey sampleKey /\
  includes (completionUrl sampleKey) (js "browse/" ++ sampleKey) = true.
Proof.
  apply (extracted_key_is_an_issue_key (completionUrl sampleKey) sampleKey).
  reflexivity.
Defined.

(** X19: every blocker link that [createJiraIssue] adds points to an issue
    key read from the URL of a story that is a dependency of the new story
    and is written. *)
Theorem blocker_keys_come_from_written_dependencies
    (story : ParsedShellStoryADF) (allStories : list ParsedShellStoryADF) :
  Forall (fun depKey =>
            isIssueKey depKey /\
            exists depId depStory url,
              depId ∈ dependencies story /\
              findStory allStories depId = Some depStory /\
              jiraUrl depStory = Some url /\ unwritten depStory = false /\
              keyMatch url = Some depKey)
         (blockerKeys story allStories).
Proof.
  unfold blockerKeys. apply Forall_forall. intros k Hk.
  apply in_flat_map in Hk as (d & Hd & Hk).
  destruct (findStory allStories d) as [s|] eqn:Hs; [|done].
  destruct (jiraUrl s) as [url|] eqn:Hu; [|done].
  destruct (truthy url) eqn:Ht; [|done].
  destruct (keyMatch url) as [k'|] eqn:Hm; [|done].
  destruct Hk as [<-|[]].
  split; [by apply keyMatch_some in Hm as [? _]|].
  exists d, s, url. repeat split; try done.
  - by apply list_elem_of_In.
  - unfold unwritten. by rewrite Hu, Ht.
Qed.

(** ** The description sent back *)

(** X26: the description that [updateEpicWithCompletion] sends back always
    passes [validateAdf]; it has the nodes of the epic's description, with
    the content around the extracted section first and the updated
    section last, so that a section that was followed by other content
    moves to the end. *)
Theorem updated_description_puts_the_stories_last
    (toLowerCase : jsstring -> jsstring)
    (content : list ADFNode) (headingText now storyId issueKey issueUrl : jsstring)
    (updatedShellStories : list ADFNode) :
  let E := extractADFSection toLowerCase content headingText in
  addCompletionMarkerToShellStory now (section E) storyId issueKey issueUrl
  = Ok updatedShellStories ->
  let d := updatedAdfDoc (remainingContent E) updatedShellStories in
  validateAdf (Some d) = true /\
  length updatedShellStories = length (section E) /\
  exists before after,
    content = before ++ section E ++ after /\
    doc_content d = Some (before ++ after ++ updatedShellStories).
Proof.
  intros E Hmark d.
  split; [done|]. split.
  - unfold addCompletionMarkerToShellStory in Hmark.
    destruct (storyFound storyId (section E)); [|done].
    injection Hmark as <-. unfold updateWithContent. by rewrite length_map.
  - destruct (extractADFSection_splits toLowerCase content headingText)
      as (i & j & Hsec & Hrem & Hij).
    fold E in Hsec, Hrem.
    exists (take i content), (drop j content). split.
    + rewrite Hsec.
      rewrite <- (take_drop i content) at 1. f_equal.
      rewrite <- (take_drop (j - i) (drop i content)) at 1. f_equal.
      rewrite drop_drop. f_equal. lia.
    + subst d. unfold updatedAdfDoc. cbn [doc_content].
      by rewrite Hrem, <- app_assoc.
Qed.

Lemma updated_description_puts_the_stories_last_witness :
  exists updatedShellStories,
    addCompletionMarkerToShellStory sampleNow
      (section (extractADFSection asciiLower unknownDoc (js "Shell Stories")))
      (js "st001") sampleKey sampleUrl = Ok updatedShellStories /\
    let E := extractADFSection asciiLower unknownDoc (js "Shell Stories") in
    let d := updatedAdfDoc (remainingContent E) updatedShellStories in
    validateAdf (Some d) = true /\
    length updatedShellStories = length (section E) /\
    exists before after,
      unknownDoc = before ++ section E ++ after /\
      doc_content d = Some (before ++ after ++ updatedShellStories).
Proof.
  eexists. split; [reflexivity|].
  apply (updated_description_puts_the_stories_last asciiLower unknownDoc
           (js "Shell Stories") sampleNow (js "st001") sampleKey sampleUrl).
  reflexivity.
Defined.

(* ===================================================================== *)
(** * Properties of the extraction of the Figma links *)
(* ===================================================================== *)

(** Induction on nodes. *)
Lemma ADFNode_ind (P : ADFNode -> Prop) :
  (forall ty a mk tx, P (mkNode ty a mk tx None)) ->
  (forall ty a mk tx c, Forall P c -> P (mkNode ty a mk tx (Some c))) ->
  forall n, P n.
Proof.
  intros Hleaf Hnode.
  fix IH 1. intros [ty a mk tx [c|]]; [|apply Hleaf].
  apply Hnode. induction c as [|n c IHc]; constructor; [apply IH | done].
Qed.

Lemma traverse_unfold node s :
  traverse node s
  = fold_left (fun s n => traverse n s) (contentOf node) (visitNode node s).
Proof.
  destruct node as [ty a mk tx [c|]]; [|done].
  cbn [traverse content contentOf].
  generalize (visitNode (mkNode ty a mk tx (Some c)) s).
  induction c as [|n c IH]; intros s'; [done|]. cbn [fold_left]. apply IH.
Qed.


Lemma setAdd_figmaSet u s :
  includes u (js "figma.com") = true -> figmaSet s -> figmaSet (setAdd u s).
Proof.
  intros Hu [Hnd Hall]. unfold setAdd.
  destruct (bool_decide_reflect (u ∈ s)) as [Hin|Hin]; [done|]. split.
  - apply list.NoDup_app. split; [done|]. split; [|apply NoDup_singleton].
    intros x Hx ->%list_elem_of_singleton. done.
  - apply Forall_app. split; [done|]. by constructor.
Qed.

Lemma addIfFigma_figmaSet u s : figmaSet s -> figmaSet (addIfFigma u s).
Proof.
  intros Hs. unfold addIfFigma.
  destruct (includes u (js "figma.com")) eqn:E; [|done].
  by apply setAdd_figmaSet.
Qed.

Lemma includes_drop n s sub :
  includes (drop n s) sub = true -> includes s sub = true.
Proof.
  rewrite !includes_spec. intros (a & b & Hab).
  exists (take n s ++ a), b. rewrite <- app_assoc, <- Hab.
  by rewrite take_drop.
Qed.

Lemma figmaUrlAt_figma s m :
  figmaUrlAt s = Some m -> includes m (js "figma.com") = true.
Proof.
  assert (H : forall scheme, figmaUrlAfter scheme s = Some m ->
                             includes m (js "figma.com") = true).
  { intros scheme. unfold figmaUrlAfter.
    destruct (startsWith s scheme); [|done].
    destruct (includes (drop 1 _) _) eqn:E; [|done]. intros [= <-].
    apply includes_drop in E. apply includes_spec in E as (a & b & ->).
    apply includes_spec. exists (scheme ++ a), b. by rewrite <- app_assoc. }
  unfold figmaUrlAt.
  destruct (figmaUrlAfter (js "https://") s) eqn:E.
  - intros [= <-]. by eapply H.
  - apply H.
Qed.

Lemma figmaUrlMatches_figma skip s :
  Forall (fun u => includes u (js "figma.com") = true) (figmaUrlMatches skip s).
Proof.
  revert skip. induction s as [|c s IH]; intros skip; [constructor|].
  cbn [figmaUrlMatches]. destruct skip; [|apply IH].
  destruct (figmaUrlAt (c :: s)) eqn:E; [|apply IH].
  constructor; [by eapply figmaUrlAt_figma|apply IH].
Qed.

Lemma visitNode_figmaSet node s : figmaSet s -> figmaSet (visitNode node s).
Proof.
  intros Hs. unfold visitNode.
  set (s1 := if _ && _ then _ else s).
  assert (H1 : figmaSet s1).
  { subst s1. destruct (_ && _); [by apply addIfFigma_figmaSet|done]. }
  clearbody s1. clear Hs s.
  set (s2 := if isType node (js "text") then _ else s1).
  assert (H2 : figmaSet s2).
  { subst s2. destruct (isType node (js "text")); [|done].
    destruct (marks node) as [ms|]; [|done].
    revert s1 H1. induction ms as [|m ms IH]; intros s1 H1; [done|].
    cbn [fold_left]. apply IH. unfold linkStep.
    destruct (streq _ _); [|done].
    destruct (mark_attrs m); [|done].
    destruct (lookupAttr _ _); [|done].
    destruct (truthy _); [|done]. by apply addIfFigma_figmaSet. }
  clearbody s2. clear H1 s1.
  destruct (_ && _); [|done].
  pose proof (figmaUrlMatches_figma 0 (textOrEmpty node)) as Hm.
  revert s2 H2. induction Hm as [|u us Hu _ IH]; intros s2 H2; [done|].
  cbn [fold_left]. apply IH. by apply setAdd_figmaSet.
Qed.

Lemma traverse_figmaSet node : forall s, figmaSet s -> figmaSet (traverse node s).
Proof.
  induction node as [ty a mk tx|ty a mk tx c IH] using ADFNode_ind;
    intros s Hs; rewrite traverse_unfold.
  - by apply visitNode_figmaSet.
  - cbn [contentOf content].
    pose proof (visitNode_figmaSet (mkNode ty a mk tx (Some c)) s Hs) as Hv.
    revert Hv. generalize (visitNode (mkNode ty a mk tx (Some c)) s).
    induction IH as [|n c Hn _ IHc]; intros s' Hs'; [done|].
    cbn [fold_left]. apply IHc. by apply Hn.
Qed.

(** X24: the URLs that [extractFigmaUrlsFromADF] returns are distinct and
    each of them holds [figma.com]. *)
Theorem figma_urls_are_distinct_figma_links (adf : ADFDocument) :
  NoDup (extractFigmaUrlsFromADF adf) /\
  Forall (fun url => includes url (js "figma.com") = true)
         (extractFigmaUrlsFromADF adf).
Proof.
  apply traverse_figmaSet. split; constructor.
Qed.

(** Nothing leaves the set. *)
Lemma setAdd_mono u s x : x ∈ s -> x ∈ setAdd u s.
Proof.
  unfold setAdd. destruct (bool_decide _); [done|].
  intros. apply elem_of_app. by left.
Qed.

Lemma setAdd_in u s : u ∈ setAdd u s.
Proof.
  unfold setAdd. destruct (bool_decide_reflect (u ∈ s)); [done|].
  apply elem_of_app. right. by left.
Qed.

Lemma addIfFigma_mono u s x : x ∈ s -> x ∈ addIfFigma u s.
Proof.
  unfold addIfFigma. destruct (includes _ _); [apply setAdd_mono|done].
Qed.

Lemma fold_setAdd_mono us s x :
  x ∈ s -> x ∈ fold_left (fun s url => setAdd url s) us s.
Proof.
  revert s. induction us as [|u us IH]; intros s Hx; [done|].
  cbn [fold_left]. by apply IH, setAdd_mono.
Qed.


Lemma linkStep_mono s m x : x ∈ s -> x ∈ linkStep s m.
Proof.
  unfold linkStep. destruct (streq _ _); [|done].
  destruct (mark_attrs m); [|done]. destruct (lookupAttr _ _); [|done].
  destruct (truthy _); [apply addIfFigma_mono|done].
Qed.

Lemma fold_linkStep_mono ms s x :
  x ∈ s -> x ∈ fold_left linkStep ms s.
Proof.
  revert s. induction ms as [|m ms IH]; intros s Hx; [done|].
  cbn [fold_left]. by apply IH, linkStep_mono.
Qed.

Lemma visitNode_mono node s x : x ∈ s -> x ∈ visitNode node s.
Proof.
  intros Hx. unfold visitNode.
  set (s1 := if _ && _ then _ else s).
  assert (H1 : x ∈ s1).
  { subst s1. destruct (_ && _); [by apply addIfFigma_mono|done]. }
  clearbody s1.
  set (s2 := if isType node (js "text") then _ else s1).
  assert (H2 : x ∈ s2).
  { subst s2. destruct (isType node (js "text")); [|done].
    destruct (marks node); [by apply fold_linkStep_mono|done]. }
  clearbody s2.
  destruct (_ && _); [by apply fold_setAdd_mono|done].
Qed.

Lemma traverse_mono node : forall s x, x ∈ s -> x ∈ traverse node s.
Proof.
  induction node as [ty a mk tx|ty a mk tx c IH] using ADFNode_ind;
    intros s x Hx; rewrite traverse_unfold.
  - by apply visitNode_mono.
  - cbn [contentOf content].
    pose proof (visitNode_mono (mkNode ty a mk tx (Some c)) s x Hx) as Hv.
    revert Hv. generalize (visitNode (mkNode ty a mk tx (Some c)) s).
    induction IH as [|n c Hn _ IHc]; intros s' Hs'; [done|].
    cbn [fold_left]. apply IHc. by apply Hn.
Qed.

Lemma fold_traverse_mono c s x :
  x ∈ s -> x ∈ fold_left (fun s n => traverse n s) c s.
Proof.
  revert s. induction c as [|n c IH]; intros s Hx; [done|].
  cbn [fold_left]. by apply IH, traverse_mono.
Qed.

(** A link to Figma on a text node is collected. *)
Lemma visitNode_link node s m bag href :
  isType node (js "text") = true ->
  (exists ms, marks node = Some ms /\ m ∈ ms) ->
  mark_type m = js "link" -> mark_attrs m = Some bag ->
  lookupAttr (js "href") bag = Some href ->
  includes href (js "figma.com") = true ->
  href ∈ visitNode node s.
Proof.
  intros Ht (ms & Hms & Hm) Hty Hbag Hhref Hfig.
  unfold visitNode. rewrite Ht, Hms. cbn [andb].
  set (s1 := if _ && _ then _ else s). clearbody s1.
  assert (H2 : href ∈ fold_left linkStep ms s1).
  { apply list_elem_of_split in Hm as (l1 & l2 & ->).
    rewrite fold_left_app. cbn [fold_left]. apply fold_linkStep_mono.
    unfold linkStep at 1. rewrite Hty, Hbag, Hhref.
    assert (truthy href = true) as ->.
    { destruct href; [|done]. by apply includes_spec in Hfig as ([|??] & ? & ?). }
    change (streq (js "link") (js "link")) with true. cbv iota.
    unfold addIfFigma. rewrite Hfig. apply setAdd_in. }
  destruct (truthy (textOrEmpty node)); [by apply fold_setAdd_mono|done].
Qed.

Lemma traverse_link root n m bag href : forall s,
  n ∈ subnodes root ->
  isType n (js "text") = true ->
  (exists ms, marks n = Some ms /\ m ∈ ms) ->
  mark_type m = js "link" -> mark_attrs m = Some bag ->
  lookupAttr (js "href") bag = Some href ->
  includes href (js "figma.com") = true ->
  href ∈ traverse root s.
Proof.
  induction root as [ty a mk tx|ty a mk tx c IH] using ADFNode_ind;
    intros s Hn Ht Hm Hty Hbag Hhref Hfig; rewrite traverse_unfold;
    rewrite subnodes_unfold in Hn;
    apply elem_of_cons in Hn as [->|Hn].
  - by eapply visitNode_link.
  - by apply elem_of_nil in Hn.
  - apply fold_traverse_mono. by eapply visitNode_link.
  - cbn [contentOf content] in *.
    generalize (visitNode (mkNode ty a mk tx (Some c)) s).
    apply elem_of_allNodes in Hn as (k & Hk & Hn).
    induction IH as [|x c Hx _ IHc]; intros s'; [by apply elem_of_nil in Hk|].
    cbn [fold_left]. apply elem_of_cons in Hk as [<-|Hk].
    + apply fold_traverse_mono. by apply Hx.
    + by apply IHc.
Qed.

(** X25: every link mark on a text node of the document whose [href] holds
    [figma.com] has its [href] among the URLs that
    [extractFigmaUrlsFromADF] returns. *)
Theorem figma_links_on_text_are_collected
    (adf : ADFDocument) (c : list ADFNode) (n : ADFNode) (ms : list Mark)
    (m : Mark) (bag : list (jsstring * jsstring)) (href : jsstring) :
  doc_content adf = Some c -> n ∈ allNodes c ->
  isType n (js "text") = true -> marks n = Some ms -> m ∈ ms ->
  mark_type m = js "link" -> mark_attrs m = Some bag ->
  lookupAttr (js "href") bag = Some href ->
  includes href (js "figma.com") = true ->
  href ∈ extractFigmaUrlsFromADF adf.
Proof.
  intros Hc Hn Ht Hms Hm Hty Hbag Hhref Hfig.
  unfold extractFigmaUrlsFromADF.
  eapply (traverse_link (docNode adf) n m bag href); eauto.
  rewrite subnodes_unfold. right. unfold docNode, contentOf. simpl.
  by rewrite Hc.
Qed.

Lemma figma_links_on_text_are_collected_witness :
  js "https://www.figma.com/file/a"
  ∈ extractFigmaUrlsFromADF
      (mkDoc 1 (js "doc")
         (Some [paragraph
                  [markedText (js "design")
                     [linkMark (js "https://www.figma.com/file/a")]]])).
Proof.
  eapply (figma_links_on_text_are_collected _ _
            (markedText (js "design")
               [linkMark (js "https://www.figma.com/file/a")])
            _ (linkMark (js "https://www.figma.com/file/a")));
    try reflexivity.
  - apply list_elem_of_In. vm_compute. tauto.
  - apply list_elem_of_In. vm_compute. tauto.
Defined.
